(** * leveldb-py convenience layer: a shallow embedding and its properties

    The development follows [leveldb/convenience.py]: byte-string keys and
    their ordering, the native cursor the layer drives, [Iterator],
    [_MemorySafety], the write batches and [DBInterface]. *)

From Stdlib Require Import NArith List Lia Bool Sorted Permutation.
From Stdlib Require Import Strings.Byte.
From stdpp Require Import base option list gmap fin_sets strings sorting.

(** ** Byte strings

    Keys and values are Python 2 [str] objects, that is, byte strings. *)

Abbreviation bytes := (list byte).

#[global] Instance byte_eq_dec : EqDecision byte := Byte.byte_eq_dec.

#[global] Program Instance byte_countable : Countable byte :=
  inj_countable' Byte.to_N (fun n => default x00 (Byte.of_N n)) _.
Next Obligation. intros b. simpl. by rewrite Byte.of_to_N. Qed.

(** Python compares [str] values byte by byte, a proper prefix being
    smaller. *)
Fixpoint bytes_compare (a b : bytes) : comparison :=
  match a, b with
  | [], [] => Eq
  | [], _ :: _ => Lt
  | _ :: _, [] => Gt
  | x :: a', y :: b' =>
      match (Byte.to_N x ?= Byte.to_N y)%N with
      | Eq => bytes_compare a' b'
      | c => c
      end
  end.

Definition bytes_ltb (a b : bytes) : bool :=
  match bytes_compare a b with Lt => true | _ => false end.

(** [a > b] *)
Definition bytes_gtb (a b : bytes) : bool :=
  match bytes_compare a b with Gt => true | _ => false end.

(** [a == b] *)
Definition bytes_eqb (a b : bytes) : bool := bool_decide (a = b).

Definition bytes_lt (a b : bytes) : Prop := bytes_compare a b = Lt.
Definition bytes_le (a b : bytes) : Prop := bytes_compare a b <> Gt.

(** [key[:len(prefix)] == prefix] *)
Definition startswith (prefix key : bytes) : bool :=
  bool_decide (take (length prefix) key = prefix).

(** [s.rstrip(c)] for a one-character [c]: drop the trailing run of [c]. *)
Fixpoint rstrip (c : byte) (s : bytes) : bytes :=
  match s with
  | [] => []
  | b :: s' =>
      match rstrip c s' with
      | [] => if bool_decide (b = c) then [] else [b]
      | t => b :: t
      end
  end.

(** ** Exceptions *)

Inductive exn : Set :=
  | StopIteration
  | ValueError        (* also [long('', 16)] *)
  | TypeError         (* [decode('hex')] of an odd-length string *)
  | AttributeError
  | AlreadyClosed     (* [Exception("already closed")] *)
  | EngineUndefined.  (* the native cursor read or moved while not valid *)

Inductive result (A : Type) : Type :=
  | Ok (a : A)
  | Raise (e : exn).
Arguments Ok {A} a.
Arguments Raise {A} e.

#[global] Instance result_bind : MBind result := fun A B k r =>
  match r with
  | Ok a => k a
  | Raise e => Raise e
  end.

#[global] Instance result_ret : MRet result := fun A a => Ok a.

(** ** Hexadecimal strings

    A hexadecimal string is kept as the list of its digit values, most
    significant first.  The ['0x'] head and the ['L'] tail that Python's
    [hex] puts around the digits of a [long], and that [seekLast] cuts off
    again with [[2:]] and [rstrip("L")], are not represented. *)

(** [s.encode('hex')] *)
Definition encode_hex (s : bytes) : list N :=
  flat_map (fun b => [Byte.to_N b / 16; Byte.to_N b mod 16])%N s.

Definition digits_value (ds : list N) : N :=
  fold_left (fun acc d => 16 * acc + d)%N ds 0%N.

(** [long(s, 16)]; the empty string is not a literal. *)
Definition long16 (ds : list N) : result N :=
  match ds with
  | [] => Raise ValueError
  | _ => Ok (digits_value ds)
  end.

Fixpoint hex_digits (fuel : nat) (n : N) (acc : list N) : list N :=
  match fuel with
  | O => acc
  | S fuel' =>
      if (n <? 16)%N then n :: acc
      else hex_digits fuel' (n / 16)%N ((n mod 16)%N :: acc)
  end.

(** [hex(n)[2:].rstrip("L")]: the digits of [n], without leading zeros,
    ["0"] for zero.  A number of [N.size_nat n] bits has no more digits
    than bits. *)
Definition hex (n : N) : list N := hex_digits (S (N.size_nat n)) n [].

(** [s.rjust(width, "0")] *)
Definition rjust (width : nat) (ds : list N) : list N :=
  replicate (width - length ds) 0%N ++ ds.

(** [s.decode('hex')] *)
Fixpoint decode_hex (ds : list N) : result bytes :=
  match ds with
  | [] => Ok []
  | [_] => Raise TypeError
  | h :: l :: ds' =>
      match Byte.of_N (16 * h + l) with
      | Some b => rest ← decode_hex ds'; Ok (b :: rest)
      | None => Raise TypeError
      end
  end.

(** The lines of [Iterator.seekLast] that compute [next_prefix]. *)
Definition next_prefix (prefix : bytes) : result bytes :=
  let hex_prefix := encode_hex prefix in
  n ← long16 hex_prefix;
  let next_prefix := hex (n + 1) in
  let next_prefix := rjust (length hex_prefix) next_prefix in
  next_prefix ← decode_hex next_prefix;
  Ok (rstrip x00 next_prefix).

(** ** The native cursor *)

(** [Row = namedtuple('Row', 'key value')] *)
Module Row.
Record t : Type := mk { key : bytes; value : bytes }.
End Row.

Module Engine.

(** Modelled from the spec: the storage engine's cursor (section 6:
    [seek], [seekFirst], [seekLast], [next], [prev], [valid], [key],
    [value]) is not part of [convenience.py].  The store is a list of
    entries in ascending key order and the cursor is either on the entry
    of some index or not valid; [seek] goes to the first entry whose key
    is not below the target; stepping off either end leaves the cursor
    not valid; reading or stepping a cursor that is not valid is
    undefined (section 4.2) and shows as [EngineUndefined]. *)
Record Cursor : Type := mkCursor {
  entries : list (bytes * bytes);
  pos : option nat
}.

Definition at_index (es : list (bytes * bytes)) (i : nat) : option nat :=
  if i <? length es then Some i else None.

Fixpoint lower_bound (k : bytes) (es : list (bytes * bytes)) : nat :=
  match es with
  | [] => 0
  | e :: es' => if bytes_ltb e.1 k then S (lower_bound k es') else 0
  end.

Definition current (c : Cursor) : option (bytes * bytes) :=
  i ← pos c; entries c !! i.

Definition valid (c : Cursor) : bool := bool_decide (is_Some (current c)).

Definition seek (k : bytes) (c : Cursor) : Cursor :=
  mkCursor (entries c) (at_index (entries c) (lower_bound k (entries c))).

Definition seekFirst (c : Cursor) : Cursor :=
  mkCursor (entries c) (at_index (entries c) 0).

Definition seekLast (c : Cursor) : Cursor :=
  mkCursor (entries c)
    (match length (entries c) with O => None | S n => Some n end).

Definition next (c : Cursor) : result Cursor :=
  match current c, pos c with
  | Some _, Some i => Ok (mkCursor (entries c) (at_index (entries c) (S i)))
  | _, _ => Raise EngineUndefined
  end.

Definition prev (c : Cursor) : result Cursor :=
  match current c, pos c with
  | Some _, Some i =>
      Ok (mkCursor (entries c) (match i with O => None | S j => Some j end))
  | _, _ => Raise EngineUndefined
  end.

Definition key (c : Cursor) : result bytes :=
  match current c with
  | Some e => Ok e.1
  | None => Raise EngineUndefined
  end.

Definition val (c : Cursor) : result bytes :=
  match current c with
  | Some e => Ok e.2
  | None => Raise EngineUndefined
  end.

(** Strictly ascending keys. *)
Fixpoint ascending (es : list (bytes * bytes)) : bool :=
  match es with
  | [] => true
  | e :: es' =>
      match es' with
      | [] => true
      | e' :: _ => bytes_ltb e.1 e'.1 && ascending es'
      end
  end.

End Engine.

(** ** [class Iterator]

    The iterator's guard is taken to be open, so that [self._impl.ref] is
    the native cursor; the cursor is threaded through the methods as
    [ref]. *)

Module Iterator.

Record t : Type := mk {
  _impl : nat;               (* the address of the iterator's guard *)
  _prefix : option bytes;
  _keys_only : bool
}.

(** What [next] hands out: a [Row], or the bare key when [keys_only]. *)
Inductive item : Type :=
  | ARow (r : Row.t)
  | AKey (k : bytes).

Definition valid (self : t) (ref : Engine.Cursor) : result bool :=
  let prefix := _prefix self in
  let valid := Engine.valid ref in
  if negb valid then Ok valid
  else match prefix with
       | None => Ok valid
       | Some prefix =>
           key ← Engine.key ref;
           Ok (bool_decide (take (length prefix) key = prefix))
       end.

Definition seekFirst (self : t) (ref : Engine.Cursor) : Engine.Cursor :=
  match _prefix self with
  | Some prefix => Engine.seek prefix ref
  | None => Engine.seekFirst ref
  end.

Definition seekLast (self : t) (ref : Engine.Cursor) : result Engine.Cursor :=
  match _prefix self with
  | None => Ok (Engine.seekLast ref)
  | Some prefix =>
      if bool_decide (prefix = replicate (length prefix) xff)
      then Ok (Engine.seekLast ref)
      else
        next_prefix ← next_prefix prefix;
        let ref := Engine.seek next_prefix ref in
        if Engine.valid ref then Engine.prev ref
        else Ok (Engine.seekLast ref)
  end.

Definition seek (self : t) (key : bytes) (ref : Engine.Cursor)
  : Engine.Cursor :=
  let key := match _prefix self with
             | Some prefix => prefix ++ key
             | None => key
             end in
  Engine.seek key ref.

Definition key (self : t) (ref : Engine.Cursor) : result bytes :=
  key ← Engine.key ref;
  match _prefix self with
  | Some prefix => Ok (drop (length prefix) key)
  | None => Ok key
  end.

Definition value (self : t) (ref : Engine.Cursor) : result bytes :=
  Engine.val ref.

Definition current_item (self : t) (ref : Engine.Cursor) : result item :=
  if _keys_only self then k ← key self ref; Ok (AKey k)
  else k ← key self ref; v ← value self ref; Ok (ARow (Row.mk k v)).

Definition next (self : t) (ref : Engine.Cursor)
  : result (item * Engine.Cursor) :=
  v ← valid self ref;
  if negb v then Raise StopIteration
  else
    rv ← current_item self ref;
    ref ← Engine.next ref;
    Ok (rv, ref).

Definition prev (self : t) (ref : Engine.Cursor)
  : result (item * Engine.Cursor) :=
  v ← valid self ref;
  if negb v then Raise StopIteration
  else
    rv ← current_item self ref;
    ref ← Engine.prev ref;
    Ok (rv, ref).

Definition stepForward (self : t) (ref : Engine.Cursor)
  : result Engine.Cursor := Engine.next ref.

Definition stepBackward (self : t) (ref : Engine.Cursor)
  : result Engine.Cursor := Engine.prev ref.

(** Successive [next()] calls, up to the first one that raises; [None]
    when [fuel] calls all returned. *)
Fixpoint nexts (fuel : nat) (self : t) (ref : Engine.Cursor)
  : list item * option exn :=
  match fuel with
  | O => ([], None)
  | S fuel' =>
      match next self ref with
      | Raise e => ([], Some e)
      | Ok (rv, ref') =>
          let '(rvs, e) := nexts fuel' self ref' in (rv :: rvs, e)
      end
  end.

(** How a generator ends: it returns, it raises, or [fuel] ran out. *)
Inductive ending : Set :=
  | Returned
  | Failed (e : exn)
  | Unfinished.

(** [row.key]: a bare key (a [str]) has no such attribute. *)
Definition item_key (row : item) : result bytes :=
  match row with
  | ARow r => Ok (Row.key r)
  | AKey _ => Raise AttributeError
  end.

(** The test before [break] in [range]. *)
Definition past_end (end_key : option bytes) (end_inclusive : bool)
    (row : item) : result bool :=
  match end_key with
  | None => Ok false
  | Some end_key =>
      k ← item_key row;
      Ok (bytes_gtb k end_key || (negb end_inclusive && bytes_eqb k end_key))
  end.

(** [for row in self: ...] of [range]. *)
Fixpoint range_loop (fuel : nat) (self : t) (end_key : option bytes)
    (end_inclusive : bool) (ref : Engine.Cursor) : list item * ending :=
  match fuel with
  | O => ([], Unfinished)
  | S fuel' =>
      match next self ref with
      | Raise StopIteration => ([], Returned)
      | Raise e => ([], Failed e)
      | Ok (row, ref') =>
          match past_end end_key end_inclusive row with
          | Raise e => ([], Failed e)
          | Ok true => ([], Returned)
          | Ok false =>
              let '(rows, fin) :=
                range_loop fuel' self end_key end_inclusive ref' in
              (row :: rows, fin)
          end
      end
  end.

(** The statements of [range] before its loop. *)
Definition range_start (self : t) (start_key : option bytes)
    (start_inclusive : bool) (ref : Engine.Cursor) : result Engine.Cursor :=
  match start_key with
  | Some start_key =>
      let ref := seek self start_key ref in
      skip ← (if negb start_inclusive
              then k ← key self ref; Ok (bytes_eqb k start_key)
              else Ok false);
      if (skip : bool) then Engine.next ref else Ok ref
  | None => Ok (seekFirst self ref)
  end.

(** The rows the generator [range] yields, and how it ends. *)
Definition range (fuel : nat) (self : t) (start_key end_key : option bytes)
    (start_inclusive end_inclusive : bool) (ref : Engine.Cursor)
  : list item * ending :=
  match range_start self start_key start_inclusive ref with
  | Raise e => ([], Failed e)
  | Ok ref => range_loop fuel self end_key end_inclusive ref
  end.

End Iterator.

(** ** [class _MemorySafety]

    Guards are objects on a heap, named by their address ([id]).  A native
    resource is named by a number; closing it is recorded in a log. *)

Module MemorySafety.

Record t : Type := mk {
  ref : option nat;               (* the native resource, [None] once closed *)
  _referrers : option (list nat)  (* the keys of the WeakValueDictionary *)
}.

Record heap : Type := mkHeap {
  objs : list (option t);   (* [None]: the object has been destroyed *)
  released : list nat;      (* the native resources closed so far, in order *)
  natives : nat             (* the next unused native resource *)
}.

(** Dereferencing a weak reference: [None] when the object is gone. *)
Definition live (a : nat) (h : heap) : option t := mjoin (objs h !! a).

Definition store (a : nat) (g : t) (h : heap) : heap :=
  mkHeap (<[a := Some g]> (objs h)) (released h) (natives h).

(** [ref.close()] on a native resource *)
Definition native_close (r : nat) (h : heap) : heap :=
  mkHeap (objs h) (released h ++ [r]) (natives h).

(** [_MemorySafety(ref)] *)
Definition new (r : nat) (h : heap) : nat * heap :=
  (length (objs h),
   mkHeap (objs h ++ [Some (mk (Some r) (Some []))]) (released h) (natives h)).

(** [d[k] = v] on the keys of a dictionary *)
Definition dict_add (k : nat) (keys : list nat) : list nat :=
  if bool_decide (k ∈ keys) then keys else keys ++ [k].

Definition addReferrer (self referrer : nat) (h : heap) : result heap :=
  match live self h with
  | None => Raise AttributeError
  | Some g =>
      match _referrers g with
      | None => Raise AlreadyClosed
      | Some referrers =>
          Ok (store self (mk (ref g) (Some (dict_add referrer referrers))) h)
      end
  end.

Fixpoint for_each {A S : Type} (body : A -> S -> option S) (l : list A)
    (s : S) : option S :=
  match l with
  | [] => Some s
  | a :: l' => s' ← body a s; for_each body l' s'
  end.

(** [close]; [None] when [fuel] nested calls were not enough. *)
Fixpoint close (fuel : nat) (self : nat) (h : heap) : option heap :=
  match fuel with
  | O => None
  | S fuel' =>
      match live self h with
      | None => Some h
      | Some g =>
          let ref := ref g in
          let referrers := _referrers g in
          let h := store self (mk None None) h in
          h ← match referrers with
               | Some referrers =>
                   for_each (fun referrer h =>
                               match live referrer h with
                               | Some _ => close fuel' referrer h
                               | None => Some h
                               end) referrers h
               | None => Some h
               end;
          match ref with
          | Some ref => Some (native_close ref h)
          | None => Some h
          end
      end
  end.

(** The number of guards whose referrer table is still there. *)
Definition is_open (o : option t) : bool :=
  match o with
  | Some g => bool_decide (is_Some (_referrers g))
  | None => false
  end.

Definition opens (h : heap) : nat := length (filter is_open (objs h)).

(** The native resources the guards of the heap hold. *)
Definition held (h : heap) : list nat := omap (fun o => o ≫= ref) (objs h).

(** The state of a guard after [close]. *)
Definition closed : t := mk None None.

(** What [close] may do to a heap: guards only go from live to closed, and
    the resources they lose are the ones newly released. *)
Record evolves (h h' : heap) : Prop := {
  ev_natives : natives h' = natives h;
  ev_live : forall x, live x h' = live x h
                      \/ (is_Some (live x h) /\ live x h' = Some closed);
  ev_opens : opens h' <= opens h;
  ev_released : exists new, released h' = released h ++ new
                            /\ held h ≡ₚ held h' ++ new
}.

(** The body of the loop of [close]. *)
Definition body (fuel : nat) (referrer : nat) (h : heap) : option heap :=
  match live referrer h with
  | Some _ => close fuel referrer h
  | None => Some h
  end.

(** [close] with [fuel] returns, and the guard and the referrers that were
    live are closed afterwards. *)
Definition close_ok (fuel : nat) : Prop :=
  forall a h, opens h < fuel ->
    exists h', close fuel a h = Some h' /\ evolves h h'
               /\ (is_Some (live a h) -> live a h' = Some closed)
               /\ (forall g rs d, live a h = Some g ->
                      _referrers g = Some rs -> d ∈ rs ->
                      is_Some (live d h) -> live d h' = Some closed).

End MemorySafety.

(** ** [class _OpaqueWriteBatch], [class WriteBatch]

    Batches are objects too: a method changes the object at an address of
    the batch store, and a call that raises leaves the store as it is. *)

Module WriteBatch.

Record t : Type := mk {
  _puts : gmap bytes bytes;
  _deletes : gset bytes;
  _private : bool
}.

Abbreviation store := (list t).

(** [_OpaqueWriteBatch()] *)
Definition new_opaque (σ : store) : nat * store :=
  (length σ, σ ++ [mk ∅ ∅ true]).

(** [WriteBatch()] *)
Definition new (σ : store) : nat * store :=
  (length σ, σ ++ [mk ∅ ∅ false]).

Definition clear (self : nat) (σ : store) : result unit * store :=
  match σ !! self with
  | None => (Raise AttributeError, σ)
  | Some b => (Ok (), <[self := mk ∅ ∅ (_private b)]> σ)
  end.

(** [put] and [delete] are methods of [WriteBatch] only. *)
Definition put (self : nat) (key val : bytes) (σ : store)
  : result unit * store :=
  match σ !! self with
  | None => (Raise AttributeError, σ)
  | Some b =>
      if _private b then (Raise AttributeError, σ)
      else
        let deletes := _deletes b ∖ {[key]} in
        let puts := <[key := val]> (_puts b) in
        (Ok (), <[self := mk puts deletes (_private b)]> σ)
  end.

Definition delete (self : nat) (key : bytes) (σ : store)
  : result unit * store :=
  match σ !! self with
  | None => (Raise AttributeError, σ)
  | Some b =>
      if _private b then (Raise AttributeError, σ)
      else
        let puts := base.delete key (_puts b) in
        let deletes := _deletes b ∪ {[key]} in
        (Ok (), <[self := mk puts deletes (_private b)]> σ)
  end.

(** The put set and the delete set have no key in common. *)
Definition disjoint (b : t) : Prop := dom (_puts b) ## _deletes b.

End WriteBatch.

(** ** [class DBInterface] *)

Module DBInterface.

Record t : Type := mk {
  _impl : nat;                 (* the address of the guard *)
  _prefix : option bytes;
  _allow_close : bool;
  _default_sync : bool;
  _default_verify_checksums : bool;
  _default_fill_cache : bool
}.

(** [_makeDBFromImpl], the way [DB()] and [MemoryDB()] make a handle from
    a freshly opened native store [impl]. *)
Definition _makeDBFromImpl (impl : nat) (default_sync
    default_verify_checksums default_fill_cache : bool)
    (h : MemorySafety.heap) : t * MemorySafety.heap :=
  let '(g, h) := MemorySafety.new impl h in
  (mk g None true default_sync default_verify_checksums default_fill_cache,
   h).

Definition close (fuel : nat) (self : t) (h : MemorySafety.heap)
  : option MemorySafety.heap :=
  if _allow_close self then MemorySafety.close fuel (_impl self) h
  else Some h.

Definition newBatch (self : t) (σ : WriteBatch.store)
  : nat * WriteBatch.store :=
  WriteBatch.new_opaque σ.

Definition translate (self : t) (key : bytes) : bytes :=
  match _prefix self with
  | Some prefix => prefix ++ key
  | None => key
  end.

Definition putTo (self : t) (batch : nat) (key val : bytes)
    (σ : WriteBatch.store) : result unit * WriteBatch.store :=
  match σ !! batch with
  | None => (Raise AttributeError, σ)
  | Some b =>
      if negb (WriteBatch._private b) then (Raise ValueError, σ)
      else
        let key := translate self key in
        let deletes := WriteBatch._deletes b ∖ {[key]} in
        let puts := <[key := val]> (WriteBatch._puts b) in
        (Ok (),
         <[batch := WriteBatch.mk puts deletes (WriteBatch._private b)]> σ)
  end.

Definition deleteFrom (self : t) (batch : nat) (key : bytes)
    (σ : WriteBatch.store) : result unit * WriteBatch.store :=
  match σ !! batch with
  | None => (Raise AttributeError, σ)
  | Some b =>
      if negb (WriteBatch._private b) then (Raise ValueError, σ)
      else
        let key := translate self key in
        let puts := base.delete key (WriteBatch._puts b) in
        let deletes := WriteBatch._deletes b ∪ {[key]} in
        (Ok (),
         <[batch := WriteBatch.mk puts deletes (WriteBatch._private b)]> σ)
  end.

(** What [write] passes to the engine's [write]: the address of a batch
    and [sync]. *)
Record engine_write : Type := mkWrite { w_batch : nat; w_sync : bool }.

Definition write (self : t) (batch : nat) (sync : option bool)
    (σ : WriteBatch.store) : result engine_write * WriteBatch.store :=
  let sync := default (_default_sync self) sync in
  match σ !! batch with
  | None => (Raise AttributeError, σ)
  | Some b =>
      match _prefix self with
      | Some prefix =>
          if negb (WriteBatch._private b) then
            let '(unscoped_batch, σ) := WriteBatch.new_opaque σ in
            let puts :=
              map_fold (fun key value (acc : gmap bytes bytes) =>
                          <[prefix ++ key := value]> acc)
                       ∅ (WriteBatch._puts b) in
            let deletes :=
              set_fold (fun key (acc : gset bytes) => acc ∪ {[prefix ++ key]})
                       ∅ (WriteBatch._deletes b) in
            let σ := <[unscoped_batch := WriteBatch.mk puts deletes true]> σ in
            (Ok (mkWrite unscoped_batch sync), σ)
          else (Ok (mkWrite batch sync), σ)
      | None => (Ok (mkWrite batch sync), σ)
      end
  end.

(** [impl.ref.iterator(...)], [impl.ref.snapshot()]: a new native
    resource, from a guard that still has its own. *)
Definition native_child (impl : nat) (h : MemorySafety.heap)
  : result (nat * MemorySafety.heap) :=
  match MemorySafety.live impl h ≫= MemorySafety.ref with
  | None => Raise AttributeError
  | Some _ =>
      Ok (MemorySafety.natives h,
          MemorySafety.mkHeap (MemorySafety.objs h) (MemorySafety.released h)
            (S (MemorySafety.natives h)))
  end.

Definition iterator (self : t) (verify_checksums fill_cache : option bool)
    (prefix : option bytes) (keys_only : bool) (h : MemorySafety.heap)
  : result (Iterator.t * MemorySafety.heap) :=
  let orig_prefix := _prefix self in
  let prefix :=
    match orig_prefix with
    | Some orig_prefix =>
        match prefix with
        | None => Some orig_prefix
        | Some prefix => Some (orig_prefix ++ prefix)
        end
    | None => prefix
    end in
  let impl := _impl self in
  '(r, h) ← native_child impl h;
  let '(it, h) := MemorySafety.new r h in
  h ← MemorySafety.addReferrer impl it h;
  Ok (Iterator.mk it prefix keys_only, h).

Definition snapshot (self : t) (default_sync default_verify_checksums
    default_fill_cache : option bool) (h : MemorySafety.heap)
  : result (t * MemorySafety.heap) :=
  let default_sync := default (_default_sync self) default_sync in
  let default_verify_checksums :=
    default (_default_verify_checksums self) default_verify_checksums in
  let default_fill_cache :=
    default (_default_fill_cache self) default_fill_cache in
  let impl := _impl self in
  '(r, h) ← native_child impl h;
  let '(snapshot, h) := MemorySafety.new r h in
  h ← MemorySafety.addReferrer impl snapshot h;
  Ok (mk snapshot (_prefix self) true default_sync default_verify_checksums
        default_fill_cache, h).

Definition scope (self : t) (prefix : bytes) (default_sync
    default_verify_checksums default_fill_cache : option bool) : t :=
  let default_sync := default (_default_sync self) default_sync in
  let default_verify_checksums :=
    default (_default_verify_checksums self) default_verify_checksums in
  let default_fill_cache :=
    default (_default_fill_cache self) default_fill_cache in
  let prefix := match _prefix self with
                | Some orig_prefix => orig_prefix ++ prefix
                | None => prefix
                end in
  mk (_impl self) (Some prefix) false default_sync default_verify_checksums
     default_fill_cache.

End DBInterface.

(** ** Sequences of batch calls *)

(** The calls that make or change a batch. *)
Inductive batch_call : Type :=
  | CallWriteBatch                              (* [WriteBatch()] *)
  | CallNewBatch (db : DBInterface.t)           (* [db.newBatch()] *)
  | CallClear (batch : nat)
  | CallPut (batch : nat) (key val : bytes)
  | CallDelete (batch : nat) (key : bytes)
  | CallPutTo (db : DBInterface.t) (batch : nat) (key val : bytes)
  | CallDeleteFrom (db : DBInterface.t) (batch : nat) (key : bytes)
  | CallWrite (db : DBInterface.t) (batch : nat) (sync : option bool).

(** The batch store after a call; a call that raises leaves it as it was. *)
Definition run_call (σ : WriteBatch.store) (c : batch_call)
  : WriteBatch.store :=
  match c with
  | CallWriteBatch => (WriteBatch.new σ).2
  | CallNewBatch db => (DBInterface.newBatch db σ).2
  | CallClear b => (WriteBatch.clear b σ).2
  | CallPut b k v => (WriteBatch.put b k v σ).2
  | CallDelete b k => (WriteBatch.delete b k σ).2
  | CallPutTo db b k v => (DBInterface.putTo db b k v σ).2
  | CallDeleteFrom db b k => (DBInterface.deleteFrom db b k σ).2
  | CallWrite db b sync => (DBInterface.write db b sync σ).2
  end.

Definition run_calls (σ : WriteBatch.store) (cs : list batch_call)
  : WriteBatch.store := foldl run_call σ cs.

(** ** What the iterator is expected to hand out *)

Fixpoint take_while {A : Type} (f : A -> bool) (l : list A) : list A :=
  match l with
  | [] => []
  | x :: l' => if f x then x :: take_while f l' else []
  end.

(** A stored key lies under the prefix [p] of a handle or iterator. *)
Definition in_scope (p : option bytes) (k : bytes) : bool :=
  match p with Some p => startswith p k | None => true end.

(** The key as the caller sees it, and back. *)
Definition unscoped (p : option bytes) (k : bytes) : bytes :=
  match p with Some p => drop (length p) k | None => k end.

Definition scoped (p : option bytes) (k : bytes) : bytes :=
  match p with Some p => p ++ k | None => k end.

Definition row_of (p : option bytes) (e : bytes * bytes) : Iterator.item :=
  Iterator.ARow (Row.mk (unscoped p e.1) e.2).

(** The rows whose stored key starts with [P], with [P] cut off, in the
    order of the store. *)
Definition prefixed_rows (P : bytes) (es : list (bytes * bytes))
  : list Row.t :=
  (fun e => Row.mk (drop (length P) e.1) e.2)
    <$> filter (fun e => startswith P e.1 = true) es.

(** The bounds of [range], on the key as the caller sees it. *)
Definition lower_ok (start_key : option bytes) (start_inclusive : bool)
    (k : bytes) : bool :=
  match start_key with
  | None => true
  | Some s => if start_inclusive then negb (bytes_ltb k s) else bytes_ltb s k
  end.

Definition upper_ok (end_key : option bytes) (end_inclusive : bool)
    (k : bytes) : bool :=
  match end_key with
  | None => true
  | Some e => if end_inclusive then negb (bytes_gtb k e) else bytes_ltb k e
  end.

Definition in_range (start_key end_key : option bytes)
    (start_inclusive end_inclusive : bool) (k : bytes) : bool :=
  lower_ok start_key start_inclusive k && upper_ok end_key end_inclusive k.

(** The rows under [p] whose key is within the bounds, in the order of the
    store. *)
Definition range_rows (p : option bytes) (es : list (bytes * bytes))
    (start_key end_key : option bytes) (start_inclusive end_inclusive : bool)
  : list Row.t :=
  (fun e => Row.mk (unscoped p e.1) e.2)
    <$> filter (fun e => in_scope p e.1
                         && in_range start_key end_key start_inclusive
                              end_inclusive (unscoped p e.1) = true) es.

(** The cursor on the entry of index [i], not valid when there is none. *)
Definition cursor_at (es : list (bytes * bytes)) (i : nat) : Engine.Cursor :=
  Engine.mkCursor es (Engine.at_index es i).

(** The cursor on the entry just before index [j]. *)
Definition before (es : list (bytes * bytes)) (j : nat) : Engine.Cursor :=
  Engine.mkCursor es (match j with O => None | S j' => Some j' end).

(** Where the statements before the loop of [range] leave the cursor. *)
Definition start_index (p : option bytes) (start_key : option bytes)
    (start_inclusive : bool) (es : list (bytes * bytes)) : nat :=
  match start_key with
  | None => Engine.lower_bound (scoped p []) es
  | Some s =>
      let l := Engine.lower_bound (scoped p s) es in
      if start_inclusive then l
      else match es !! l with
           | Some e => if bytes_eqb (unscoped p e.1) s then S l else l
           | None => l
           end
  end.

(** ** The successor of a prefix, in the words of the specification

    The prefix read as a big-endian number, plus one, written on as many
    bytes as the prefix has, trailing zero bytes dropped. *)

Definition be_value (s : bytes) : N :=
  fold_left (fun acc b => 256 * acc + Byte.to_N b)%N s 0%N.

Definition byte_of_N (n : N) : byte := default x00 (Byte.of_N n).

Fixpoint be_bytes (len : nat) (n : N) : bytes :=
  match len with
  | O => []
  | S len' => be_bytes len' (n / 256)%N ++ [byte_of_N (n mod 256)%N]
  end.

Definition successor_spec (prefix : bytes) : bytes :=
  rstrip x00 (be_bytes (length prefix) (be_value prefix + 1)).

(** The same increment byte by byte, from the last byte on, with its
    carry. *)
Fixpoint incr (s : bytes) : bytes * bool :=
  match s with
  | [] => ([], true)
  | b :: s' =>
      let '(t, carry) := incr s' in
      if (carry : bool) then
        match Byte.of_N (Byte.to_N b + 1) with
        | Some b' => (b' :: t, false)
        | None => (x00 :: t, true)
        end
      else (b :: t, false)
  end.

(** ** Sample data *)

Definition str (s : string) : bytes := String.list_byte_of_string s.

(** Keys [a] to [e]. *)
Definition letters : list (bytes * bytes) :=
  [(str "a", str "1"); (str "b", str "2"); (str "c", str "3");
   (str "d", str "4"); (str "e", str "5")].

(** A store with two keys under ["ns/"]. *)
Definition namespaced : list (bytes * bytes) :=
  [(str "a", str "1"); (str "ns/x", str "2"); (str "ns/y", str "3");
   (str "nt", str "4")].

(** A handle's guard (resource 100) with an iterator (guard 1), a
    referrer that is gone (2) and a snapshot (guard 3) that has an
    iterator of its own (guard 4). *)
Definition sample_heap : MemorySafety.heap :=
  MemorySafety.mkHeap
    [Some (MemorySafety.mk (Some 100) (Some [1; 2; 3]));
     Some (MemorySafety.mk (Some 101) (Some []));
     None;
     Some (MemorySafety.mk (Some 103) (Some [4]));
     Some (MemorySafety.mk (Some 104) (Some []))]
    [] 105.

Definition sample_db : DBInterface.t :=
  DBInterface.mk 0 (Some (str "ns/")) true false false true.

(** ** More of the guards' life *)

(** [Iterator.close] *)
Definition Iterator_close (fuel : nat) (self : Iterator.t)
    (h : MemorySafety.heap) : option MemorySafety.heap :=
  MemorySafety.close fuel (Iterator._impl self) h.

(** [__del__ = close]: a guard that is destroyed closes first, and the weak
    references to it are dead from then on. *)
Definition MemorySafety_del (fuel : nat) (self : nat) (h : MemorySafety.heap)
  : option MemorySafety.heap :=
  h ← MemorySafety.close fuel self h;
  Some (MemorySafety.mkHeap (<[self := None]> (MemorySafety.objs h))
          (MemorySafety.released h) (MemorySafety.natives h)).

(** The heaps the layer's calls lead to, from a heap with no guard: a
    handle is opened on a native store no guard has held, iterators and
    snapshots are made through any handle, and any guard is closed (by
    [DBInterface.close], [Iterator.close] or a cascade) or destroyed. *)
Inductive reachable : MemorySafety.heap -> Prop :=
  | reach_empty (n : nat) : reachable (MemorySafety.mkHeap [] [] n)
  | reach_open impl default_sync default_verify_checksums default_fill_cache
      h :
      reachable h ->
      impl < MemorySafety.natives h ->
      impl ∉ MemorySafety.held h ++ MemorySafety.released h ->
      reachable (DBInterface._makeDBFromImpl impl default_sync
                   default_verify_checksums default_fill_cache h).2
  | reach_iterator db verify_checksums fill_cache prefix keys_only h it h' :
      reachable h ->
      DBInterface.iterator db verify_checksums fill_cache prefix keys_only h
      = Ok (it, h') ->
      reachable h'
  | reach_snapshot db default_sync default_verify_checksums
      default_fill_cache h snap h' :
      reachable h ->
      DBInterface.snapshot db default_sync default_verify_checksums
        default_fill_cache h = Ok (snap, h') ->
      reachable h'
  | reach_close fuel a h h' :
      reachable h ->
      MemorySafety.close fuel a h = Some h' ->
      reachable h'
  | reach_del fuel a h h' :
      reachable h ->
      MemorySafety_del fuel a h = Some h' ->
      reachable h'.

(** No resource is held twice or held after its release, and all are below
    the next unused one. *)
Definition tidy (h : MemorySafety.heap) : Prop :=
  NoDup (MemorySafety.held h ++ MemorySafety.released h)
  /\ Forall (fun r => r < MemorySafety.natives h)
            (MemorySafety.held h ++ MemorySafety.released h).

(** A guard [d] that is reached from [a] through referrers that are
    live. *)
Inductive descends (h : MemorySafety.heap) : nat -> nat -> Prop :=
  | descends_refl a : descends h a a
  | descends_step a g rs b d :
      MemorySafety.live a h = Some g ->
      MemorySafety._referrers g = Some rs ->
      b ∈ rs ->
      is_Some (MemorySafety.live b h) ->
      descends h b d ->
      descends h a d.

(** What a cascade leaves behind: a guard that has been closed has its
    live referrers closed. *)
Definition downward (h h' : MemorySafety.heap) : Prop :=
  forall x g rs y,
    MemorySafety.live x h = Some g ->
    MemorySafety._referrers g = Some rs ->
    MemorySafety.live x h' = Some MemorySafety.closed ->
    y ∈ rs -> is_Some (MemorySafety.live y h) ->
    MemorySafety.live y h' = Some MemorySafety.closed.

(** Guards only go from live to closed. *)
Definition fades (h h' : MemorySafety.heap) : Prop :=
  forall x,
    MemorySafety.live x h' = MemorySafety.live x h
    \/ (is_Some (MemorySafety.live x h)
        /\ MemorySafety.live x h' = Some MemorySafety.closed).

(** ** More of [class Iterator] *)

(** Successive [prev()] calls, up to the first one that raises. *)
Fixpoint prevs (fuel : nat) (self : Iterator.t) (ref : Engine.Cursor)
  : list Iterator.item * option exn :=
  match fuel with
  | O => ([], None)
  | S fuel' =>
      match Iterator.prev self ref with
      | Raise e => ([], Some e)
      | Ok (rv, ref') =>
          let '(rvs, e) := prevs fuel' self ref' in (rv :: rvs, e)
      end
  end.

(** The generator [keys]: what it yields and how it ends. *)
Fixpoint Iterator_keys (fuel : nat) (self : Iterator.t) (ref : Engine.Cursor)
  : list bytes * Iterator.ending :=
  match fuel with
  | O => ([], Iterator.Unfinished)
  | S fuel' =>
      match Iterator.valid self ref with
      | Raise e => ([], Iterator.Failed e)
      | Ok false => ([], Iterator.Returned)
      | Ok true =>
          match Iterator.key self ref with
          | Raise e => ([], Iterator.Failed e)
          | Ok k =>
              match Iterator.stepForward self ref with
              | Raise e => ([k], Iterator.Failed e)
              | Ok ref' =>
                  let '(ks, fin) := Iterator_keys fuel' self ref' in
                  (k :: ks, fin)
              end
          end
      end
  end.

(** The generator [values]. *)
Fixpoint Iterator_values (fuel : nat) (self : Iterator.t)
    (ref : Engine.Cursor) : list bytes * Iterator.ending :=
  match fuel with
  | O => ([], Iterator.Unfinished)
  | S fuel' =>
      match Iterator.valid self ref with
      | Raise e => ([], Iterator.Failed e)
      | Ok false => ([], Iterator.Returned)
      | Ok true =>
          match Iterator.value self ref with
          | Raise e => ([], Iterator.Failed e)
          | Ok v =>
              match Iterator.stepForward self ref with
              | Raise e => ([v], Iterator.Failed e)
              | Ok ref' =>
                  let '(vs, fin) := Iterator_values fuel' self ref' in
                  (v :: vs, fin)
              end
          end
      end
  end.

(** The entries under the prefix [p], in the order of the store. *)
Definition scope_entries (p : option bytes) (es : list (bytes * bytes))
  : list (bytes * bytes) :=
  filter (fun e => in_scope p e.1 = true) es.

(** What [next] hands out for the entry [e]. *)
Definition item_of (self : Iterator.t) (e : bytes * bytes) : Iterator.item :=
  if Iterator._keys_only self
  then Iterator.AKey (unscoped (Iterator._prefix self) e.1)
  else row_of (Iterator._prefix self) e.

(** ** The engine's store *)

Module Native.

(** Modelled from the spec: the engine's reads and writes (section 6:
    [get], [put], [delete], [write], [new_iterator]) are not part of
    [convenience.py].  The store maps keys to values; [get] gives the
    value of a key or nothing; [put] and [delete] change one key; [write]
    applies the puts of a batch and then its deletes, as one unit; the
    options [sync], [verify_checksums] and [fill_cache] change neither
    what is stored nor what is read.  A new cursor runs over the entries of
    the store in ascending key order and is not valid before its first
    seek. *)
Abbreviation db := (gmap bytes bytes).

Definition get (key : bytes) (verify_checksums fill_cache : bool) (d : db)
  : option bytes := d !! key.

Definition put (key val : bytes) (sync : bool) (d : db) : db :=
  <[key := val]> d.

Definition delete (key : bytes) (sync : bool) (d : db) : db :=
  base.delete key d.

Definition write (b : WriteBatch.t) (sync : bool) (d : db) : db :=
  filter (fun e => e.1 ∉ WriteBatch._deletes b) (WriteBatch._puts b ∪ d).

Definition key_le (e e' : bytes * bytes) : Prop := bytes_le e.1 e'.1.

#[global] Instance key_le_dec : RelDecision key_le :=
  fun e e' => decide (bytes_compare e.1 e'.1 <> Gt).

Definition entries (d : db) : list (bytes * bytes) :=
  merge_sort key_le (map_to_list d).

Definition iterator (d : db) : Engine.Cursor :=
  Engine.mkCursor (entries d) None.

End Native.

(** ** [class DBInterface]: the calls that reach the store

    [d] is the content of the native store behind the handle's guard. *)

(** [self._impl.ref], of which an attribute is taken: [None] once the
    guard is closed. *)
Definition DBInterface_ref (self : DBInterface.t) (h : MemorySafety.heap)
  : result nat :=
  match MemorySafety.live (DBInterface._impl self) h ≫= MemorySafety.ref with
  | Some r => Ok r
  | None => Raise AttributeError
  end.

Definition DBInterface_put (self : DBInterface.t) (key val : bytes)
    (sync : option bool) (h : MemorySafety.heap) (d : Native.db)
  : result Native.db :=
  let sync := default (DBInterface._default_sync self) sync in
  let key := DBInterface.translate self key in
  _ ← DBInterface_ref self h;
  Ok (Native.put key val sync d).

Definition DBInterface_delete (self : DBInterface.t) (key : bytes)
    (sync : option bool) (h : MemorySafety.heap) (d : Native.db)
  : result Native.db :=
  let sync := default (DBInterface._default_sync self) sync in
  let key := DBInterface.translate self key in
  _ ← DBInterface_ref self h;
  Ok (Native.delete key sync d).

Definition DBInterface_get (self : DBInterface.t) (key : bytes)
    (verify_checksums fill_cache : option bool) (h : MemorySafety.heap)
    (d : Native.db) : result (option bytes) :=
  let verify_checksums :=
    default (DBInterface._default_verify_checksums self) verify_checksums in
  let fill_cache :=
    default (DBInterface._default_fill_cache self) fill_cache in
  let key := DBInterface.translate self key in
  _ ← DBInterface_ref self h;
  Ok (Native.get key verify_checksums fill_cache d).

Definition DBInterface_has (self : DBInterface.t) (key : bytes)
    (verify_checksums fill_cache : option bool) (h : MemorySafety.heap)
    (d : Native.db) : result bool :=
  v ← DBInterface_get self key verify_checksums fill_cache h d;
  Ok (bool_decide (v <> None)).

(** How a mapping-style read ends: [KeyError] carries the key as the
    caller gave it. *)
Inductive outcome (A : Type) : Type :=
  | Value (a : A)
  | KeyError (k : bytes)
  | Raised (e : exn).
Arguments Value {A} a.
Arguments KeyError {A} k.
Arguments Raised {A} e.

Definition DBInterface_getitem (self : DBInterface.t) (k : bytes)
    (h : MemorySafety.heap) (d : Native.db) : outcome bytes :=
  match DBInterface_get self k None None h d with
  | Raise e => Raised e
  | Ok None => KeyError k
  | Ok (Some v) => Value v
  end.

Definition DBInterface_setitem (self : DBInterface.t) (k v : bytes)
    (h : MemorySafety.heap) (d : Native.db) : result Native.db :=
  DBInterface_put self k v None h d.

Definition DBInterface_delitem (self : DBInterface.t) (k : bytes)
    (h : MemorySafety.heap) (d : Native.db) : result Native.db :=
  DBInterface_delete self k None h d.

Definition DBInterface_contains (self : DBInterface.t) (key : bytes)
    (h : MemorySafety.heap) (d : Native.db) : result bool :=
  DBInterface_has self key None None h d.

(** [write], with the engine's [write] carried out on the batch that
    [DBInterface.write] hands over. *)
Definition DBInterface_write (self : DBInterface.t) (batch : nat)
    (sync : option bool) (σ : WriteBatch.store) (h : MemorySafety.heap)
    (d : Native.db) : result Native.db * WriteBatch.store :=
  match DBInterface.write self batch sync σ with
  | (Raise e, σ) => (Raise e, σ)
  | (Ok call, σ) =>
      match DBInterface_ref self h with
      | Raise e => (Raise e, σ)
      | Ok _ =>
          match σ !! DBInterface.w_batch call with
          | None => (Raise AttributeError, σ)
          | Some b => (Ok (Native.write b (DBInterface.w_sync call) d), σ)
          end
      end
  end.

(** [__iter__]: a new iterator, on the first key of the handle. *)
Definition DBInterface_iter (self : DBInterface.t) (h : MemorySafety.heap)
    (d : Native.db)
  : result (Iterator.t * Engine.Cursor * MemorySafety.heap) :=
  '(it, h) ← DBInterface.iterator self None None None false h;
  Ok (it, Iterator.seekFirst it (Native.iterator d), h).

(** [keys] and [values]: the iterator is made and placed by the call, the
    generator then runs over it. *)
Definition DBInterface_keys (fuel : nat) (self : DBInterface.t)
    (verify_checksums fill_cache : option bool) (prefix : option bytes)
    (h : MemorySafety.heap) (d : Native.db)
  : result (list bytes * Iterator.ending * MemorySafety.heap) :=
  let verify_checksums :=
    default (DBInterface._default_verify_checksums self) verify_checksums in
  let fill_cache :=
    default (DBInterface._default_fill_cache self) fill_cache in
  '(it, h) ← DBInterface.iterator self (Some verify_checksums)
               (Some fill_cache) prefix false h;
  let '(ks, fin) :=
    Iterator_keys fuel it (Iterator.seekFirst it (Native.iterator d)) in
  Ok (ks, fin, h).

Definition DBInterface_values (fuel : nat) (self : DBInterface.t)
    (verify_checksums fill_cache : option bool) (prefix : option bytes)
    (h : MemorySafety.heap) (d : Native.db)
  : result (list bytes * Iterator.ending * MemorySafety.heap) :=
  let verify_checksums :=
    default (DBInterface._default_verify_checksums self) verify_checksums in
  let fill_cache :=
    default (DBInterface._default_fill_cache self) fill_cache in
  '(it, h) ← DBInterface.iterator self (Some verify_checksums)
               (Some fill_cache) prefix false h;
  let '(vs, fin) :=
    Iterator_values fuel it (Iterator.seekFirst it (Native.iterator d)) in
  Ok (vs, fin, h).

(** [range]: a new iterator and its [range]. *)
Definition DBInterface_range (fuel : nat) (self : DBInterface.t)
    (start_key end_key : option bytes) (start_inclusive end_inclusive : bool)
    (verify_checksums fill_cache : option bool) (h : MemorySafety.heap)
    (d : Native.db)
  : result (list Iterator.item * Iterator.ending * MemorySafety.heap) :=
  let verify_checksums :=
    default (DBInterface._default_verify_checksums self) verify_checksums in
  let fill_cache :=
    default (DBInterface._default_fill_cache self) fill_cache in
  '(it, h) ← DBInterface.iterator self (Some verify_checksums)
               (Some fill_cache) None false h;
  let '(rows, fin) :=
    Iterator.range fuel it start_key end_key start_inclusive end_inclusive
      (Native.iterator d) in
  Ok (rows, fin, h).

(** ** Calls on a handle, one after the other *)

Inductive db_call : Type :=
  | DoPut (key val : bytes)
  | DoDelete (key : bytes).

(** The call made on the store, through the handle. *)
Definition direct (h : MemorySafety.heap) (d : Native.db)
    (c : DBInterface.t * db_call) : Native.db :=
  match c with
  | (db, DoPut k v) =>
      match DBInterface_put db k v None h d with Ok d' => d' | Raise _ => d end
  | (db, DoDelete k) =>
      match DBInterface_delete db k None h d with Ok d' => d' | Raise _ => d end
  end.

(** The call made on a batch of a handle, through the handle. *)
Definition batched (batch : nat) (c : DBInterface.t * db_call) : batch_call :=
  match c with
  | (db, DoPut k v) => CallPutTo db batch k v
  | (db, DoDelete k) => CallDeleteFrom db batch k
  end.

(** The call made on a batch of the caller's own. *)
Definition buffered (batch : nat) (c : db_call) : batch_call :=
  match c with
  | DoPut k v => CallPut batch k v
  | DoDelete k => CallDelete batch k
  end.

(** What [write] makes of a batch of the caller's own. *)
Definition handed (s : DBInterface.t) (B : WriteBatch.t) : WriteBatch.t :=
  match DBInterface._prefix s with
  | Some prefix =>
      WriteBatch.mk (kmap (app prefix) (WriteBatch._puts B))
        (set_map (app prefix) (WriteBatch._deletes B)) true
  | None => B
  end.

(** ** More sample data *)

(** A handle opened on the native store 0, the heap after an iterator has
    been made through it, and the heap after the handle has closed. *)
Definition opened : DBInterface.t * MemorySafety.heap :=
  DBInterface._makeDBFromImpl 0 false false true
    (MemorySafety.mkHeap [] [] 1).

Definition with_iterator : MemorySafety.heap :=
  match DBInterface.iterator opened.1 None None None false opened.2 with
  | Ok (_, h) => h
  | Raise _ => opened.2
  end.

Definition sample_session : MemorySafety.heap :=
  default with_iterator (MemorySafety.close 3 0 with_iterator).

(** A snapshot and an iterator made through [sample_db], and the heap
    after [sample_db] has closed. *)
Definition sample_snapshot : DBInterface.t * MemorySafety.heap :=
  match DBInterface.snapshot sample_db None None None sample_heap with
  | Ok r => r
  | Raise _ => (sample_db, sample_heap)
  end.

Definition sample_iterator : Iterator.t * MemorySafety.heap :=
  match DBInterface.iterator sample_db None None None false sample_heap with
  | Ok r => r
  | Raise _ => (Iterator.mk 0 None false, sample_heap)
  end.

Definition sample_closed : MemorySafety.heap :=
  default sample_heap (MemorySafety.close 6 0 sample_heap).

(** The store with the entries [namespaced], and the handle on all of
    it. *)
Definition sample_store : Native.db := list_to_map namespaced.

Definition sample_root : DBInterface.t :=
  DBInterface.mk 0 None true false false true.

(** Calls on the keys ["x"] and ["z"]. *)
Definition sample_calls : list db_call :=
  [DoPut (str "z") (str "9"); DoDelete (str "x"); DoPut (str "x") (str "7");
   DoDelete (str "z")].

(** * Properties *)

Section BytesOrder.

Lemma to_N_inj (x y : byte) : Byte.to_N x = Byte.to_N y -> x = y.
Proof.
  intros H. apply (f_equal Byte.of_N) in H.
  rewrite !Byte.of_to_N in H. congruence.
Qed.

Lemma bytes_compare_refl a : bytes_compare a a = Eq.
Proof. induction a as [|x a IH]; simpl; [done|]. by rewrite N.compare_refl. Qed.

Lemma bytes_compare_eq a b : bytes_compare a b = Eq -> a = b.
Proof.
  revert b. induction a as [|x a IH]; intros [|y b]; simpl; try done.
  destruct (N.compare_spec (Byte.to_N x) (Byte.to_N y)) as [E|E|E]; try done.
  intros H. f_equal; [by apply to_N_inj | by apply IH].
Qed.

Lemma bytes_compare_antisym a b :
  bytes_compare b a = CompOpp (bytes_compare a b).
Proof.
  revert b. induction a as [|x a IH]; intros [|y b]; simpl; try done.
  rewrite (N.compare_antisym (Byte.to_N x) (Byte.to_N y)).
  destruct (Byte.to_N x ?= Byte.to_N y)%N; simpl; auto.
Qed.

Lemma bytes_lt_trans a b c : bytes_lt a b -> bytes_lt b c -> bytes_lt a c.
Proof.
  unfold bytes_lt. revert b c.
  induction a as [|x a IH]; intros [|y b] [|z c]; simpl; try done.
  destruct (N.compare_spec (Byte.to_N x) (Byte.to_N y)) as [E|E|E];
    destruct (N.compare_spec (Byte.to_N y) (Byte.to_N z)) as [F|F|F];
    try done; intros H1 H2.
  - rewrite E, F, N.compare_refl. eauto.
  - rewrite E. by apply N.compare_lt_iff in F as ->.
  - rewrite <- F. by apply N.compare_lt_iff in E as ->.
  - assert (Byte.to_N x < Byte.to_N z)%N as G by lia.
    by apply N.compare_lt_iff in G as ->.
Qed.

Lemma bytes_ltb_lt a b : bytes_ltb a b = true <-> bytes_lt a b.
Proof. unfold bytes_ltb, bytes_lt. destruct (bytes_compare a b); naive_solver. Qed.

Lemma bytes_lt_irrefl a : ~ bytes_lt a a.
Proof. unfold bytes_lt. by rewrite bytes_compare_refl. Qed.

Lemma bytes_compare_app p a b :
  bytes_compare (p ++ a) (p ++ b) = bytes_compare a b.
Proof. induction p as [|x p IH]; simpl; [done|]. by rewrite N.compare_refl. Qed.

Lemma startswith_app p k : startswith p k = true <-> exists r, k = p ++ r.
Proof.
  unfold startswith. rewrite bool_decide_eq_true. split.
  - intros H. exists (drop (length p) k). by rewrite <- H at 1; rewrite take_drop.
  - intros [r ->]. by rewrite take_app_length.
Qed.

Lemma startswith_cons x p y k :
  startswith (x :: p) (y :: k) = bool_decide (x = y) && startswith p k.
Proof.
  unfold startswith. simpl.
  destruct (decide (x = y)) as [->|Hne].
  - rewrite (bool_decide_eq_true_2 (y = y)) by done. simpl.
    apply bool_decide_ext. split; [by intros [= ->] | by intros ->].
  - rewrite (bool_decide_eq_false_2 (x = y)) by done. simpl.
    apply bool_decide_eq_false_2. by intros [= <-].
Qed.

Lemma startswith_nil_r x p : startswith (x :: p) [] = false.
Proof. done. Qed.

Lemma startswith_nil_l k : startswith [] k = true.
Proof. by destruct k. Qed.

(** A key that begins with [p] is not below [p]. *)
Lemma startswith_not_lt p k : startswith p k = true -> ~ bytes_lt k p.
Proof.
  intros [r ->]%startswith_app. unfold bytes_lt.
  rewrite <- (app_nil_r p) at 2. rewrite bytes_compare_app.
  by destruct r.
Qed.

(** Beyond the keys that begin with [p] there is none that does. *)
Lemma startswith_passed p k k' :
  ~ bytes_lt k p -> startswith p k = false -> bytes_lt k k' ->
  startswith p k' = false.
Proof.
  unfold bytes_lt. revert k k'.
  induction p as [|b p IH]; intros k k'.
  { by rewrite startswith_nil_l. }
  destruct k as [|x k]; [done|]. destruct k' as [|y k']; [done|].
  rewrite !startswith_cons. simpl.
  destruct (N.compare_spec (Byte.to_N x) (Byte.to_N b)) as [E|E|E];
    destruct (N.compare_spec (Byte.to_N x) (Byte.to_N y)) as [F|F|F];
    try done.
  - apply to_N_inj in E as ->. apply to_N_inj in F as <-.
    rewrite bool_decide_eq_true_2 by done. simpl. apply IH.
  - intros _ _ _. rewrite bool_decide_eq_false_2; [done|].
    intros ->. apply to_N_inj in E as ->. lia.
  - intros _ _ _. rewrite bool_decide_eq_false_2; [done|]. intros ->. lia.
  - intros _ _ _. rewrite bool_decide_eq_false_2; [done|]. intros ->. lia.
Qed.

End BytesOrder.

Section Store.

Implicit Types (es : list (bytes * bytes)) (e : bytes * bytes).

Lemma filter_none {A} (P : A -> Prop) `{!forall x, Decision (P x)} (l : list A) :
  Forall (fun x => ~ P x) l -> filter P l = [].
Proof.
  induction 1 as [|x l Hx _ IH]; [done|].
  rewrite filter_cons. by rewrite decide_False.
Qed.

Lemma ascending_cons e es :
  Engine.ascending (e :: es) = true ->
  Engine.ascending es = true /\ Forall (fun e' => bytes_lt e.1 e'.1) es.
Proof.
  revert e. induction es as [|e' es IH]; intros e H; [done|].
  simpl in H. apply andb_prop in H as [Hlt Hasc].
  apply bytes_ltb_lt in Hlt.
  split; [done|]. constructor; [done|].
  destruct (IH _ Hasc) as [_ Hall].
  eapply Forall_impl; [exact Hall|]. simpl. intros; by eapply bytes_lt_trans.
Qed.

Lemma ascending_drop j es :
  Engine.ascending es = true -> Engine.ascending (drop j es) = true.
Proof.
  revert es. induction j as [|j IH]; intros [|e es] H; try done.
  simpl. apply IH. by apply ascending_cons in H as [? _].
Qed.

(** In an ascending store the entries that satisfy [q] lie side by side
    from index [j] on, as soon as none lies before [j] and none follows
    an entry from [j] on that fails [q]. *)
Lemma take_while_filter (q : bytes -> bool) es :
  Engine.ascending es = true ->
  (forall e k', e ∈ es -> q e.1 = false -> bytes_lt e.1 k' -> q k' = false) ->
  take_while (fun e => q e.1) es = filter (fun e => q e.1 = true) es.
Proof.
  induction es as [|e es IH]; intros Hasc Hq; [done|].
  apply ascending_cons in Hasc as [Hasc Hall].
  simpl. rewrite filter_cons. destruct (q e.1) eqn:E.
  - rewrite decide_True by done. f_equal. apply IH; [done|].
    intros ? ? ?. apply Hq. by right.
  - rewrite decide_False by congruence.
    symmetry. apply filter_none, Forall_forall. intros e' He'.
    rewrite Forall_forall in Hall.
    rewrite (Hq e e'.1); [done|by left|done|by apply Hall].
Qed.

Lemma window (q : bytes -> bool) j es :
  Engine.ascending es = true ->
  Forall (fun e => q e.1 = false) (take j es) ->
  (forall e k', e ∈ drop j es -> q e.1 = false -> bytes_lt e.1 k' ->
                q k' = false) ->
  take_while (fun e => q e.1) (drop j es)
  = filter (fun e => q e.1 = true) es.
Proof.
  intros Hasc Hbefore Hafter.
  rewrite <- (take_drop j es) at 2. rewrite filter_app.
  replace (filter _ (take j es)) with (@nil (bytes * bytes)).
  - simpl. apply take_while_filter; [by apply ascending_drop|done].
  - symmetry. apply filter_none.
    eapply Forall_impl; [exact Hbefore|]. simpl. intros ? ->. done.
Qed.

Lemma lower_bound_le k es : Engine.lower_bound k es <= length es.
Proof. induction es as [|e es IH]; simpl; [lia|]. destruct bytes_ltb; simpl; lia. Qed.

Lemma lower_bound_below k es :
  Forall (fun e => bytes_lt e.1 k) (take (Engine.lower_bound k es) es).
Proof.
  induction es as [|e es IH]; simpl; [constructor|].
  destruct (bytes_ltb e.1 k) eqn:E; simpl; [|constructor].
  constructor; [by apply bytes_ltb_lt|done].
Qed.

Lemma lower_bound_above k es :
  Engine.ascending es = true ->
  Forall (fun e => ~ bytes_lt e.1 k) (drop (Engine.lower_bound k es) es).
Proof.
  induction es as [|e es IH]; intros Hasc; simpl; [constructor|].
  pose proof (ascending_cons _ _ Hasc) as [Hasc' Hall].
  destruct (bytes_ltb e.1 k) eqn:E; simpl; [by apply IH|].
  assert (~ bytes_lt e.1 k) as Hnlt.
  { rewrite <- bytes_ltb_lt. congruence. }
  constructor; [done|].
  eapply Forall_impl; [exact Hall|]. simpl. intros e' He' Hlt.
  apply Hnlt. by eapply bytes_lt_trans.
Qed.

End Store.

Section Stepping.

Implicit Types (es : list (bytes * bytes)) (e : bytes * bytes).

Lemma current_at es i : Engine.current (cursor_at es i) = es !! i.
Proof.
  unfold Engine.current, cursor_at, Engine.at_index. simpl.
  destruct (Nat.ltb_spec i (length es)); simpl; [done|].
  symmetry. by apply lookup_ge_None.
Qed.

Lemma pos_at es i e : es !! i = Some e -> Engine.at_index es i = Some i.
Proof.
  intros H%lookup_lt_Some. unfold Engine.at_index.
  by destruct (Nat.ltb_spec i (length es)); [|lia].
Qed.

Lemma valid_at (it : Iterator.t) es i :
  Iterator.valid it (cursor_at es i)
  = Ok (match es !! i with
        | Some e => in_scope (Iterator._prefix it) e.1
        | None => false
        end).
Proof.
  unfold Iterator.valid, Engine.valid, Engine.key. rewrite current_at.
  destruct (es !! i) as [e|]; simpl; [|done].
  by destruct (Iterator._prefix it).
Qed.

Lemma next_at (it : Iterator.t) es i e :
  es !! i = Some e -> Iterator._keys_only it = false ->
  Iterator.next it (cursor_at es i)
  = if in_scope (Iterator._prefix it) e.1
    then Ok (row_of (Iterator._prefix it) e, cursor_at es (S i))
    else Raise StopIteration.
Proof.
  intros He Hk. unfold Iterator.next. rewrite valid_at, He. simpl.
  destruct (in_scope _ _); simpl; [|done].
  unfold Iterator.current_item, Iterator.key, Iterator.value, Engine.key,
    Engine.val, Engine.next.
  rewrite Hk, current_at, He. simpl.
  unfold cursor_at at 1. simpl. rewrite (pos_at _ _ _ He).
  by destruct (Iterator._prefix it).
Qed.

Lemma next_off (it : Iterator.t) es i :
  es !! i = None -> Iterator.next it (cursor_at es i) = Raise StopIteration.
Proof. intros He. unfold Iterator.next. by rewrite valid_at, He. Qed.

Lemma nexts_at (it : Iterator.t) es fuel : forall i,
  Iterator._keys_only it = false ->
  length es - i < fuel ->
  Iterator.nexts fuel it (cursor_at es i)
  = (row_of (Iterator._prefix it)
       <$> take_while (fun e => in_scope (Iterator._prefix it) e.1) (drop i es),
     Some StopIteration).
Proof.
  induction fuel as [|fuel IH]; intros i Hk Hfuel; [lia|].
  simpl. destruct (es !! i) as [e|] eqn:He.
  - rewrite (next_at _ _ _ _ He Hk).
    rewrite (drop_S _ _ _ He). simpl.
    destruct (in_scope _ _); [|done].
    rewrite IH; [done|done|]. apply lookup_lt_Some in He. lia.
  - rewrite (next_off _ _ _ He).
    apply lookup_ge_None in He. by rewrite drop_ge.
Qed.

End Stepping.

Section SeekFirst.

Lemma seek_at k c :
  Engine.seek k c
  = cursor_at (Engine.entries c) (Engine.lower_bound k (Engine.entries c)).
Proof. done. Qed.

Lemma prefixed_rows_ascending (P : bytes) es :
  Engine.ascending es = true ->
  StronglySorted bytes_lt (Row.key <$> prefixed_rows P es).
Proof.
  unfold prefixed_rows. induction es as [|e es IH]; intros Hasc.
  { constructor. }
  apply ascending_cons in Hasc as [Hasc Hall].
  rewrite filter_cons. case_decide as Hsw; [|by apply IH].
  simpl. constructor; [by apply IH|].
  rewrite <- list_fmap_compose. apply Forall_fmap, Forall_forall.
  intros e' [Hsw' He']%list_elem_of_filter. simpl.
  rewrite Forall_forall in Hall. specialize (Hall e' He').
  apply startswith_app in Hsw as [r Hr], Hsw' as [r' Hr'].
  rewrite Hr, Hr' in *. rewrite !drop_app_length.
  unfold bytes_lt in *. by rewrite bytes_compare_app in Hall.
Qed.

(** C1. On a store in ascending key order, an iterator with prefix [P]
    that is put on its first entry by [seekFirst] yields, by successive
    [next()] calls, exactly the rows whose stored key starts with [P], with
    [P] cut off each key, in ascending byte order, and then raises
    [StopIteration]. *)
Theorem iterator_prefix_scan (it : Iterator.t) (P : bytes)
    (c : Engine.Cursor) (fuel : nat) :
  Engine.ascending (Engine.entries c) = true ->
  Iterator._prefix it = Some P ->
  Iterator._keys_only it = false ->
  length (Engine.entries c) < fuel ->
  Iterator.nexts fuel it (Iterator.seekFirst it c)
  = (Iterator.ARow <$> prefixed_rows P (Engine.entries c),
     Some StopIteration)
  /\ StronglySorted bytes_lt
       (Row.key <$> prefixed_rows P (Engine.entries c)).
Proof.
  intros Hasc HP Hk Hfuel. split; [|by apply prefixed_rows_ascending].
  unfold Iterator.seekFirst. rewrite HP, seek_at.
  rewrite nexts_at by (done || lia). rewrite HP. simpl.
  unfold prefixed_rows. rewrite <- list_fmap_compose. f_equal.
  rewrite (window (startswith P)); [done|done| |].
  - eapply Forall_impl; [apply lower_bound_below|]. simpl.
    intros e He. destruct (startswith P e.1) eqn:E; [|done].
    by apply startswith_not_lt in E.
  - intros e k' He Hq Hlt. eapply startswith_passed; [|done..].
    pose proof (lower_bound_above P _ Hasc) as Hall.
    rewrite Forall_forall in Hall. by apply Hall.
Qed.

Lemma iterator_prefix_scan_witness :
  let it := Iterator.mk 1 (Some (str "ns/")) false in
  Iterator.nexts 5 it
    (Iterator.seekFirst it (Engine.mkCursor namespaced None))
  = ([Iterator.ARow (Row.mk (str "x") (str "2"));
      Iterator.ARow (Row.mk (str "y") (str "3"))], Some StopIteration)
  /\ StronglySorted bytes_lt [str "x"; str "y"].
Proof.
  apply (iterator_prefix_scan (Iterator.mk 1 (Some (str "ns/")) false)
           (str "ns/") (Engine.mkCursor namespaced None) 5);
    [reflexivity | reflexivity | reflexivity | simpl; lia].
Defined.

End SeekFirst.

Section Hex.

Local Open Scope N_scope.

Lemma fold16_app ds d acc :
  fold_left (fun acc d => 16 * acc + d) (ds ++ [d]) acc
  = 16 * fold_left (fun acc d => 16 * acc + d) ds acc + d.
Proof. by rewrite fold_left_app. Qed.

Lemma fold16_acc ds acc :
  fold_left (fun acc d => 16 * acc + d) ds acc
  = acc * 16 ^ N.of_nat (length ds) + digits_value ds.
Proof.
  unfold digits_value. revert acc.
  induction ds as [|d ds IH]; intros acc; simpl length.
  { simpl. lia. }
  cbn [fold_left]. rewrite IH, (IH (16 * 0 + d)).
  rewrite Nat2N.inj_succ, N.pow_succ_r'. lia.
Qed.

Lemma digits_value_cons d ds :
  digits_value (d :: ds) = d * 16 ^ N.of_nat (length ds) + digits_value ds.
Proof.
  unfold digits_value at 1. cbn [fold_left]. rewrite fold16_acc. lia.
Qed.

Lemma digits_value_app ds d :
  digits_value (ds ++ [d]) = 16 * digits_value ds + d.
Proof. apply fold16_app. Qed.

Lemma digits_value_bound ds :
  Forall (fun d => d < 16) ds -> digits_value ds < 16 ^ N.of_nat (length ds).
Proof.
  induction 1 as [|d ds Hd _ IH].
  { cbn. lia. }
  rewrite digits_value_cons. simpl length.
  rewrite Nat2N.inj_succ, N.pow_succ_r'. nia.
Qed.

Lemma digits_unique ds ds' :
  length ds = length ds' ->
  Forall (fun d => d < 16) ds -> Forall (fun d => d < 16) ds' ->
  digits_value ds = digits_value ds' -> ds = ds'.
Proof.
  intros Hlen Hds. revert ds' Hlen.
  induction Hds as [|d ds Hd Hds IH]; intros [|d' ds'] Hlen Hds' Hv;
    try done.
  apply Forall_cons in Hds' as [Hd' Hds'].
  rewrite !digits_value_cons in Hv.
  injection Hlen as Hlen.
  pose proof (digits_value_bound _ Hds) as B.
  pose proof (digits_value_bound _ Hds') as B'.
  rewrite <- Hlen in *.
  set (p := 16 ^ N.of_nat (length ds)) in *.
  assert (d = d') as -> by nia.
  f_equal. apply IH; [done|done|lia].
Qed.

Lemma hex_digits_spec fuel : forall n acc,
  n < 16 ^ N.of_nat fuel ->
  exists ds, hex_digits fuel n acc = ds ++ acc
          /\ digits_value ds = n
          /\ Forall (fun d => d < 16) ds
          /\ (forall w, (0 < w)%nat -> n < 16 ^ N.of_nat w ->
                        (length ds <= w)%nat).
Proof.
  induction fuel as [|fuel IH]; intros n acc Hn.
  { exists []. simpl in Hn. split; [done|]. split; [cbn; lia|].
    split; [constructor|]. intros w ? _. simpl. lia. }
  simpl. destruct (N.ltb_spec n 16) as [Hlt|Hge].
  { exists [n]. split; [done|]. split; [cbn; lia|].
    split; [by repeat constructor|]. intros w ? _. simpl. lia. }
  rewrite Nat2N.inj_succ, N.pow_succ_r' in Hn.
  assert (n / 16 < 16 ^ N.of_nat fuel) as Hq.
  { apply N.Div0.div_lt_upper_bound. lia. }
  destruct (IH (n / 16) (n mod 16 :: acc) Hq) as (ds & -> & Hv & Hall & Hlen).
  exists (ds ++ [n mod 16]). rewrite <- app_assoc. split; [done|].
  split; [|split].
  - rewrite digits_value_app, Hv.
    pose proof (N.div_mod n 16). lia.
  - apply Forall_app. split; [done|]. constructor; [|done].
    apply N.mod_lt. lia.
  - intros w Hw Hnw. rewrite length_app. simpl.
    destruct w as [|w]; [lia|]. destruct w as [|w].
    { simpl in Hnw. lia. }
    enough (length ds <= S w)%nat by lia.
    apply Hlen; [lia|].
    rewrite (Nat2N.inj_succ (S w)), N.pow_succ_r' in Hnw.
    apply N.Div0.div_lt_upper_bound. lia.
Qed.

Lemma size_fuel n : n < 16 ^ N.of_nat (S (N.size_nat n)).
Proof.
  destruct n as [|p]; [done|].
  assert (N.pos p < 2 ^ N.of_nat (N.size_nat (N.pos p))) as H.
  { simpl N.size_nat.
    induction p as [p IH|p IH|]; simpl Pos.size_nat;
      rewrite ?Nat2N.inj_succ, ?N.pow_succ_r'; cbn; try lia. }
  rewrite Nat2N.inj_succ, N.pow_succ_r'.
  assert (2 ^ N.of_nat (N.size_nat (N.pos p))
          <= 16 ^ N.of_nat (N.size_nat (N.pos p))) as H'.
  { apply N.pow_le_mono_l. lia. }
  lia.
Qed.

Lemma hex_spec n :
  digits_value (hex n) = n
  /\ Forall (fun d => d < 16) (hex n)
  /\ (forall w, (0 < w)%nat -> n < 16 ^ N.of_nat w ->
                (length (hex n) <= w)%nat).
Proof.
  unfold hex.
  destruct (hex_digits_spec _ n [] (size_fuel n)) as (ds & -> & ?).
  by rewrite app_nil_r.
Qed.

End Hex.

Section Successor.

Local Open Scope N_scope.

Lemma encode_hex_length s : length (encode_hex s) = (2 * length s)%nat.
Proof. induction s as [|b s IH]; simpl; [done|]. rewrite IH. lia. Qed.

Lemma encode_hex_digits s : Forall (fun d => d < 16) (encode_hex s).
Proof.
  induction s as [|b s IH]; simpl; [constructor|].
  pose proof (Byte.to_N_bounded b).
  constructor; [apply N.Div0.div_lt_upper_bound; lia|].
  constructor; [apply N.mod_lt; lia|done].
Qed.

Lemma encode_hex_fold s acc :
  fold_left (fun acc d => 16 * acc + d) (encode_hex s) acc
  = fold_left (fun acc b => 256 * acc + Byte.to_N b) s acc.
Proof.
  revert acc. induction s as [|b s IH]; intros acc; simpl; [done|].
  rewrite IH. f_equal. pose proof (N.div_mod (Byte.to_N b) 16). lia.
Qed.

Lemma encode_hex_value s : digits_value (encode_hex s) = be_value s.
Proof. apply encode_hex_fold. Qed.

Lemma decode_encode_hex s : decode_hex (encode_hex s) = Ok s.
Proof.
  induction s as [|b s IH]; simpl; [done|].
  replace (16 * (Byte.to_N b / 16) + Byte.to_N b mod 16) with (Byte.to_N b).
  - rewrite Byte.of_to_N, IH. done.
  - pose proof (N.div_mod (Byte.to_N b) 16). lia.
Qed.

Lemma rjust_length w ds : (length ds <= w)%nat -> length (rjust w ds) = w.
Proof. intros H. unfold rjust. rewrite length_app, length_replicate. lia. Qed.

Lemma rjust_digits w ds :
  Forall (fun d => d < 16) ds -> Forall (fun d => d < 16) (rjust w ds).
Proof.
  intros H. unfold rjust. apply Forall_app. split; [|done].
  apply Forall_replicate. lia.
Qed.

Lemma rjust_value w ds : digits_value (rjust w ds) = digits_value ds.
Proof.
  unfold rjust. induction (w - length ds)%nat as [|n IH]; simpl; [done|].
  rewrite digits_value_cons, IH. lia.
Qed.

Lemma be_value_app s b : be_value (s ++ [b]) = 256 * be_value s + Byte.to_N b.
Proof. unfold be_value. by rewrite fold_left_app. Qed.

Lemma be_value_acc s acc :
  fold_left (fun acc b => 256 * acc + Byte.to_N b) s acc
  = acc * 256 ^ N.of_nat (length s) + be_value s.
Proof.
  unfold be_value. revert acc.
  induction s as [|b s IH]; intros acc; simpl length.
  { simpl. lia. }
  cbn [fold_left]. rewrite IH, (IH (256 * 0 + Byte.to_N b)).
  rewrite Nat2N.inj_succ, N.pow_succ_r'. lia.
Qed.

Lemma be_value_cons b s :
  be_value (b :: s) = Byte.to_N b * 256 ^ N.of_nat (length s) + be_value s.
Proof. unfold be_value at 1. cbn [fold_left]. rewrite be_value_acc. lia. Qed.

Lemma be_bytes_value s : be_bytes (length s) (be_value s) = s.
Proof.
  induction s as [|b s IH] using rev_ind; [done|].
  rewrite length_app, be_value_app. simpl length.
  rewrite Nat.add_1_r. simpl.
  pose proof (Byte.to_N_bounded b).
  replace ((256 * be_value s + Byte.to_N b) / 256) with (be_value s).
  2:{ apply N.div_unique with (Byte.to_N b); lia. }
  replace ((256 * be_value s + Byte.to_N b) mod 256) with (Byte.to_N b).
  2:{ apply N.mod_unique with (be_value s); lia. }
  rewrite IH. unfold byte_of_N. by rewrite Byte.of_to_N.
Qed.

Lemma incr_length s : length (incr s).1 = length s.
Proof.
  induction s as [|b s IH]; simpl; [done|].
  destruct (incr s) as [t [|]]; simpl in *; [|lia].
  destruct (Byte.of_N _); simpl; lia.
Qed.

Lemma incr_value s :
  be_value (incr s).1 + (if (incr s).2 then 256 ^ N.of_nat (length s) else 0)
  = be_value s + 1.
Proof.
  induction s as [|b s IH]; [done|].
  pose proof (incr_length s) as Hlen. simpl.
  destruct (incr s) as [t [|]]; simpl in *.
  - destruct (Byte.of_N (Byte.to_N b + 1)) as [b'|] eqn:E; simpl.
    + apply Byte.to_of_N in E.
      rewrite !be_value_cons, Hlen, E. lia.
    + apply Byte.of_N_None_iff in E. pose proof (Byte.to_N_bounded b).
      assert (Byte.to_N b = 255) as Hb by lia.
      rewrite !be_value_cons, Hlen, Hb.
      change (Byte.to_N "000") with 0.
      rewrite (Nat2N.inj_succ (length s)), N.pow_succ_r'. lia.
  - rewrite !be_value_cons, Hlen. lia.
Qed.

Lemma incr_carry s :
  (incr s).2 = true <-> s = replicate (length s) xff.
Proof.
  induction s as [|b s IH]; simpl; [done|].
  destruct (incr s) as [t [|]]; simpl in *.
  - destruct (Byte.of_N (Byte.to_N b + 1)) as [b'|] eqn:E; simpl.
    + split; [done|]. intros [= -> _]. done.
    + apply Byte.of_N_None_iff in E. pose proof (Byte.to_N_bounded b).
      assert (b = xff) as ->.
      { apply to_N_inj. change (Byte.to_N xff) with 255. lia. }
      split; [|done]. intros _. f_equal. by apply IH.
  - split; [done|]. intros [= _ H]. by apply IH in H.
Qed.

(** The hexadecimal round trip of [seekLast] is the increment of the
    prefix as a big-endian number, trailing zero bytes dropped. *)
Lemma next_prefix_incr prefix :
  prefix <> replicate (length prefix) xff ->
  next_prefix prefix = Ok (rstrip x00 (incr prefix).1).
Proof.
  intros Hff. unfold next_prefix.
  assert ((incr prefix).2 = false) as Hc.
  { destruct (incr prefix).2 eqn:E; [|done]. by apply incr_carry in E. }
  pose proof (incr_value prefix) as Hv. rewrite Hc, N.add_0_r in Hv.
  destruct (encode_hex prefix) as [|d ds] eqn:Henc.
  { destruct prefix; [done|discriminate]. }
  cbn [long16 mbind result_bind]. rewrite <- Henc.
  rewrite encode_hex_value, <- Hv.
  destruct (hex_spec (be_value (incr prefix).1)) as (Hval & Hdig & Hlen).
  assert (rjust (length (encode_hex prefix)) (hex (be_value (incr prefix).1))
          = encode_hex (incr prefix).1) as ->.
  { assert (length (hex (be_value (incr prefix).1))
            <= length (encode_hex prefix))%nat as Hle.
    { apply Hlen.
      - rewrite Henc. simpl. lia.
      - rewrite <- encode_hex_value.
        replace (length (encode_hex prefix))
          with (length (encode_hex (incr prefix).1))
          by (by rewrite !encode_hex_length, incr_length).
        apply digits_value_bound, encode_hex_digits. }
    apply digits_unique.
    - rewrite rjust_length by done.
      by rewrite !encode_hex_length, incr_length.
    - by apply rjust_digits.
    - apply encode_hex_digits.
    - by rewrite rjust_value, Hval, encode_hex_value. }
  by rewrite decode_encode_hex.
Qed.

Lemma successor_spec_incr prefix :
  prefix <> replicate (length prefix) xff ->
  successor_spec prefix = rstrip x00 (incr prefix).1.
Proof.
  intros Hff. unfold successor_spec.
  assert ((incr prefix).2 = false) as Hc.
  { destruct (incr prefix).2 eqn:E; [|done]. by apply incr_carry in E. }
  pose proof (incr_value prefix) as Hv. rewrite Hc, N.add_0_r in Hv.
  by rewrite <- Hv, <- (incr_length prefix), be_bytes_value.
Qed.

(** C4. For a prefix that is not all [0xFF], the successor [seekLast]
    computes is the prefix read as a big-endian number, plus one, on as many
    bytes, without its trailing zero bytes; it is [[0x01, 0x03]] for
    [[0x01, 0x02]]; and for a prefix that is all [0xFF] no successor is
    computed, [seekLast] going to the last key of the store. *)
Theorem next_prefix_big_endian_successor :
  (forall prefix : bytes,
     prefix <> replicate (length prefix) xff ->
     next_prefix prefix = Ok (successor_spec prefix))
  /\ next_prefix [x01; x02] = Ok [x01; x03]
  /\ (forall (it : Iterator.t) (prefix : bytes) (c : Engine.Cursor),
        Iterator._prefix it = Some prefix ->
        prefix = replicate (length prefix) xff ->
        Iterator.seekLast it c = Ok (Engine.seekLast c)).
Proof.
  split; [|split].
  - intros prefix Hff.
    by rewrite next_prefix_incr, successor_spec_incr.
  - reflexivity.
  - intros it prefix c HP Hff. unfold Iterator.seekLast. rewrite HP.
    by rewrite bool_decide_eq_true_2.
Qed.

Lemma next_prefix_big_endian_successor_witness :
  next_prefix (str "ns/") = Ok (successor_spec (str "ns/"))
  /\ successor_spec (str "ns/") = str "ns0".
Proof.
  split; [|reflexivity].
  apply (proj1 next_prefix_big_endian_successor (str "ns/")).
  intros H. vm_compute in H. discriminate H.
Defined.

End Successor.

Section Upper.

Lemma rstrip_zeros n : rstrip x00 (replicate n x00) = [].
Proof. induction n as [|n IH]; simpl; [done|]. by rewrite IH. Qed.

Lemma incr_carry_zeros s :
  (incr s).2 = true -> (incr s).1 = replicate (length s) x00.
Proof.
  induction s as [|b s IH]; simpl; [done|].
  destruct (incr s) as [t [|]]; simpl in *; [|done].
  destruct (Byte.of_N _); simpl; [done|]. intros _. f_equal. by apply IH.
Qed.

Lemma incr_no_carry_nonzero s :
  (incr s).2 = false -> rstrip x00 (incr s).1 <> [].
Proof.
  induction s as [|b s IH]; simpl; [done|].
  destruct (incr s) as [t [|]] eqn:E; simpl in *.
  - destruct (Byte.of_N (Byte.to_N b + 1)) as [b'|] eqn:Eb; simpl; [|done].
    intros _. destruct (rstrip x00 t); [|done].
    rewrite bool_decide_eq_false_2; [done|].
    intros ->. apply Byte.to_of_N in Eb. change (Byte.to_N x00) with 0%N in Eb.
    lia.
  - intros _. specialize (IH eq_refl). by destruct (rstrip x00 t).
Qed.

Lemma all_ff_total n k :
  bytes_lt k (replicate n xff) \/ startswith (replicate n xff) k = true.
Proof.
  revert k. induction n as [|n IH]; intros k; simpl.
  { right. apply startswith_nil_l. }
  destruct k as [|x k]; [by left|].
  unfold bytes_lt. simpl. rewrite startswith_cons.
  pose proof (Byte.to_N_bounded x). change (Byte.to_N xff) with 255%N.
  destruct (N.compare_spec (Byte.to_N x) 255) as [E|E|E]; [|by left|lia].
  assert (x = xff) as -> by (by apply to_N_inj).
  rewrite bool_decide_eq_true_2 by done. apply IH.
Qed.

(** The keys below the successor of a prefix are the keys below the
    prefix and the keys that begin with it. *)
Lemma successor_below s : forall k,
  (incr s).2 = false ->
  bytes_lt k (rstrip x00 (incr s).1)
  <-> bytes_lt k s \/ startswith s k = true.
Proof.
  induction s as [|b s IH]; intros k; [done|].
  pose proof (incr_carry_zeros s) as Hz.
  pose proof (incr_no_carry_nonzero s) as Hnz.
  pose proof (proj1 (incr_carry s)) as Hff.
  simpl. destruct (incr s) as [t [|]] eqn:E; simpl in *.
  - destruct (Byte.of_N (Byte.to_N b + 1)) as [b'|] eqn:Eb; simpl; [|done].
    intros _. rewrite Hz, rstrip_zeros by done.
    apply Byte.to_of_N in Eb.
    rewrite bool_decide_eq_false_2.
    2:{ intros ->. change (Byte.to_N x00) with 0%N in Eb. lia. }
    rewrite (Hff eq_refl).
    destruct k as [|x k]; [by split; [left|]|].
    unfold bytes_lt. simpl. rewrite startswith_cons.
    destruct (N.compare_spec (Byte.to_N x) (Byte.to_N b')) as [F|F|F];
      destruct (N.compare_spec (Byte.to_N x) (Byte.to_N b)) as [G|G|G];
      try lia.
    + split; [by destruct k|]. intros [?|?]; [done|].
      rewrite bool_decide_eq_false_2 in *; [done|]. intros ->. lia.
    + apply to_N_inj in G as ->.
      rewrite bool_decide_eq_true_2 by done. simpl.
      split; [|done]. intros _. apply all_ff_total.
    + split; [|done]. intros _. by left.
    + split; [done|]. intros [?|?]; [done|].
      rewrite bool_decide_eq_false_2 in *; [done|]. intros ->. lia.
  - intros _. specialize (Hnz eq_refl).
    destruct (rstrip x00 t) as [|t0 ts] eqn:Et; [done|].
    destruct k as [|x k]; [by split; [left|]|].
    unfold bytes_lt in *. simpl. rewrite startswith_cons.
    destruct (N.compare_spec (Byte.to_N x) (Byte.to_N b)) as [G|G|G].
    + apply to_N_inj in G as ->.
      rewrite bool_decide_eq_true_2 by done. simpl. apply (IH k eq_refl).
    + split; [by left|done].
    + split; [done|]. intros [?|?]; [done|].
      rewrite bool_decide_eq_false_2 in *; [done|]. intros ->. lia.
Qed.

End Upper.

Section SeekLast.

Implicit Types (es : list (bytes * bytes)) (e : bytes * bytes).

Lemma ascending_snoc es m :
  Engine.ascending (es ++ [m]) = true -> Forall (fun e => bytes_lt e.1 m.1) es.
Proof.
  induction es as [|e es IH]; intros H; [constructor|].
  apply ascending_cons in H as [Hasc Hall].
  constructor; [|by apply IH].
  rewrite Forall_forall in Hall. apply Hall, elem_of_app. right. by left.
Qed.

Lemma ascending_app_l es es' :
  Engine.ascending (es ++ es') = true -> Engine.ascending es = true.
Proof.
  induction es as [|e es IH]; intros H; [done|].
  pose proof (ascending_cons _ _ H) as [Hasc Hall].
  specialize (IH Hasc). destruct es as [|e' es]; [done|].
  simpl in *. apply andb_prop in H as [-> _]. done.
Qed.

Lemma valid_current (it : Iterator.t) c :
  Iterator.valid it c
  = Ok (match Engine.current c with
        | Some e => in_scope (Iterator._prefix it) e.1
        | None => false
        end).
Proof.
  unfold Iterator.valid, Engine.valid, Engine.key.
  destruct (Engine.current c) as [e|]; simpl; [|done].
  by destruct (Iterator._prefix it).
Qed.

Lemma current_before es j :
  j <= length es -> Engine.current (before es j) = last (take j es).
Proof.
  intros Hj. destruct j as [|j]; [by rewrite take_0|].
  unfold Engine.current, before. simpl.
  rewrite last_lookup, length_take, Nat.min_l by done. simpl.
  rewrite lookup_take_lt by lia. done.
Qed.

(** The entry just before index [j] is the greatest one that begins with
    [P], when the entries before [j] are below [P] or begin with it and
    those from [j] on do not begin with it. *)
Lemma greatest_before (P : bytes) es j :
  Engine.ascending es = true -> j <= length es ->
  Forall (fun e => bytes_lt e.1 P \/ startswith P e.1 = true) (take j es) ->
  Forall (fun e => startswith P e.1 = false) (drop j es) ->
  ((exists e, e ∈ es /\ startswith P e.1 = true) ->
   exists m, Engine.current (before es j) = Some m /\ m ∈ es
             /\ startswith P m.1 = true
             /\ forall e, e ∈ es -> startswith P e.1 = true ->
                          bytes_le e.1 m.1)
  /\ ((forall e, e ∈ es -> startswith P e.1 = false) ->
      forall m, Engine.current (before es j) = Some m ->
                startswith P m.1 = false).
Proof.
  intros Hasc Hj Hlow Hhigh. rewrite current_before by done.
  assert (forall e, e ∈ es -> startswith P e.1 = true -> e ∈ take j es) as Hin.
  { intros e He Hsw. rewrite <- (take_drop j es) in He.
    apply elem_of_app in He as [He|He]; [done|].
    rewrite Forall_forall in Hhigh. apply Hhigh in He. congruence. }
  split.
  - intros (e0 & He0 & Hsw0).
    pose proof (Hin _ He0 Hsw0) as He0'.
    assert (Engine.ascending (take j es) = true) as Hasc'.
    { apply (ascending_app_l _ (drop j es)). by rewrite take_drop. }
    destruct (take j es) as [|x l _] eqn:Et using rev_ind.
    { by apply elem_of_nil in He0'. }
    exists x. rewrite last_snoc.
    pose proof (ascending_snoc _ _ Hasc') as Hbelow.
    rewrite Forall_forall in Hbelow.
    assert (forall e, e ∈ l ++ [x] -> bytes_le e.1 x.1) as Hle.
    { intros e [He| ->%list_elem_of_singleton]%elem_of_app.
      - unfold bytes_le. apply Hbelow in He. unfold bytes_lt in He. congruence.
      - unfold bytes_le. by rewrite bytes_compare_refl. }
    assert (x ∈ es) as Hx.
    { rewrite <- (take_drop j es), Et. apply elem_of_app. left.
      apply elem_of_app. right. by left. }
    split; [done|]. split; [done|]. split.
    + rewrite Forall_forall in Hlow.
      assert (x ∈ l ++ [x]) as Hxl by (apply elem_of_app; right; by left).
      destruct (Hlow x Hxl) as [Hlt|?]; [|done].
      exfalso. apply (startswith_not_lt _ _ Hsw0).
      apply elem_of_app in He0' as [He0'| ->%list_elem_of_singleton];
        [|done].
      eapply bytes_lt_trans; [by apply Hbelow|done].
    + intros e He Hsw. by apply Hle, Hin.
  - intros Hnone m Hm. apply Hnone.
    apply last_Some in Hm as [l Hl].
    rewrite <- (take_drop j es), Hl. apply elem_of_app. left.
    apply elem_of_app. right. by left.
Qed.

Lemma seekLast_before (it : Iterator.t) (P : bytes) c :
  Engine.ascending (Engine.entries c) = true ->
  Iterator._prefix it = Some P ->
  exists j,
    Iterator.seekLast it c = Ok (before (Engine.entries c) j)
    /\ j <= length (Engine.entries c)
    /\ Forall (fun e => bytes_lt e.1 P \/ startswith P e.1 = true)
              (take j (Engine.entries c))
    /\ Forall (fun e => startswith P e.1 = false)
              (drop j (Engine.entries c)).
Proof.
  intros Hasc HP. unfold Iterator.seekLast. rewrite HP.
  set (es := Engine.entries c) in *.
  case_bool_decide as Hff.
  - exists (length es). split; [by unfold Engine.seekLast, before|].
    split; [done|]. rewrite take_ge, drop_ge by done.
    split; [|constructor]. apply Forall_forall. intros e _.
    rewrite Hff. apply all_ff_total.
  - rewrite (next_prefix_incr _ Hff). cbn [mbind result_bind].
    assert ((incr P).2 = false) as Hc.
    { destruct (incr P).2 eqn:E; [|done]. by apply incr_carry in E. }
    set (S' := rstrip x00 (incr P).1).
    pose proof (lower_bound_le S' es) as Hle.
    pose proof (lower_bound_below S' es) as Hlow.
    pose proof (lower_bound_above S' es Hasc) as Hhigh.
    set (j := Engine.lower_bound S' es) in *.
    exists j.
    split; [|split; [done|split]].
    + rewrite seek_at. fold es. fold j.
      unfold Engine.valid, Engine.prev. rewrite current_at.
      destruct (es !! j) as [e|] eqn:He; simpl.
      * by rewrite (pos_at _ _ _ He).
      * apply lookup_ge_None in He.
        replace j with (length es) by lia. done.
    + eapply Forall_impl; [exact Hlow|]. simpl. intros e He.
      by apply (successor_below P).
    + eapply Forall_impl; [exact Hhigh|]. simpl. intros e He.
      destruct (startswith P e.1) eqn:E; [|done].
      exfalso. apply He. apply (successor_below P); auto.
Qed.

(** C3. After [seekLast] on an iterator with prefix [P], over a store in

    ascending key order: when some stored key starts with [P] the cursor is

    on the greatest such key and [valid()] is true; when none does,

    [valid()] is false. *)

Theorem seekLast_greatest (it : Iterator.t) (P : bytes) (c : Engine.Cursor) :
  Engine.ascending (Engine.entries c) = true ->
  Iterator._prefix it = Some P ->
  exists c',
    Iterator.seekLast it c = Ok c'
    /\ Engine.entries c' = Engine.entries c
    /\ ((exists e, e ∈ Engine.entries c /\ startswith P e.1 = true) ->
        Iterator.valid it c' = Ok true
        /\ exists m, Engine.current c' = Some m
                     /\ m ∈ Engine.entries c
                     /\ startswith P m.1 = true
                     /\ forall e, e ∈ Engine.entries c ->
                                  startswith P e.1 = true ->
                                  bytes_le e.1 m.1)
    /\ ((forall e, e ∈ Engine.entries c -> startswith P e.1 = false) ->
        Iterator.valid it c' = Ok false).
Proof.
  intros Hasc HP.
  destruct (seekLast_before it P c Hasc HP) as (j & -> & Hj & Hlow & Hhigh).
  destruct (greatest_before P _ j Hasc Hj Hlow Hhigh) as [Hsome Hnone].
  eexists. split; [done|]. split; [done|]. split.
  - intros Hex. destruct (Hsome Hex) as (m & Hm & Hin & Hsw & Hmax).
    split; [|by exists m].
    rewrite valid_current, Hm, HP. simpl. by rewrite Hsw.
  - intros Hno. rewrite valid_current, HP.
    destruct (Engine.current _) as [m|] eqn:Hm; [|done].
    simpl. by rewrite (Hnone Hno m).
Qed.

Lemma seekLast_greatest_witness :
  let it := Iterator.mk 1 (Some (str "ns/")) false in
  let c := Engine.mkCursor namespaced None in
  exists c',
    Iterator.seekLast it c = Ok c'
    /\ Iterator.valid it c' = Ok true
    /\ exists m, Engine.current c' = Some m /\ startswith (str "ns/") m.1 = true.
Proof.
  destruct (seekLast_greatest (Iterator.mk 1 (Some (str "ns/")) false)
              (str "ns/") (Engine.mkCursor namespaced None)
              eq_refl eq_refl) as (c' & Hseek & _ & Hsome & _).
  destruct Hsome as (Hvalid & m & Hm & _ & Hsw & _).
  { exists (str "ns/x", str "2"). split; [|reflexivity].
    right. left. }
  exists c'. split; [exact Hseek|]. split; [exact Hvalid|].
  exists m. split; [exact Hm|exact Hsw].
Defined.

End SeekLast.

Section Order.

Lemma bytes_gtb_lt a b : bytes_gtb a b = true <-> bytes_lt b a.
Proof.
  unfold bytes_gtb, bytes_lt. rewrite (bytes_compare_antisym a b).
  destruct (bytes_compare a b); naive_solver.
Qed.

Lemma bytes_lt_asym a b : bytes_lt a b -> ~ bytes_lt b a.
Proof.
  unfold bytes_lt. rewrite (bytes_compare_antisym a b). by intros ->.
Qed.

Lemma bytes_lt_total a b : ~ bytes_lt a b -> a <> b -> bytes_lt b a.
Proof.
  unfold bytes_lt. intros Hlt Hne. rewrite (bytes_compare_antisym a b).
  destruct (bytes_compare a b) eqn:E; [|done|done].
  by apply bytes_compare_eq in E.
Qed.

Lemma bytes_le_lt_trans a b c : ~ bytes_lt b a -> bytes_lt b c -> bytes_lt a c.
Proof.
  intros Hle Hlt. destruct (decide (b = a)) as [->|Hne]; [done|].
  eapply bytes_lt_trans; [|done]. by apply bytes_lt_total.
Qed.

Lemma bytes_ltb_false a b : bytes_ltb a b = false <-> ~ bytes_lt a b.
Proof. rewrite <- bytes_ltb_lt. by destruct (bytes_ltb a b). Qed.

Lemma bytes_lt_app_r k p s : bytes_lt k p -> bytes_lt k (p ++ s).
Proof.
  unfold bytes_lt. revert k. induction p as [|b p IH]; intros [|x k]; try done.
  simpl. destruct (Byte.to_N x ?= Byte.to_N b)%N; auto.
Qed.

Lemma bytes_ltb_nil k : bytes_ltb k [] = false.
Proof. by destruct k. Qed.

Lemma scoped_unscoped p k : in_scope p k = true -> scoped p (unscoped p k) = k.
Proof.
  destruct p as [P|]; simpl; [|done].
  intros [r ->]%startswith_app. by rewrite drop_app_length.
Qed.

Lemma scoped_compare p a b :
  bytes_compare (scoped p a) (scoped p b) = bytes_compare a b.
Proof. destruct p; simpl; [apply bytes_compare_app|done]. Qed.

Lemma scoped_lt p a k :
  in_scope p k = true ->
  (bytes_lt k (scoped p a) <-> bytes_lt (unscoped p k) a)
  /\ (bytes_lt (scoped p a) k <-> bytes_lt a (unscoped p k)).
Proof.
  intros H. rewrite <- (scoped_unscoped p k H) at 1 3.
  unfold bytes_lt. by rewrite !scoped_compare.
Qed.

Lemma in_scope_passed p s k k' :
  ~ bytes_lt k (scoped p s) -> in_scope p k = false -> bytes_lt k k' ->
  in_scope p k' = false.
Proof.
  destruct p as [P|]; simpl; [|done]. intros Hge.
  apply startswith_passed. intros Hlt. apply Hge. by apply bytes_lt_app_r.
Qed.

Lemma upper_ok_past end_key end_inclusive r :
  Iterator.past_end end_key end_inclusive (Iterator.ARow r)
  = Ok (negb (upper_ok end_key end_inclusive (Row.key r))).
Proof.
  unfold Iterator.past_end, upper_ok. destruct end_key as [e|]; [|done].
  destruct r as [k v]. simpl. f_equal. destruct end_inclusive; simpl.
  - by rewrite orb_false_r, negb_involutive.
  - unfold bytes_gtb, bytes_ltb, bytes_eqb.
    destruct (bytes_compare k e) eqn:E; simpl.
    + apply bytes_compare_eq in E. by rewrite bool_decide_eq_true_2.
    + rewrite bool_decide_eq_false_2; [done|]. intros ->.
      by rewrite bytes_compare_refl in E.
    + done.
Qed.

Lemma upper_ok_down end_key end_inclusive a a' :
  bytes_lt a a' -> upper_ok end_key end_inclusive a' = true ->
  upper_ok end_key end_inclusive a = true.
Proof.
  unfold upper_ok. destruct end_key as [e|]; [|done]. intros Hlt.
  destruct end_inclusive.
  - rewrite !negb_true_iff. intros H.
    destruct (bytes_gtb a e) eqn:E; [|done].
    apply bytes_gtb_lt in E.
    assert (bytes_gtb a' e = true) as H'; [|congruence].
    apply bytes_gtb_lt. by eapply bytes_lt_trans.
  - rewrite !bytes_ltb_lt. by apply bytes_lt_trans.
Qed.

End Order.

Section Range.

Implicit Types (es : list (bytes * bytes)) (e : bytes * bytes).

Lemma take_while_ext {A} (f g : A -> bool) (l : list A) :
  Forall (fun x => f x = g x) l -> take_while f l = take_while g l.
Proof.
  induction 1 as [|x l Hx _ IH]; [done|]. simpl. by rewrite Hx, IH.
Qed.

Lemma range_loop_at (it : Iterator.t) end_key end_inclusive es fuel :
  forall i,
  Iterator._keys_only it = false ->
  length es - i < fuel ->
  Iterator.range_loop fuel it end_key end_inclusive (cursor_at es i)
  = (row_of (Iterator._prefix it)
       <$> take_while (fun e => in_scope (Iterator._prefix it) e.1
                                && upper_ok end_key end_inclusive
                                     (unscoped (Iterator._prefix it) e.1))
                      (drop i es),
     Iterator.Returned).
Proof.
  induction fuel as [|fuel IH]; intros i Hk Hfuel; [lia|].
  simpl. destruct (es !! i) as [e|] eqn:He.
  - rewrite (next_at _ _ _ _ He Hk), (drop_S _ _ _ He). simpl.
    destruct (in_scope _ _); [|done]. simpl.
    unfold row_of at 1. rewrite upper_ok_past. simpl.
    destruct (upper_ok _ _ _); simpl; [|done].
    rewrite IH; [done|done|]. apply lookup_lt_Some in He. lia.
  - rewrite (next_off _ _ _ He).
    apply lookup_ge_None in He. by rewrite drop_ge.
Qed.

Lemma seekFirst_at (it : Iterator.t) c :
  Iterator.seekFirst it c
  = cursor_at (Engine.entries c)
      (Engine.lower_bound (scoped (Iterator._prefix it) []) (Engine.entries c)).
Proof.
  unfold Iterator.seekFirst. destruct (Iterator._prefix it) as [P|]; simpl.
  - by rewrite app_nil_r.
  - unfold Engine.seekFirst, cursor_at. f_equal. f_equal.
    destruct (Engine.entries c) as [|e es]; [done|].
    simpl. by rewrite bytes_ltb_nil.
Qed.

Lemma iterator_seek_at (it : Iterator.t) s c :
  Iterator.seek it s c
  = cursor_at (Engine.entries c)
      (Engine.lower_bound (scoped (Iterator._prefix it) s) (Engine.entries c)).
Proof. unfold Iterator.seek. by destruct (Iterator._prefix it). Qed.

Lemma range_start_at (it : Iterator.t) start_key start_inclusive c :
  (start_inclusive = false -> forall s, start_key = Some s ->
     Engine.valid (Iterator.seek it s c) = true) ->
  Iterator.range_start it start_key start_inclusive c
  = Ok (cursor_at (Engine.entries c)
          (start_index (Iterator._prefix it) start_key start_inclusive
             (Engine.entries c))).
Proof.
  intros Hvalid. unfold Iterator.range_start, start_index.
  destruct start_key as [s|]; [|by rewrite seekFirst_at].
  rewrite iterator_seek_at.
  destruct start_inclusive; simpl; [done|].
  specialize (Hvalid eq_refl s eq_refl).
  rewrite iterator_seek_at in Hvalid.
  unfold Engine.valid in Hvalid. apply bool_decide_eq_true in Hvalid.
  rewrite current_at in Hvalid. destruct Hvalid as [e He].
  unfold Iterator.key, Engine.key. rewrite current_at, He. simpl.
  assert (match Iterator._prefix it with
          | Some prefix => Ok (drop (length prefix) e.1)
          | None => Ok e.1
          end = Ok (unscoped (Iterator._prefix it) e.1)) as ->.
  { by destruct (Iterator._prefix it). }
  simpl. destruct (bytes_eqb _ s); [|done].
  unfold Engine.next. rewrite current_at, He.
  unfold cursor_at at 1. simpl. by rewrite (pos_at _ _ _ He).
Qed.

Lemma lower_ok_before p start_key start_inclusive k :
  in_scope p k = true ->
  bytes_lt k (scoped p (default [] start_key)) ->
  lower_ok start_key start_inclusive (unscoped p k) = false.
Proof.
  intros Hin Hlt. apply (scoped_lt p _ k Hin) in Hlt.
  destruct start_key as [s|]; simpl in *.
  - destruct start_inclusive.
    + apply negb_false_iff. by apply bytes_ltb_lt.
    + apply bytes_ltb_false. by apply bytes_lt_asym.
  - by destruct (unscoped p k).
Qed.

Lemma lower_ok_from p start_key k :
  in_scope p k = true ->
  ~ bytes_lt k (scoped p (default [] start_key)) ->
  lower_ok start_key true (unscoped p k) = true.
Proof.
  intros Hin Hge. destruct start_key as [s|]; simpl in *; [|done].
  apply negb_true_iff, bytes_ltb_false. intros Hlt. apply Hge.
  by apply (scoped_lt p s k Hin).
Qed.

Lemma lower_ok_after p s k :
  in_scope p k = true ->
  bytes_lt (scoped p s) k ->
  lower_ok (Some s) false (unscoped p k) = true.
Proof.
  intros Hin Hlt. simpl. apply bytes_ltb_lt. by apply (scoped_lt p s k Hin).
Qed.

Lemma start_index_split p start_key start_inclusive es :
  Engine.ascending es = true ->
  let j := start_index p start_key start_inclusive es in
  Forall (fun e => in_scope p e.1 = true ->
                   lower_ok start_key start_inclusive (unscoped p e.1) = false)
         (take j es)
  /\ Forall (fun e => (in_scope p e.1 = true ->
                       lower_ok start_key start_inclusive (unscoped p e.1)
                       = true)
                      /\ ~ bytes_lt e.1 (scoped p (default [] start_key)))
            (drop j es).
Proof.
  intros Hasc. set (t := scoped p (default [] start_key)).
  pose proof (lower_bound_below t es) as Hlow.
  pose proof (lower_bound_above t es Hasc) as Hhigh.
  assert (Forall (fun e => in_scope p e.1 = true ->
            lower_ok start_key start_inclusive (unscoped p e.1) = false)
            (take (Engine.lower_bound t es) es)) as Hlow'.
  { eapply Forall_impl; [exact Hlow|]. simpl. intros e ? ?.
    by apply lower_ok_before. }
  unfold start_index.
  destruct start_key as [s|]; simpl in t; fold t.
  2:{ split; [done|]. eapply Forall_impl; [exact Hhigh|]. simpl.
      intros e He. done. }
  destruct start_inclusive.
  { split; [done|]. eapply Forall_impl; [exact Hhigh|]. simpl.
    intros e He. split; [|done]. intros Hin.
    by apply (lower_ok_from p (Some s)). }
  set (l := Engine.lower_bound t es) in *.
  destruct (es !! l) as [e0|] eqn:He0.
  2:{ split; [done|]. apply lookup_ge_None in He0.
      rewrite drop_ge by done. constructor. }
  pose proof (ascending_drop l es Hasc) as Hasc'.
  rewrite (drop_S _ _ _ He0) in Hasc', Hhigh.
  apply ascending_cons in Hasc' as [_ Hgt].
  apply Forall_cons in Hhigh as [Hge0 _].
  assert (Forall (fun e => (in_scope p e.1 = true ->
              lower_ok (Some s) false (unscoped p e.1) = true)
              /\ ~ bytes_lt e.1 t) (drop (S l) es)) as Hrest.
  { eapply Forall_impl; [exact Hgt|]. simpl. intros e He.
    assert (bytes_lt t e.1) as Hlt by (by eapply bytes_le_lt_trans).
    split; [|by apply bytes_lt_asym]. intros Hin. by apply lower_ok_after. }
  unfold bytes_eqb. case_bool_decide as Heq.
  - split; [|done]. rewrite (take_S_r _ _ _ He0).
    apply Forall_app. split; [done|]. constructor; [|done].
    intros _. rewrite Heq. simpl. apply bytes_ltb_false, bytes_lt_irrefl.
  - split; [done|]. rewrite (drop_S _ _ _ He0). constructor; [|done].
    split; [|done]. intros Hin. simpl. apply bytes_ltb_lt.
    apply bytes_lt_total; [|done]. intros Hlt. apply Hge0.
    by apply (scoped_lt p s _ Hin).
Qed.

(** [range] yields exactly the rows within its bounds, in ascending order,

    and returns, as long as no exclusive start sends the cursor past the

    last entry. *)

Theorem range_yields_bounded_rows (it : Iterator.t) (c : Engine.Cursor)
    (fuel : nat) (start_key end_key : option bytes)
    (start_inclusive end_inclusive : bool) :
  Engine.ascending (Engine.entries c) = true ->
  Iterator._keys_only it = false ->
  length (Engine.entries c) < fuel ->
  (start_inclusive = false -> forall s, start_key = Some s ->
     Engine.valid (Iterator.seek it s c) = true) ->
  Iterator.range fuel it start_key end_key start_inclusive end_inclusive c
  = (Iterator.ARow
       <$> range_rows (Iterator._prefix it) (Engine.entries c) start_key
             end_key start_inclusive end_inclusive,
     Iterator.Returned).
Proof.
  intros Hasc Hk Hfuel Hvalid. unfold Iterator.range.
  rewrite (range_start_at _ _ _ _ Hvalid).
  rewrite range_loop_at by (done || lia).
  set (p := Iterator._prefix it). set (es := Engine.entries c) in *.
  destruct (start_index_split p start_key start_inclusive es Hasc)
    as [Hbefore Hafter].
  set (j := start_index p start_key start_inclusive es) in *.
  f_equal. unfold range_rows. rewrite <- list_fmap_compose.
  change (Iterator.ARow ∘ _) with (row_of p). f_equal.
  set (q := fun k => in_scope p k
                     && in_range start_key end_key start_inclusive
                          end_inclusive (unscoped p k)).
  rewrite (take_while_ext _ (fun e => q e.1)).
  2:{ eapply Forall_impl; [exact Hafter|]. simpl. intros e [Hlo _].
      unfold q, in_range. destruct (in_scope p e.1); [|done].
      by rewrite Hlo. }
  apply (window q).
  - done.
  - eapply Forall_impl; [exact Hbefore|]. simpl. intros e Hlo.
    unfold q, in_range. destruct (in_scope p e.1); [|done].
    by rewrite Hlo.
  - intros e k' He Hq Hlt. rewrite Forall_forall in Hafter.
    destruct (Hafter e He) as [Hlo Hge]. unfold q, in_range in *.
    destruct (in_scope p e.1) eqn:Hin.
    + rewrite Hlo in Hq by done. simpl in Hq.
      destruct (in_scope p k') eqn:Hin'; [|done]. simpl.
      apply andb_false_intro2.
      destruct (upper_ok end_key end_inclusive (unscoped p k')) eqn:Hup;
        [|done].
      rewrite (upper_ok_down _ _ (unscoped p e.1) (unscoped p k')) in Hq;
        [done| |done].
      apply (scoped_lt p _ k' Hin'). by rewrite scoped_unscoped.
    + by rewrite (in_scope_passed p _ e.1 k' Hge Hin Hlt).
Qed.

Lemma range_yields_bounded_rows_witness :
  let it := Iterator.mk 1 None false in
  Iterator.range 7 it (Some (str "b")) (Some (str "d")) true false
    (Engine.mkCursor letters None)
  = ([Iterator.ARow (Row.mk (str "b") (str "2"));
      Iterator.ARow (Row.mk (str "c") (str "3"))], Iterator.Returned).
Proof.
  apply (range_yields_bounded_rows (Iterator.mk 1 None false)
           (Engine.mkCursor letters None) 7 (Some (str "b"))
           (Some (str "d")) true false);
    [reflexivity | reflexivity | simpl; lia | discriminate].
Defined.

(** C9 fails on a start key beyond every stored key, taken exclusive: no
    row is within the bounds, and [range], instead of returning without
    a row, reads the key of a cursor that is not valid. *)
Theorem range_exclusive_start_past_last_key :
  let it := Iterator.mk 1 None false in
  let c := Engine.mkCursor letters None in
  range_rows None letters (Some (str "f")) None false false = []
  /\ Engine.valid (Iterator.seek it (str "f") c) = false
  /\ Iterator.range 7 it (Some (str "f")) None false false c
     = ([], Iterator.Failed EngineUndefined).
Proof. repeat split. Qed.

(** C10 fails. When the seek to the start key leaves the native cursor not
    valid, [range] with an exclusive start still reads [key()]: the read is
    the engine's undefined behaviour, and so is the whole call. *)
Theorem range_exclusive_start_reads_invalid_cursor (it : Iterator.t)
    (start_key : bytes) (c : Engine.Cursor) :
  Engine.valid (Iterator.seek it start_key c) = false ->
  Iterator.key it (Iterator.seek it start_key c) = Raise EngineUndefined
  /\ Iterator.range_start it (Some start_key) false c = Raise EngineUndefined
  /\ forall fuel end_key end_inclusive,
       Iterator.range fuel it (Some start_key) end_key false end_inclusive c
       = ([], Iterator.Failed EngineUndefined).
Proof.
  intros Hinv.
  assert (Iterator.key it (Iterator.seek it start_key c)
          = Raise EngineUndefined) as Hkey.
  { unfold Engine.valid in Hinv. apply bool_decide_eq_false in Hinv.
    unfold Iterator.key, Engine.key.
    destruct (Engine.current _); [|done]. exfalso. eauto. }
  assert (Iterator.range_start it (Some start_key) false c
          = Raise EngineUndefined) as Hstart.
  { unfold Iterator.range_start. simpl. by rewrite Hkey. }
  split; [done|]. split; [done|]. intros fuel end_key end_inclusive.
  unfold Iterator.range. by rewrite Hstart.
Qed.

Lemma range_exclusive_start_reads_invalid_cursor_witness :
  let it := Iterator.mk 1 None false in
  let c := Engine.mkCursor letters None in
  Iterator.key it (Iterator.seek it (str "f") c) = Raise EngineUndefined
  /\ Iterator.range_start it (Some (str "f")) false c
     = Raise EngineUndefined.
Proof.
  destruct (range_exclusive_start_reads_invalid_cursor
              (Iterator.mk 1 None false) (str "f")
              (Engine.mkCursor letters None) eq_refl) as (Hk & Hs & _).
  split; [exact Hk|exact Hs].
Defined.

End Range.

Section Guard.

Import MemorySafety.

Implicit Types (h : heap) (g : t) (a b d : nat).

Lemma evolves_refl h : evolves h h.
Proof.
  split; [done|by left|done|]. exists []. by rewrite !app_nil_r.
Qed.

Lemma evolves_trans h1 h2 h3 : evolves h1 h2 -> evolves h2 h3 -> evolves h1 h3.
Proof.
  intros [N1 L1 O1 (n1 & R1 & P1)] [N2 L2 O2 (n2 & R2 & P2)].
  split; [congruence| |lia|].
  - intros x. destruct (L2 x) as [->|[Hs ->]]; [done|].
    right. split; [|done].
    destruct (L1 x) as [<-|[? _]]; done.
  - exists (n1 ++ n2). split.
    + by rewrite R2, R1, app_assoc.
    + rewrite P1, P2, <- !app_assoc. apply Permutation_app_head.
      apply Permutation_app_comm.
Qed.

Lemma live_Some a h g : live a h = Some g <-> objs h !! a = Some (Some g).
Proof.
  unfold live. destruct (objs h !! a) as [[?|]|]; simpl; naive_solver.
Qed.

Lemma live_store_eq a g g' h : live a h = Some g -> live a (store a g' h) = Some g'.
Proof.
  intros H%live_Some. apply live_Some. simpl.
  apply list_lookup_insert_eq. by eapply lookup_lt_Some.
Qed.

Lemma live_store_ne a b g h : a <> b -> live b (store a g h) = live b h.
Proof. intros H. unfold live. simpl. by rewrite list_lookup_insert_ne. Qed.

Lemma objs_split a g h :
  live a h = Some g ->
  objs h = take a (objs h) ++ Some g :: drop (S a) (objs h)
  /\ objs (store a closed h)
     = take a (objs h) ++ Some closed :: drop (S a) (objs h).
Proof.
  intros H%live_Some. split.
  - by rewrite <- (take_drop_middle _ _ _ H) at 1.
  - simpl. apply insert_take_drop. by eapply lookup_lt_Some.
Qed.

Lemma opens_store a g h :
  live a h = Some g ->
  opens h = (if bool_decide (is_Some (_referrers g)) then 1 else 0)
            + opens (store a closed h).
Proof.
  intros H. destruct (objs_split _ _ _ H) as [E1 E2].
  unfold opens. rewrite E2. rewrite E1 at 1.
  rewrite !filter_app, !filter_cons, !length_app. simpl.
  destruct (bool_decide (is_Some (_referrers g))) eqn:E; simpl; lia.
Qed.

Lemma held_store a g h :
  live a h = Some g ->
  held h ≡ₚ held (store a closed h) ++ option_list (ref g).
Proof.
  intros H. destruct (objs_split _ _ _ H) as [E1 E2].
  unfold held. rewrite E2. rewrite E1 at 1.
  rewrite !omap_app. simpl.
  destruct (ref g) as [r|]; simpl.
  - rewrite <- Permutation_middle. apply Permutation_cons_append.
  - by rewrite app_nil_r.
Qed.

Lemma elem_of_held r h :
  r ∈ held h <-> exists b g, live b h = Some g /\ ref g = Some r.
Proof.
  unfold held. rewrite list_elem_of_omap. split.
  - intros (o & Ho & Hr). apply list_elem_of_lookup in Ho as [b Hb].
    destruct o as [g|]; [|done]. exists b, g. by rewrite live_Some.
  - intros (b & g & Hb%live_Some & Hr). exists (Some g). split; [|done].
    apply list_elem_of_lookup. eauto.
Qed.

Lemma evolves_store a g h :
  live a h = Some g ->
  natives (store a closed h) = natives h
  /\ (forall x, live x (store a closed h) = live x h
                \/ (is_Some (live x h) /\ live x (store a closed h) = Some closed))
  /\ opens (store a closed h) <= opens h.
Proof.
  intros H. split; [done|]. split.
  - intros x. destruct (decide (a = x)) as [<-|Hne].
    + right. rewrite H. split; [eauto|]. by eapply live_store_eq.
    + left. by apply live_store_ne.
  - rewrite (opens_store _ _ _ H). lia.
Qed.

Lemma for_each_closes fuel :
  close_ok fuel ->
  forall rs h, opens h < fuel ->
    exists h', for_each (body fuel) rs h = Some h' /\ evolves h h'
               /\ forall d, d ∈ rs -> is_Some (live d h) ->
                            live d h' = Some closed.
Proof.
  intros IH rs. induction rs as [|r rs IHrs]; intros h Hop.
  { exists h. split; [done|]. split; [apply evolves_refl|].
    intros d Hd. by apply elem_of_nil in Hd. }
  assert (exists h1, body fuel r h = Some h1 /\ evolves h h1
                     /\ (is_Some (live r h) -> live r h1 = Some closed))
    as (h1 & Hb & Hev1 & Hr).
  { unfold body. destruct (live r h) eqn:E.
    - destruct (IH r h Hop) as (h1 & ? & ? & Hc & _). exists h1.
      rewrite E in Hc. auto.
    - exists h. split; [done|]. split; [apply evolves_refl|].
      by intros [? ?]. }
  cbn [for_each]. rewrite Hb.
  simpl. destruct (IHrs h1) as (h2 & -> & Hev2 & Hds).
  { pose proof (ev_opens _ _ Hev1). lia. }
  exists h2. split; [done|]. split; [by eapply evolves_trans|].
  intros d Hd Hlive.
  assert (is_Some (live d h1)) as Hlive1.
  { destruct (ev_live _ _ Hev1 d) as [->|[_ ->]]; eauto. }
  apply elem_of_cons in Hd as [->|Hd]; [|by apply Hds].
  destruct (ev_live _ _ Hev2 r) as [->|[_ ->]]; [|done]. by apply Hr.
Qed.

Lemma close_unfold fuel a h :
  close (S fuel) a h
  = match live a h with
    | None => Some h
    | Some g =>
        h2 ← match _referrers g with
              | Some rs => for_each (body fuel) rs (store a closed h)
              | None => Some (store a closed h)
              end;
        match ref g with
        | Some r => Some (native_close r h2)
        | None => Some h2
        end
    end.
Proof. done. Qed.

Lemma close_spec fuel : close_ok fuel.
Proof.
  induction fuel as [|fuel IH]; intros a h Hop; [lia|].
  rewrite close_unfold. destruct (live a h) as [g|] eqn:Ha.
  2:{ exists h. split; [done|]. split; [apply evolves_refl|].
      split; [by intros [? ?]|done]. }
  destruct (evolves_store _ _ _ Ha) as (N1 & L1 & O1).
  pose proof (opens_store _ _ _ Ha) as Hopen.
  pose proof (held_store _ _ _ Ha) as Hheld.
  set (h1 := store a closed h) in *.
  assert (exists h2,
    match _referrers g with
    | Some referrers => for_each (body fuel) referrers h1
    | None => Some h1
    end = Some h2 /\ evolves h1 h2
    /\ (forall rs d, _referrers g = Some rs -> d ∈ rs ->
           is_Some (live d h1) -> live d h2 = Some closed))
    as (h2 & Hloop & Hev & Hdeps).
  { destruct (_referrers g) as [rs|] eqn:Hrs.
    - destruct (for_each_closes fuel IH rs h1) as (h2 & ? & ? & Hds).
      { rewrite bool_decide_eq_true_2 in Hopen by eauto. lia. }
      exists h2. split; [done|]. split; [done|].
      intros ? d [= <-]. apply Hds.
    - exists h1. split; [done|]. split; [apply evolves_refl|done]. }
  assert (forall rs d, _referrers g = Some rs -> d ∈ rs ->
            is_Some (live d h) -> live d h2 = Some closed) as Hdeps'.
  { intros rs d Hrs Hd Hlive. apply (Hdeps rs); [done|done|].
    destruct (L1 d) as [->|[_ ->]]; eauto. }
  rewrite Hloop. cbn [mbind option_bind].
  destruct Hev as [N2 L2 O2 (new & R2 & P2)].
  assert (live a h2 = Some closed) as Ha2.
  { destruct (L2 a) as [->|[_ ->]]; [|done]. by eapply live_store_eq. }
  assert (forall x, live x h2 = live x h
                    \/ (is_Some (live x h) /\ live x h2 = Some closed)) as L.
  { intros x. destruct (L2 x) as [->|[Hs ->]]; [apply L1|].
    right. split; [|done]. destruct (L1 x) as [<-|[? _]]; done. }
  assert (natives h2 = natives h) as N by (by rewrite N2).
  assert (opens h2 <= opens h) as O by lia.
  destruct (ref g) as [r|]; simpl in Hheld.
  - eexists. split; [done|]. split; [|split; [done|]].
    + split; [done|done|done|].
      exists (new ++ [r]). split.
      * simpl. rewrite R2. by rewrite <- app_assoc.
      * change (held (native_close r h2)) with (held h2).
        by rewrite Hheld, P2, app_assoc.
    + intros ? rs d [= <-]. apply Hdeps'.
  - exists h2. split; [done|]. split; [|split; [done|]].
    + split; [done|done|done|].
      exists new. split; [done|]. by rewrite Hheld, app_nil_r.
    + intros ? rs d [= <-]. apply Hdeps'.
Qed.

Lemma close_closed fuel a h :
  live a h = Some closed -> close (S fuel) a h = Some h.
Proof.
  intros Ha. rewrite close_unfold, Ha. simpl.
  unfold store. apply live_Some in Ha.
  rewrite list_insert_id by done. by destruct h.
Qed.

End Guard.

Section Batches.

Import WriteBatch.

Implicit Types (σ : store) (B : t) (db : DBInterface.t).

Lemma translated_puts (prefix : bytes) (m : gmap bytes bytes) :
  map_fold (fun key value (acc : gmap bytes bytes) =>
              <[prefix ++ key := value]> acc) ∅ m
  = kmap (app prefix) m.
Proof.
  apply (map_fold_weak_ind (fun r m => r = kmap (app prefix) m)).
  - by rewrite kmap_empty.
  - intros k v m' r _ ->. rewrite kmap_insert; [done|apply _].
Qed.

Lemma translated_deletes (prefix : bytes) (X : gset bytes) :
  set_fold (fun key (acc : gset bytes) => acc ∪ {[prefix ++ key]}) ∅ X
  = set_map (app prefix) X.
Proof.
  apply (set_fold_ind_L (fun r X => r = set_map (app prefix) X)).
  - by rewrite set_map_empty.
  - intros k X' r _ ->.
    rewrite set_map_union_L, set_map_singleton_L. set_solver.
Qed.

Lemma disjoint_translated (prefix : bytes) B :
  disjoint B ->
  disjoint (mk (kmap (app prefix) (_puts B))
               (set_map (app prefix) (_deletes B)) true).
Proof.
  unfold disjoint. simpl. intros H k Hp Hd.
  apply elem_of_dom in Hp as [v Hv].
  apply lookup_kmap_Some in Hv as (k1 & -> & Hk1); [|apply _].
  apply elem_of_map in Hd as (k2 & Hk & Hk2).
  apply (inj (app prefix)) in Hk as <-.
  apply (H k1); [|done]. apply elem_of_dom. eauto.
Qed.

Lemma run_call_disjoint σ c :
  Forall disjoint σ -> Forall disjoint (run_call σ c).
Proof.
  intros Hσ.
  assert (forall b B, σ !! b = Some B -> disjoint B) as Hat.
  { intros b B Hb. rewrite Forall_forall in Hσ. apply Hσ.
    by eapply list_elem_of_lookup_2. }
  assert (disjoint (mk ∅ ∅ true) /\ disjoint (mk ∅ ∅ false)) as [He1 He2].
  { unfold disjoint. simpl. split; set_solver. }
  destruct c as [|db|b|b k v|b k|db b k v|db b k|db b sync]; simpl.
  - apply Forall_app. by repeat constructor.
  - apply Forall_app. by repeat constructor.
  - unfold clear. destruct (σ !! b) as [B|] eqn:Hb; simpl; [|done].
    apply Forall_insert; [done|]. unfold disjoint. simpl. set_solver.
  - unfold put. destruct (σ !! b) as [B|] eqn:Hb; simpl; [|done].
    destruct (_private B); simpl; [done|].
    apply Forall_insert; [done|]. pose proof (Hat _ _ Hb) as HB.
    unfold disjoint in *. simpl. rewrite dom_insert_L. set_solver.
  - unfold delete. destruct (σ !! b) as [B|] eqn:Hb; simpl; [|done].
    destruct (_private B); simpl; [done|].
    apply Forall_insert; [done|]. pose proof (Hat _ _ Hb) as HB.
    unfold disjoint in *. simpl. rewrite dom_delete_L. set_solver.
  - unfold DBInterface.putTo. destruct (σ !! b) as [B|] eqn:Hb; simpl; [|done].
    destruct (_private B); simpl; [|done].
    apply Forall_insert; [done|]. pose proof (Hat _ _ Hb) as HB.
    unfold disjoint in *. simpl. rewrite dom_insert_L. set_solver.
  - unfold DBInterface.deleteFrom.
    destruct (σ !! b) as [B|] eqn:Hb; simpl; [|done].
    destruct (_private B); simpl; [|done].
    apply Forall_insert; [done|]. pose proof (Hat _ _ Hb) as HB.
    unfold disjoint in *. simpl. rewrite dom_delete_L. set_solver.
  - unfold DBInterface.write.
    destruct (σ !! b) as [B|] eqn:Hb; simpl; [|done].
    destruct (DBInterface._prefix db) as [prefix|]; [|done].
    destruct (_private B); simpl; [done|].
    apply Forall_insert; [apply Forall_app; by repeat constructor|].
    rewrite translated_puts, translated_deletes.
    apply disjoint_translated. by eapply Hat.
Qed.

Lemma run_calls_disjoint cs : forall σ,
  Forall disjoint σ -> Forall disjoint (run_calls σ cs).
Proof.
  induction cs as [|c cs IH]; intros σ Hσ; [done|].
  simpl. by apply IH, run_call_disjoint.
Qed.

Lemma put_public σ b B k v :
  σ !! b = Some B -> _private B = false ->
  put b k v σ
  = (Ok (), <[b := mk (<[k := v]> (_puts B)) (_deletes B ∖ {[k]}) false]> σ).
Proof. intros Hb Hpub. unfold put. by rewrite Hb, Hpub. Qed.

Lemma delete_public σ b B k :
  σ !! b = Some B -> _private B = false ->
  delete b k σ
  = (Ok (),
     <[b := mk (base.delete k (_puts B)) (_deletes B ∪ {[k]}) false]> σ).
Proof. intros Hb Hpub. unfold delete. by rewrite Hb, Hpub. Qed.

(** C7. Whatever calls make and change the batches, the put set and the

    delete set of every batch have no key in common; [put(k,v1)],

    [put(k,v2)], [delete(k)] leave [k] in the delete set only, and

    [delete(k)], [put(k,v)] leave it in the put set only, with value

    [v]. *)

Theorem batch_sets_disjoint :
  (forall cs b B, run_calls [] cs !! b = Some B -> disjoint B)
  /\ (forall σ b B k v1 v2,
        σ !! b = Some B -> _private B = false ->
        exists B', run_calls σ [CallPut b k v1; CallPut b k v2; CallDelete b k]
                     !! b = Some B'
                   /\ k ∈ _deletes B' /\ _puts B' !! k = None)
  /\ (forall σ b B k v,
        σ !! b = Some B -> _private B = false ->
        exists B', run_calls σ [CallDelete b k; CallPut b k v] !! b = Some B'
                   /\ _puts B' !! k = Some v /\ k ∉ _deletes B').
Proof.
  split; [|split].
  - intros cs b B Hb.
    pose proof (run_calls_disjoint cs [] (Forall_nil_2 _)) as H.
    rewrite Forall_forall in H. apply H. by eapply list_elem_of_lookup_2.
  - intros σ b B k v1 v2 Hb Hpub.
    pose proof (lookup_lt_Some _ _ _ Hb) as Hlt.
    unfold run_calls. cbn [foldl run_call].
    rewrite (put_public _ _ _ _ _ Hb Hpub). cbn [snd].
    erewrite put_public; [|by apply list_lookup_insert_eq|done]. cbn [snd].
    erewrite delete_public;
      [|apply list_lookup_insert_eq; by rewrite length_insert|done].
    cbn [snd]. rewrite list_lookup_insert_eq by (by rewrite !length_insert).
    eexists. split; [done|]. simpl. split; [set_solver|].
    apply lookup_delete_eq.
  - intros σ b B k v Hb Hpub.
    pose proof (lookup_lt_Some _ _ _ Hb) as Hlt.
    unfold run_calls. cbn [foldl run_call].
    rewrite (delete_public _ _ _ _ Hb Hpub). cbn [snd].
    erewrite put_public; [|by apply list_lookup_insert_eq|done]. cbn [snd].
    rewrite list_lookup_insert_eq by (by rewrite !length_insert).
    eexists. split; [done|]. simpl. split; [apply lookup_insert_eq|].
    set_solver.
Qed.

Lemma batch_sets_disjoint_witness :
  exists B',
    run_calls [mk ∅ ∅ false]
      [CallPut 0 (str "k") (str "v1"); CallPut 0 (str "k") (str "v2");
       CallDelete 0 (str "k")] !! 0 = Some B'
    /\ str "k" ∈ _deletes B' /\ _puts B' !! str "k" = None.
Proof.
  exact (proj1 (proj2 batch_sets_disjoint) [mk ∅ ∅ false] 0 (mk ∅ ∅ false)
           (str "k") (str "v1") (str "v2") eq_refl eq_refl).
Defined.

End Batches.

Section Handles.

Import DBInterface.

Implicit Types (σ : WriteBatch.store) (B : WriteBatch.t) (db : DBInterface.t).

(** A batch from another handle's [newBatch] is accepted. *)
(** C5, as stated, fails: a batch made by the [newBatch()] of one handle is
    accepted by [putTo] of another handle, which changes it. *)
Lemma putTo_foreign_batch_accepted :
  let db := mk 0 (Some ["a"%byte; "/"%byte]) false false false true in
  let other := mk 0 (Some ["b"%byte; "/"%byte]) false false false true in
  let '(batch, σ) := newBatch other [] in
  other <> db
  /\ putTo db batch ["k"%byte] ["v"%byte] σ
     = (Ok (),
        [WriteBatch.mk {[ ["a"%byte; "/"%byte; "k"%byte] := ["v"%byte] ]}
                       ∅ true])
  /\ (putTo db batch ["k"%byte] ["v"%byte] σ).2 <> σ.
Proof.
  simpl. split; [done|]. split.
  - unfold putTo. simpl. by repeat f_equal.
  - intros H.
    apply (f_equal (fun σ => b ← head σ;
                             WriteBatch._puts b
                               !! ["a"%byte; "/"%byte; "k"%byte])) in H.
    by vm_compute in H.
Qed.

(** C5, amended. [putTo] and [deleteFrom] on a batch that is not private (a

    stand-alone [WriteBatch]) raise [ValueError] and leave the batch store

    as it was; on a private batch, whichever handle's [newBatch()] made it,

    they succeed and record the key with the calling handle's prefix put in

    front.  [newBatch()] of any handle makes a private batch, [WriteBatch()]

    one that is not. *)

Theorem putTo_deleteFrom_private db σ batch B key val :
  σ !! batch = Some B ->
  (WriteBatch._private B = false ->
     putTo db batch key val σ = (Raise ValueError, σ)
     /\ deleteFrom db batch key σ = (Raise ValueError, σ))
  /\ (WriteBatch._private B = true ->
        putTo db batch key val σ
        = (Ok (),
           <[batch := WriteBatch.mk
                        (<[translate db key := val]> (WriteBatch._puts B))
                        (WriteBatch._deletes B ∖ {[translate db key]})
                        true]> σ)
        /\ deleteFrom db batch key σ
           = (Ok (),
              <[batch := WriteBatch.mk
                           (delete (translate db key) (WriteBatch._puts B))
                           (WriteBatch._deletes B ∪ {[translate db key]})
                           true]> σ))
  /\ (forall other, (newBatch other σ).2 !! (newBatch other σ).1
                    = Some (WriteBatch.mk ∅ ∅ true))
  /\ (WriteBatch.new σ).2 !! (WriteBatch.new σ).1
     = Some (WriteBatch.mk ∅ ∅ false).
Proof.
  intros Hb. unfold putTo, deleteFrom. rewrite Hb.
  split; [|split; [|split]].
  - by intros ->.
  - by intros ->.
  - intros other. simpl. by rewrite lookup_app_r, Nat.sub_diag.
  - simpl. by rewrite lookup_app_r, Nat.sub_diag.
Qed.

(** C6. [write] of a stand-alone batch through a handle with a prefix

    passes to the engine a new batch whose put keys and delete keys are

    those of the given batch with the prefix put in front, and leaves the

    given batch, and every other batch there was, unchanged. *)

Theorem write_translated_copy db prefix σ batch B sync :
  _prefix db = Some prefix ->
  σ !! batch = Some B ->
  WriteBatch._private B = false ->
  exists σ',
    write db batch sync σ
    = (Ok (mkWrite (length σ) (default (_default_sync db) sync)), σ')
    /\ σ' !! length σ
       = Some (WriteBatch.mk (kmap (app prefix) (WriteBatch._puts B))
                             (set_map (app prefix) (WriteBatch._deletes B))
                             true)
    /\ (forall key val,
          (kmap (app prefix) (WriteBatch._puts B) : gmap bytes bytes)
            !! key = Some val
          <-> exists k, key = prefix ++ k /\ WriteBatch._puts B !! k = Some val)
    /\ (forall key,
          key ∈ (set_map (app prefix) (WriteBatch._deletes B) : gset bytes)
          <-> exists k, key = prefix ++ k /\ k ∈ WriteBatch._deletes B)
    /\ σ' !! batch = Some B
    /\ (forall b, b < length σ -> σ' !! b = σ !! b).
Proof.
  intros Hp Hb Hpub. unfold write. rewrite Hb, Hp, Hpub. simpl.
  rewrite translated_puts, translated_deletes.
  pose proof (lookup_lt_Some _ _ _ Hb) as Hlt.
  eexists. split; [done|]. split; [|split; [|split; [|split]]].
  - rewrite list_lookup_insert_eq; [done|]. rewrite length_app. simpl. lia.
  - intros key val. apply lookup_kmap_Some, _.
  - intros key. apply elem_of_map.
  - rewrite list_lookup_insert_ne by lia. by rewrite lookup_app_l.
  - intros b Hlen. rewrite list_lookup_insert_ne by lia.
    by rewrite lookup_app_l.
Qed.

(** C8. A handle made by [scope] shares the guard of the handle it comes

    from, and its [close] leaves the heap as it is; a [close] that changes

    the heap is the one of a handle that may close, which closes its guard;

    the handles made by [_makeDBFromImpl] and by [snapshot] may close. *)

Theorem scope_close_noop db prefix default_sync default_verify_checksums
    default_fill_cache fuel h :
  let s := scope db prefix default_sync default_verify_checksums
             default_fill_cache in
  _impl s = _impl db
  /\ close fuel s h = Some h
  /\ (forall db' h', close fuel db' h = Some h' -> h' <> h ->
                     _allow_close db' = true
                     /\ MemorySafety.close fuel (_impl db') h = Some h')
  /\ (forall impl ds dv df,
        _allow_close (_makeDBFromImpl impl ds dv df h).1 = true)
  /\ (forall ds dv df snap h',
        snapshot db ds dv df h = Ok (snap, h') -> _allow_close snap = true).
Proof.
  simpl. split; [done|]. split; [done|]. split; [|split].
  - intros db' h'. unfold close. destruct (_allow_close db'); [done|].
    by intros [= ->].
  - done.
  - intros ds dv df snap h'. unfold snapshot.
    destruct (native_child _ _) as [[r h1]|]; simpl; [|done].
    destruct (MemorySafety.addReferrer _ _ _); simpl; [|done].
    by intros [= <- _].
Qed.

Lemma putTo_deleteFrom_private_witness :
  let '(batch, σ) := WriteBatch.new [] in
  putTo sample_db batch (str "k") (str "v") σ = (Raise ValueError, σ)
  /\ deleteFrom sample_db batch (str "k") σ = (Raise ValueError, σ).
Proof.
  exact (proj1 (putTo_deleteFrom_private sample_db
                  [WriteBatch.mk ∅ ∅ false] 0 (WriteBatch.mk ∅ ∅ false)
                  (str "k") (str "v") eq_refl) eq_refl).
Defined.

Lemma write_translated_copy_witness :
  let B := WriteBatch.mk {[ str "k" := str "v" ]} {[ str "d" ]} false in
  exists σ',
    write sample_db 0 None [B] = (Ok (mkWrite 1 false), σ')
    /\ σ' !! 0 = Some B
    /\ σ' !! 1
       = Some (WriteBatch.mk (kmap (app (str "ns/")) (WriteBatch._puts B))
                 (set_map (app (str "ns/")) (WriteBatch._deletes B))
                 true).
Proof.
  destruct (write_translated_copy sample_db (str "ns/")
              [WriteBatch.mk {[ str "k" := str "v" ]} {[ str "d" ]} false]
              0 (WriteBatch.mk {[ str "k" := str "v" ]} {[ str "d" ]} false)
              None eq_refl eq_refl eq_refl)
    as (σ' & Hw & Hu & _ & _ & Hb & _).
  exists σ'. split; [exact Hw|]. split; [exact Hb|exact Hu].
Defined.

Lemma scope_close_noop_witness :
  close 6 (scope sample_db (str "sub/") None None None) sample_heap
  = Some sample_heap.
Proof.
  exact (proj1 (proj2 (scope_close_noop sample_db (str "sub/") None None
                         None 6 sample_heap))).
Defined.

End Handles.

Section Derived.

Import DBInterface.

Lemma dict_add_elem k keys : k ∈ MemorySafety.dict_add k keys.
Proof.
  unfold MemorySafety.dict_add. case_bool_decide; [done|].
  apply elem_of_app. right. by left.
Qed.

Lemma iterator_effect (db : t) verify_checksums fill_cache prefix
    keys_only h it h' :
  iterator db verify_checksums fill_cache prefix keys_only h = Ok (it, h') ->
  Iterator._prefix it
    = match _prefix db, prefix with
      | Some orig_prefix, Some prefix => Some (orig_prefix ++ prefix)
      | Some orig_prefix, None => Some orig_prefix
      | None, _ => prefix
      end
  /\ Iterator._keys_only it = keys_only
  /\ Iterator._impl it <> _impl db
  /\ MemorySafety.live (Iterator._impl it) h'
     = Some (MemorySafety.mk (Some (MemorySafety.natives h)) (Some []))
  /\ exists g rs,
       MemorySafety.live (_impl db) h' = Some g
       /\ MemorySafety._referrers g = Some rs
       /\ Iterator._impl it ∈ rs.
Proof.
  unfold iterator, native_child.
  destruct (MemorySafety.live (_impl db) h) as [g|] eqn:Hg; [|done].
  simpl. destruct (MemorySafety.ref g) as [r|] eqn:Hr; [|done].
  cbn [mbind result_bind]. unfold MemorySafety.new. simpl.
  unfold MemorySafety.addReferrer.
  apply live_Some in Hg.
  pose proof (lookup_lt_Some _ _ _ Hg) as Hlt.
  unfold MemorySafety.live at 1. simpl.
  rewrite lookup_app_l by done. rewrite Hg. simpl.
  destruct (MemorySafety._referrers g) as [rs|] eqn:Hrs; [|done].
  simpl. intros [= <- <-]. simpl.
  split; [by destruct (_prefix db), prefix|]. split; [done|].
  split; [lia|]. split.
  - unfold MemorySafety.live. simpl.
    rewrite list_lookup_insert_ne by lia.
    by rewrite lookup_app_r, Nat.sub_diag.
  - exists (MemorySafety.mk (MemorySafety.ref g)
              (Some (MemorySafety.dict_add (length (MemorySafety.objs h))
                       rs))),
      (MemorySafety.dict_add (length (MemorySafety.objs h)) rs).
    split; [|split; [done|apply dict_add_elem]].
    unfold MemorySafety.live. simpl.
    rewrite list_lookup_insert_eq; [done|]. rewrite length_app. lia.
Qed.

End Derived.

Section Lifetime.

Import MemorySafety.

Implicit Types (h : heap) (g : t) (a b d r : nat).

Lemma held_new r h : held (new r h).2 = held h ++ [r].
Proof. unfold held, new. simpl. by rewrite omap_app. Qed.

Lemma held_store_same a g g' h :
  live a h = Some g -> ref g' = ref g -> held (store a g' h) = held h.
Proof.
  intros Ha%live_Some Href. unfold held, store. simpl.
  rewrite insert_take_drop by (by eapply lookup_lt_Some).
  rewrite <- (take_drop_middle _ _ _ Ha) at 3.
  rewrite !omap_app. simpl. by rewrite Href.
Qed.

Lemma held_unset a h :
  (forall g, live a h = Some g -> ref g = None) ->
  omap (fun o => o ≫= ref) (<[a := None]> (objs h)) = held h.
Proof.
  intros Hclosed. unfold held.
  destruct (objs h !! a) as [o|] eqn:Ha.
  - rewrite insert_take_drop by (by eapply lookup_lt_Some).
    rewrite <- (take_drop_middle _ _ _ Ha) at 3.
    rewrite !omap_app. simpl. destruct o as [g|]; simpl; [|done].
    rewrite (Hclosed g); [done|]. by apply live_Some.
  - by rewrite list_insert_ge by (by apply lookup_ge_None).
Qed.

Lemma for_each_more {A S : Type} (f f' : A -> S -> option S) l :
  (forall x s s', f x s = Some s' -> f' x s = Some s') ->
  forall s s', for_each f l s = Some s' -> for_each f' l s = Some s'.
Proof.
  intros Hf. induction l as [|x l IH]; intros s s'; [done|].
  cbn [for_each]. destruct (f x s) as [s1|] eqn:E; [|done].
  rewrite (Hf _ _ _ E). simpl. apply IH.
Qed.

(** More fuel does not change what [close] returns. *)
Lemma close_more_fuel fuel : forall a h h',
  close fuel a h = Some h' -> close (S fuel) a h = Some h'.
Proof.
  induction fuel as [|fuel IH]; intros a h h'; [done|].
  rewrite !close_unfold. destruct (live a h) as [g|]; [|done].
  destruct (_referrers g) as [rs|]; [|done].
  destruct (for_each (body fuel) rs _) as [h2|] eqn:E; [|done].
  assert (forall x s s', body fuel x s = Some s' ->
                         body (S fuel) x s = Some s') as Hbody.
  { intros b s s'. unfold body. destruct (live b s); [apply IH|done]. }
  by rewrite (for_each_more _ _ _ Hbody _ _ E).
Qed.

Lemma close_enough_fuel fuel fuel' a h h' :
  close fuel a h = Some h' -> close (fuel + fuel') a h = Some h'.
Proof.
  intros H. induction fuel' as [|fuel' IH].
  - by rewrite Nat.add_0_r.
  - rewrite Nat.add_succ_r. by apply close_more_fuel.
Qed.

(** What [close] returns is what [close_spec] describes, whatever the
    fuel. *)
Lemma close_evolves fuel a h h' :
  close fuel a h = Some h' ->
  evolves h h' /\ (is_Some (live a h) -> live a h' = Some closed).
Proof.
  intros Hclose.
  destruct (close_spec (fuel + S (opens h)) a h) as (h2 & Hc & Hev & Hcl & _);
    [lia|].
  rewrite (close_enough_fuel _ _ _ _ _ Hclose) in Hc. by injection Hc as <-.
Qed.

Lemma tidy_close fuel a h h' :
  close fuel a h = Some h' -> tidy h -> tidy h'.
Proof.
  intros Hclose [Hnd Hlt].
  destruct (close_evolves _ _ _ _ Hclose) as [Hev _].
  destruct Hev as [N _ _ (new & R & P)].
  assert (held h' ++ released h' ≡ₚ held h ++ released h) as Hperm.
  { rewrite R, P, <- !app_assoc. apply Permutation_app_head.
    apply Permutation_app_comm. }
  split.
  - by rewrite Hperm.
  - rewrite Hperm, N. done.
Qed.

Lemma tidy_new r h :
  r ∉ held h ++ released h -> r < natives h -> tidy h -> tidy (new r h).2.
Proof.
  intros Hfresh Hr [Hnd Hlt]. unfold tidy. rewrite held_new.
  change (released (new r h).2) with (released h).
  change (natives (new r h).2) with (natives h).
  assert ((held h ++ [r]) ++ released h ≡ₚ r :: held h ++ released h) as ->.
  { rewrite <- app_assoc. simpl. symmetry. apply Permutation_middle. }
  split; [by constructor|by constructor].
Qed.

Lemma tidy_addReferrer a d h h' :
  addReferrer a d h = Ok h' -> tidy h -> tidy h'.
Proof.
  unfold addReferrer. destruct (live a h) as [g|] eqn:Ha; [|done].
  destruct (_referrers g) as [rs|]; [|done]. intros [= <-] [Hnd Hlt].
  unfold tidy. rewrite (held_store_same _ _ _ _ Ha) by done. done.
Qed.

Lemma tidy_child (impl : nat) h r h1 it h2 h' :
  DBInterface.native_child impl h = Ok (r, h1) ->
  new r h1 = (it, h2) ->
  addReferrer impl it h2 = Ok h' ->
  tidy h -> tidy h'.
Proof.
  unfold DBInterface.native_child.
  destruct (live impl h ≫= ref); [|done]. intros [= <- <-] Hnew Hadd [Hnd Hlt].
  apply (tidy_addReferrer _ _ _ _ Hadd).
  replace h2 with (new (natives h) (mkHeap (objs h) (released h)
                                      (S (natives h)))).2
    by (by rewrite Hnew).
  apply tidy_new.
  - intros Hin. rewrite Forall_forall in Hlt. apply Hlt in Hin. lia.
  - simpl. lia.
  - split; [done|]. eapply Forall_impl; [exact Hlt|]. simpl. lia.
Qed.

Lemma reachable_tidy h : reachable h -> tidy h.
Proof.
  induction 1 as [n|impl ds dv df h _ IH Hlt Hfresh
                  |db vc fc p ko h it h' _ IH Hit
                  |db ds dv df h snap h' _ IH Hsnap
                  |fuel a h h' _ IH Hclose
                  |fuel a h h' _ IH Hdel].
  - split; [apply NoDup_nil_2|constructor].
  - unfold DBInterface._makeDBFromImpl.
    destruct (new impl h) as [g h1] eqn:Hnew. simpl.
    replace h1 with (new impl h).2 by (by rewrite Hnew).
    by apply tidy_new.
  - unfold DBInterface.iterator in Hit.
    destruct (DBInterface.native_child _ h) as [[r h1]|] eqn:Hch; [|done].
    cbn [mbind result_bind] in Hit.
    destruct (new r h1) as [g h2] eqn:Hnew.
    destruct (addReferrer _ g h2) as [h3|] eqn:Hadd; [|done].
    cbn [mbind result_bind] in Hit. injection Hit as _ <-.
    by eapply tidy_child.
  - unfold DBInterface.snapshot in Hsnap.
    destruct (DBInterface.native_child _ h) as [[r h1]|] eqn:Hch; [|done].
    cbn [mbind result_bind] in Hsnap.
    destruct (new r h1) as [g h2] eqn:Hnew.
    destruct (addReferrer _ g h2) as [h3|] eqn:Hadd; [|done].
    cbn [mbind result_bind] in Hsnap. injection Hsnap as _ <-.
    by eapply tidy_child.
  - by eapply tidy_close.
  - unfold MemorySafety_del in Hdel.
    destruct (close fuel a h) as [h1|] eqn:Hclose; [|done].
    simpl in Hdel. injection Hdel as <-.
    pose proof (tidy_close _ _ _ _ Hclose IH) as [Hnd Hlt].
    destruct (close_evolves _ _ _ _ Hclose) as [Hev Hcl].
    unfold tidy, held. simpl. fold (held h1).
    rewrite held_unset; [done|].
    intros g Hg. destruct (ev_live _ _ Hev a) as [E|[_ E]].
    + rewrite Hcl in Hg; [by injection Hg as <-|]. rewrite <- E. eauto.
    + rewrite E in Hg. by injection Hg as <-.
Qed.

(** Over every heap the calls lead to, no native resource has been
    released twice, and none that was released is still held by a guard. *)
Theorem no_double_release (h : heap) :
  reachable h ->
  NoDup (released h) /\ forall r, r ∈ released h -> r ∉ held h.
Proof.
  intros [Hnd _]%reachable_tidy. apply NoDup_app in Hnd as (_ & Hdisj & Hrel).
  split; [done|]. intros r Hr Hh. by apply (Hdisj r).
Qed.

Lemma close_leaf fuel a g h :
  live a h = Some g -> _referrers g = Some [] ->
  exists h',
    close (S fuel) a h = Some h'
    /\ live a h' = Some closed
    /\ released h' = released h ++ option_list (ref g)
    /\ natives h' = natives h
    /\ forall b, b <> a -> live b h' = live b h.
Proof.
  intros Ha Hrs. rewrite close_unfold, Ha, Hrs. cbn [for_each mbind option_bind].
  destruct (ref g) as [r|]; eexists; (split; [done|]); simpl.
  - split; [by eapply live_store_eq|]. split; [done|]. split; [done|].
    intros b Hb. unfold live. simpl. by rewrite list_lookup_insert_ne.
  - split; [by eapply live_store_eq|]. split; [by rewrite app_nil_r|].
    split; [done|]. intros b Hb. by apply live_store_ne.
Qed.

(** What [iterator] and [snapshot] do to the heap: a new resource in a new
    guard, which the handle's guard gets as a referrer. *)
Lemma child_effect (impl : nat) h r h1 it h2 h' :
  DBInterface.native_child impl h = Ok (r, h1) ->
  new r h1 = (it, h2) ->
  addReferrer impl it h2 = Ok h' ->
  r = natives h /\ it = length (objs h) /\ it <> impl
  /\ live it h' = Some (mk (Some r) (Some []))
  /\ released h' = released h
  /\ (exists g rs, live impl h = Some g /\ _referrers g = Some rs
                   /\ live impl h'
                      = Some (mk (ref g) (Some (dict_add it rs))))
  /\ forall b, b <> impl -> b <> it -> live b h' = live b h.
Proof.
  unfold DBInterface.native_child.
  destruct (live impl h) as [g|] eqn:Hg; [|done]. simpl.
  destruct (ref g) as [r0|] eqn:Hr; [|done]. intros [= <- <-].
  unfold new. simpl. intros [= <- <-]. unfold addReferrer.
  apply live_Some in Hg. pose proof (lookup_lt_Some _ _ _ Hg) as Hlt.
  unfold live at 1. simpl. rewrite lookup_app_l by done. rewrite Hg. simpl.
  destruct (_referrers g) as [rs|] eqn:Hrs; [|done]. intros [= <-].
  split; [done|]. split; [done|]. split; [lia|]. split; [|split; [done|split]].
  - unfold live. simpl. rewrite list_lookup_insert_ne by lia.
    by rewrite lookup_app_r, Nat.sub_diag.
  - exists g, rs. split; [done|]. split; [done|].
    unfold live. simpl. rewrite list_lookup_insert_eq; [by rewrite Hr|].
    rewrite length_app. lia.
  - intros b Hb Hb'. unfold live. simpl.
    rewrite list_lookup_insert_ne by done.
    destruct (decide (b < length (objs h))).
    + by rewrite lookup_app_l.
    + rewrite !lookup_ge_None_2; [done|lia|]. rewrite length_app. simpl. lia.
Qed.

Lemma snapshot_effect db ds dv df h snap h' :
  DBInterface.snapshot db ds dv df h = Ok (snap, h') ->
  snap = DBInterface.mk (length (objs h)) (DBInterface._prefix db) true
           (default (DBInterface._default_sync db) ds)
           (default (DBInterface._default_verify_checksums db) dv)
           (default (DBInterface._default_fill_cache db) df)
  /\ exists r h1 h2, DBInterface.native_child (DBInterface._impl db) h
                     = Ok (r, h1)
                     /\ new r h1 = (length (objs h), h2)
                     /\ addReferrer (DBInterface._impl db) (length (objs h)) h2
                        = Ok h'.
Proof.
  unfold DBInterface.snapshot.
  destruct (DBInterface.native_child _ h) as [[r h1]|] eqn:Hch; [|done].
  cbn [mbind result_bind].
  destruct (new r h1) as [g h2] eqn:Hnew.
  destruct (addReferrer _ g h2) as [h3|] eqn:Hadd; [|done].
  cbn [mbind result_bind]. intros [= <- <-].
  destruct (child_effect _ _ _ _ _ _ _ Hch Hnew Hadd) as (_ & -> & _).
  split; [done|]. by exists r, h1, h2.
Qed.

Lemma iterator_parts db vc fc p ko h it h' :
  DBInterface.iterator db vc fc p ko h = Ok (it, h') ->
  Iterator._impl it = length (objs h)
  /\ exists r h1 h2, DBInterface.native_child (DBInterface._impl db) h
                     = Ok (r, h1)
                     /\ new r h1 = (length (objs h), h2)
                     /\ addReferrer (DBInterface._impl db) (length (objs h)) h2
                        = Ok h'.
Proof.
  unfold DBInterface.iterator.
  destruct (DBInterface.native_child _ h) as [[r h1]|] eqn:Hch; [|done].
  cbn [mbind result_bind].
  destruct (new r h1) as [g h2] eqn:Hnew.
  destruct (addReferrer _ g h2) as [h3|] eqn:Hadd; [|done].
  cbn [mbind result_bind]. intros [= <- <-].
  destruct (child_effect _ _ _ _ _ _ _ Hch Hnew Hadd) as (_ & -> & _).
  split; [done|]. by exists r, h1, h2.
Qed.

(** A snapshot is a handle of its own: it has the prefix of the handle it
    was taken through and that handle's defaults where none is given, and
    its [close] closes its guard and releases its resource, the one new
    entry of the log, leaving every other guard as it was. *)
Theorem snapshot_closes_alone (db : DBInterface.t) default_sync
    default_verify_checksums default_fill_cache h snap h' fuel :
  DBInterface.snapshot db default_sync default_verify_checksums
    default_fill_cache h = Ok (snap, h') ->
  DBInterface._prefix snap = DBInterface._prefix db
  /\ DBInterface._default_sync snap
     = default (DBInterface._default_sync db) default_sync
  /\ DBInterface._default_verify_checksums snap
     = default (DBInterface._default_verify_checksums db)
         default_verify_checksums
  /\ DBInterface._default_fill_cache snap
     = default (DBInterface._default_fill_cache db) default_fill_cache
  /\ DBInterface._impl snap <> DBInterface._impl db
  /\ exists h'',
       DBInterface.close (S fuel) snap h' = Some h''
       /\ live (DBInterface._impl snap) h'' = Some closed
       /\ released h'' = released h' ++ [natives h]
       /\ forall a, a <> DBInterface._impl snap -> live a h'' = live a h'.
Proof.
  intros Hsnap.
  destruct (snapshot_effect _ _ _ _ _ _ _ Hsnap)
    as (-> & r & h1 & h2 & Hch & Hnew & Hadd).
  destruct (child_effect _ _ _ _ _ _ _ Hch Hnew Hadd)
    as (-> & _ & Hne & Hlive & _).
  simpl. do 4 (split; [done|]). split; [done|].
  destruct (close_leaf fuel _ _ _ Hlive eq_refl)
    as (h'' & Hclose & Hc & Hrel & _ & Hother).
  exists h''. unfold DBInterface.close. simpl. done.
Qed.

(** [Iterator.close] closes the iterator's guard and releases its cursor,
    the one new entry of the log, leaving every other guard, the handle's
    among them, as it was. *)
Theorem iterator_closes_alone (db : DBInterface.t) verify_checksums
    fill_cache prefix keys_only h it h' fuel :
  DBInterface.iterator db verify_checksums fill_cache prefix keys_only h
  = Ok (it, h') ->
  Iterator._impl it <> DBInterface._impl db
  /\ exists h'',
       Iterator_close (S fuel) it h' = Some h''
       /\ live (Iterator._impl it) h'' = Some closed
       /\ released h'' = released h' ++ [natives h]
       /\ forall a, a <> Iterator._impl it -> live a h'' = live a h'.
Proof.
  intros Hit.
  destruct (iterator_parts _ _ _ _ _ _ _ _ Hit)
    as (Himpl & r & h1 & h2 & Hch & Hnew & Hadd).
  destruct (child_effect _ _ _ _ _ _ _ Hch Hnew Hadd)
    as (-> & _ & Hne & Hlive & _).
  rewrite Himpl. split; [done|].
  destruct (close_leaf fuel _ _ _ Hlive eq_refl)
    as (h'' & Hclose & Hc & Hrel & _ & Hother).
  exists h''. unfold Iterator_close. rewrite Himpl. done.
Qed.

(** Once a handle that may close has closed, every handle on its guard
    refuses to make iterators and snapshots, the guard takes no referrer,
    and closing again changes nothing. *)
Theorem closed_handle_refuses (db : DBInterface.t) fuel h :
  DBInterface._allow_close db = true ->
  is_Some (live (DBInterface._impl db) h) ->
  opens h < fuel ->
  exists h',
    DBInterface.close fuel db h = Some h'
    /\ forall s, DBInterface._impl s = DBInterface._impl db ->
         (forall verify_checksums fill_cache prefix keys_only,
            DBInterface.iterator s verify_checksums fill_cache prefix
              keys_only h' = Raise AttributeError)
         /\ (forall default_sync default_verify_checksums default_fill_cache,
               DBInterface.snapshot s default_sync default_verify_checksums
                 default_fill_cache h' = Raise AttributeError)
         /\ (forall referrer,
               addReferrer (DBInterface._impl s) referrer h'
               = Raise AlreadyClosed)
         /\ DBInterface.close fuel s h' = Some h'.
Proof.
  intros Hown Hlive Hfuel. unfold DBInterface.close at 1. rewrite Hown.
  destruct (close_spec fuel (DBInterface._impl db) h Hfuel)
    as (h' & Hclose & _ & Hc & _).
  specialize (Hc Hlive). exists h'. split; [done|]. intros s Hs.
  split; [|split; [|split]].
  - intros. unfold DBInterface.iterator, DBInterface.native_child.
    by rewrite Hs, Hc.
  - intros. unfold DBInterface.snapshot, DBInterface.native_child.
    by rewrite Hs, Hc.
  - intros. unfold addReferrer. by rewrite Hs, Hc.
  - unfold DBInterface.close. destruct (DBInterface._allow_close s); [|done].
    rewrite Hs. destruct fuel as [|fuel]; [lia|]. by apply close_closed.
Qed.

Lemma no_double_release_witness :
  NoDup (released sample_session)
  /\ forall r, r ∈ released sample_session -> r ∉ held sample_session.
Proof.
  apply no_double_release.
  apply (reach_close 3 0 with_iterator); [|reflexivity].
  apply (reach_iterator opened.1 None None None false opened.2
           (Iterator.mk 1 None false)); [|reflexivity].
  apply (reach_open 0 false false true (mkHeap [] [] 1)).
  - apply reach_empty.
  - simpl. lia.
  - simpl. apply not_elem_of_nil.
Defined.

Lemma snapshot_closes_alone_witness :
  let snap := sample_snapshot.1 in
  let h' := sample_snapshot.2 in
  DBInterface._prefix snap = DBInterface._prefix sample_db
  /\ DBInterface._default_sync snap
     = default (DBInterface._default_sync sample_db) None
  /\ DBInterface._default_verify_checksums snap
     = default (DBInterface._default_verify_checksums sample_db) None
  /\ DBInterface._default_fill_cache snap
     = default (DBInterface._default_fill_cache sample_db) None
  /\ DBInterface._impl snap <> DBInterface._impl sample_db
  /\ exists h'',
       DBInterface.close 1 snap h' = Some h''
       /\ live (DBInterface._impl snap) h'' = Some closed
       /\ released h'' = released h' ++ [natives sample_heap]
       /\ forall a, a <> DBInterface._impl snap -> live a h'' = live a h'.
Proof.
  apply (snapshot_closes_alone sample_db None None None sample_heap
           sample_snapshot.1 sample_snapshot.2 0).
  reflexivity.
Defined.

Lemma iterator_closes_alone_witness :
  let it := sample_iterator.1 in
  let h' := sample_iterator.2 in
  Iterator._impl it <> DBInterface._impl sample_db
  /\ exists h'',
       Iterator_close 1 it h' = Some h''
       /\ live (Iterator._impl it) h'' = Some closed
       /\ released h'' = released h' ++ [natives sample_heap]
       /\ forall a, a <> Iterator._impl it -> live a h'' = live a h'.
Proof.
  apply (iterator_closes_alone sample_db None None None false sample_heap
           sample_iterator.1 sample_iterator.2 0).
  reflexivity.
Defined.

Lemma closed_handle_refuses_witness :
  exists h',
    DBInterface.close 6 sample_db sample_heap = Some h'
    /\ forall s, DBInterface._impl s = DBInterface._impl sample_db ->
         (forall verify_checksums fill_cache prefix keys_only,
            DBInterface.iterator s verify_checksums fill_cache prefix
              keys_only h' = Raise AttributeError)
         /\ (forall default_sync default_verify_checksums default_fill_cache,
               DBInterface.snapshot s default_sync default_verify_checksums
                 default_fill_cache h' = Raise AttributeError)
         /\ (forall referrer,
               addReferrer (DBInterface._impl s) referrer h'
               = Raise AlreadyClosed)
         /\ DBInterface.close 6 s h' = Some h'.
Proof.
  apply (closed_handle_refuses sample_db 6 sample_heap).
  - reflexivity.
  - eexists. reflexivity.
  - vm_compute. lia.
Defined.

End Lifetime.

Section Cascade.

Import MemorySafety.

Implicit Types (h : heap) (g : t) (a b d : nat).

Lemma evolves_stays_live h h' x : evolves h h' -> is_Some (live x h) ->
  is_Some (live x h').
Proof. intros Hev Hx. destruct (ev_live _ _ Hev x) as [->|[_ ->]]; eauto. Qed.

Lemma evolves_stays_closed h h' x :
  evolves h h' -> live x h = Some closed -> live x h' = Some closed.
Proof. intros Hev Hx. by destruct (ev_live _ _ Hev x) as [->|[_ ->]]. Qed.

Lemma downward_refl h : downward h h.
Proof. intros x g rs y Hx Hrs Hc. rewrite Hx in Hc. by injection Hc as ->. Qed.

Lemma downward_trans h1 h2 h3 :
  evolves h1 h2 -> evolves h2 h3 -> downward h1 h2 -> downward h2 h3 ->
  downward h1 h3.
Proof.
  intros E1 E2 D1 D2 x g rs y Hx Hrs Hc Hy Hlive.
  destruct (ev_live _ _ E1 x) as [Hsame|[_ Hclosed]].
  - apply (D2 x g rs y); [congruence|done|done|done|].
    by eapply evolves_stays_live.
  - eapply evolves_stays_closed; [done|]. by apply (D1 x g rs y).
Qed.

Lemma for_each_downward fuel rs : forall h h',
  (forall b s s', close fuel b s = Some s' -> downward s s') ->
  for_each (body fuel) rs h = Some h' ->
  evolves h h' /\ downward h h'.
Proof.
  induction rs as [|r rs IH]; intros h h' Hclose.
  { intros [= <-]. split; [apply evolves_refl|apply downward_refl]. }
  cbn [for_each]. destruct (body fuel r h) as [h1|] eqn:Hb; [|done]. simpl.
  intros Hrest. destruct (IH _ _ Hclose Hrest) as [E2 D2].
  assert (evolves h h1 /\ downward h h1) as [E1 D1].
  { unfold body in Hb. destruct (live r h).
    - split; [by eapply close_evolves|by eapply Hclose].
    - injection Hb as <-. split; [apply evolves_refl|apply downward_refl]. }
  split; [by eapply evolves_trans|by eapply downward_trans].
Qed.

Lemma close_referrers fuel a h h' g rs d :
  close fuel a h = Some h' -> live a h = Some g -> _referrers g = Some rs ->
  d ∈ rs -> is_Some (live d h) -> live d h' = Some closed.
Proof.
  intros Hclose.
  destruct (close_spec (fuel + S (opens h)) a h) as (h2 & Hc & _ & _ & Hdeps);
    [lia|].
  rewrite (close_enough_fuel _ _ _ _ _ Hclose) in Hc. injection Hc as <-.
  apply Hdeps.
Qed.

Lemma close_downward fuel : forall a h h',
  close fuel a h = Some h' -> downward h h'.
Proof.
  induction fuel as [|fuel IH]; intros a h h' Hclose; [done|].
  pose proof Hclose as Hclose'.
  rewrite close_unfold in Hclose.
  destruct (live a h) as [g|] eqn:Ha.
  2:{ injection Hclose as <-. apply downward_refl. }
  assert (forall rs d, _referrers g = Some rs -> d ∈ rs ->
            is_Some (live d h) -> live d h' = Some closed) as Hdeps.
  { intros. by eapply close_referrers. }
  destruct (_referrers g) as [rs0|] eqn:Hrs0.
  - destruct (for_each (body fuel) rs0 _) as [h1|] eqn:Hloop; [|done].
    destruct (for_each_downward _ _ _ _ IH Hloop) as [E D].
    assert (forall x, live x h' = live x h1) as Hsame.
    { intros x. simpl in Hclose. destruct (ref g); by injection Hclose as <-. }
    intros x g' rs y Hx Hrs Hc Hy Hlive.
    destruct (decide (x = a)) as [->|Hne].
    + rewrite Ha in Hx. injection Hx as <-. rewrite Hrs0 in Hrs.
      injection Hrs as <-. by apply (Hdeps rs0).
    + rewrite Hsame in *. apply (D x g' rs y); try done.
      * by rewrite live_store_ne.
      * destruct (decide (y = a)) as [->|Hya].
        -- erewrite live_store_eq; eauto.
        -- by rewrite live_store_ne.
  - simpl in Hclose.
    assert (forall x, x <> a -> live x h' = live x h) as Hsame.
    { intros x Hx. destruct (ref g); injection Hclose as <-;
        unfold live; simpl; by rewrite list_lookup_insert_ne. }
    intros x g' rs y Hx Hrs Hc Hy Hlive.
    destruct (decide (x = a)) as [->|Hne]; [congruence|].
    rewrite Hsame, Hx in Hc by done. injection Hc as ->. done.
Qed.

(** The cascade goes all the way down: after [close] on a live guard,
    every guard reached from it through live referrers is closed, a
    snapshot's iterators as well as the snapshot. *)
Theorem close_reaches_descendants (fuel : nat) (a d : nat) (h h' : heap) :
  close fuel a h = Some h' ->
  is_Some (live a h) ->
  descends h a d ->
  live d h' = Some closed.
Proof.
  intros Hclose Hlive Hpath.
  destruct (close_evolves _ _ _ _ Hclose) as [_ Hc]. specialize (Hc Hlive).
  pose proof (close_downward _ _ _ _ Hclose) as Hdown.
  clear Hclose Hlive. induction Hpath as [a|a g rs b d Ha Hrs Hb Hlb _ IH];
    [done|].
  apply IH. by apply (Hdown a g rs b).
Qed.

Lemma close_reaches_descendants_witness :
  close 6 0 sample_heap = Some sample_closed
  /\ live 4 sample_closed = Some closed.
Proof.
  split; [reflexivity|].
  apply (close_reaches_descendants 6 0 4 sample_heap).
  - reflexivity.
  - eexists. reflexivity.
  - apply (descends_step _ 0 (mk (Some 100) (Some [1; 2; 3])) [1; 2; 3] 3 4);
      [reflexivity | reflexivity | repeat constructor
      | eexists; reflexivity |].
    apply (descends_step _ 3 (mk (Some 103) (Some [4])) [4] 4 4);
      [reflexivity | reflexivity | repeat constructor
      | eexists; reflexivity |].
    apply descends_refl.
Defined.

End Cascade.

Section Scans.

Implicit Types (es : list (bytes * bytes)) (e : bytes * bytes).

Lemma seekFirst_window (p : option bytes) es :
  Engine.ascending es = true ->
  take_while (fun e => in_scope p e.1)
    (drop (Engine.lower_bound (scoped p []) es) es)
  = scope_entries p es.
Proof.
  intros Hasc. unfold scope_entries. apply (window (in_scope p)); [done| |].
  - eapply Forall_impl; [apply lower_bound_below|]. simpl. intros e Hlt.
    destruct (in_scope p e.1) eqn:Hin; [|done].
    apply (scoped_lt p [] _ Hin) in Hlt. by destruct (unscoped p e.1).
  - intros e k' He Hin Hlt. apply (in_scope_passed p [] e.1); [|done..].
    pose proof (lower_bound_above (scoped p []) es Hasc) as Hall.
    rewrite Forall_forall in Hall. by apply Hall.
Qed.

Lemma next_at_any (it : Iterator.t) es i e :
  es !! i = Some e ->
  Iterator.next it (cursor_at es i)
  = if in_scope (Iterator._prefix it) e.1
    then Ok (item_of it e, cursor_at es (S i))
    else Raise StopIteration.
Proof.
  intros He. unfold Iterator.next. rewrite valid_at, He. simpl.
  destruct (in_scope _ _); simpl; [|done].
  unfold Iterator.current_item, Iterator.key, Iterator.value, Engine.key,
    Engine.val, Engine.next, item_of, row_of.
  rewrite current_at, He. simpl.
  unfold cursor_at at 1. simpl. rewrite (pos_at _ _ _ He).
  by destruct (Iterator._keys_only it), (Iterator._prefix it).
Qed.

Lemma nexts_at_any (it : Iterator.t) es fuel : forall i,
  length es - i < fuel ->
  Iterator.nexts fuel it (cursor_at es i)
  = (item_of it
       <$> take_while (fun e => in_scope (Iterator._prefix it) e.1)
             (drop i es),
     Some StopIteration).
Proof.
  induction fuel as [|fuel IH]; intros i Hfuel; [lia|].
  simpl. destruct (es !! i) as [e|] eqn:He.
  - rewrite (next_at_any _ _ _ _ He), (drop_S _ _ _ He). simpl.
    destruct (in_scope _ _); [|done].
    rewrite IH; [done|]. apply lookup_lt_Some in He. lia.
  - rewrite (next_off _ _ _ He).
    apply lookup_ge_None in He. by rewrite drop_ge.
Qed.

Lemma keys_at (it : Iterator.t) es fuel : forall i,
  length es - i < fuel ->
  Iterator_keys fuel it (cursor_at es i)
  = ((fun e => unscoped (Iterator._prefix it) e.1)
       <$> take_while (fun e => in_scope (Iterator._prefix it) e.1)
             (drop i es),
     Iterator.Returned).
Proof.
  induction fuel as [|fuel IH]; intros i Hfuel; [lia|].
  cbn [Iterator_keys]. rewrite valid_at.
  destruct (es !! i) as [e|] eqn:He.
  - rewrite (drop_S _ _ _ He). simpl.
    destruct (in_scope _ _); [|done].
    unfold Iterator.key, Engine.key, Iterator.stepForward, Engine.next.
    rewrite current_at, He. simpl.
    assert (match Iterator._prefix it with
            | Some prefix => Ok (drop (length prefix) e.1)
            | None => Ok e.1
            end = Ok (unscoped (Iterator._prefix it) e.1)) as ->.
    { by destruct (Iterator._prefix it). }
    rewrite (pos_at _ _ _ He). fold (cursor_at es (S i)).
    rewrite IH; [done|]. apply lookup_lt_Some in He. lia.
  - apply lookup_ge_None in He. by rewrite drop_ge.
Qed.

Lemma values_at (it : Iterator.t) es fuel : forall i,
  length es - i < fuel ->
  Iterator_values fuel it (cursor_at es i)
  = (snd <$> take_while (fun e => in_scope (Iterator._prefix it) e.1)
               (drop i es),
     Iterator.Returned).
Proof.
  induction fuel as [|fuel IH]; intros i Hfuel; [lia|].
  cbn [Iterator_values]. rewrite valid_at.
  destruct (es !! i) as [e|] eqn:He.
  - rewrite (drop_S _ _ _ He). simpl.
    destruct (in_scope _ _); [|done].
    unfold Iterator.value, Engine.val, Iterator.stepForward, Engine.next.
    rewrite current_at, He. simpl.
    rewrite (pos_at _ _ _ He). fold (cursor_at es (S i)).
    rewrite IH; [done|]. apply lookup_lt_Some in He. lia.
  - apply lookup_ge_None in He. by rewrite drop_ge.
Qed.

(** After [seekFirst], the generators [keys] and [values] yield the keys,
    without the prefix, and the values of exactly the entries under the
    iterator's prefix (of all entries when it has none), in the order of
    the store, and return; whether the iterator is [keys_only] does not
    matter. *)
Theorem keys_values_in_scope (it : Iterator.t) (c : Engine.Cursor)
    (fuel : nat) :
  Engine.ascending (Engine.entries c) = true ->
  length (Engine.entries c) < fuel ->
  Iterator_keys fuel it (Iterator.seekFirst it c)
  = ((fun e => unscoped (Iterator._prefix it) e.1)
       <$> scope_entries (Iterator._prefix it) (Engine.entries c),
     Iterator.Returned)
  /\ Iterator_values fuel it (Iterator.seekFirst it c)
     = (snd <$> scope_entries (Iterator._prefix it) (Engine.entries c),
        Iterator.Returned).
Proof.
  intros Hasc Hfuel. rewrite seekFirst_at.
  rewrite keys_at, values_at by lia. by rewrite seekFirst_window.
Qed.

(** A [keys_only] iterator hands out bare keys: after [seekFirst] the
    [next()] calls yield the keys under the prefix, without it, and then
    raise [StopIteration].  [range] with an end key does not work on such
    an iterator: as soon as there is a first key to test against the end
    key, reading [row.key] raises [AttributeError]. *)
Theorem keys_only_iterator (it : Iterator.t) (c : Engine.Cursor)
    (fuel : nat) :
  Engine.ascending (Engine.entries c) = true ->
  Iterator._keys_only it = true ->
  length (Engine.entries c) < fuel ->
  Iterator.nexts fuel it (Iterator.seekFirst it c)
  = ((fun e => Iterator.AKey (unscoped (Iterator._prefix it) e.1))
       <$> scope_entries (Iterator._prefix it) (Engine.entries c),
     Some StopIteration)
  /\ forall start_key start_inclusive end_key end_inclusive c1,
       Iterator.range_start it start_key start_inclusive c = Ok c1 ->
       Iterator.valid it c1 = Ok true ->
       Iterator.range fuel it start_key (Some end_key) start_inclusive
         end_inclusive c
       = ([], Iterator.Failed AttributeError).
Proof.
  intros Hasc Hko Hfuel. split.
  - rewrite seekFirst_at, nexts_at_any by lia. rewrite seekFirst_window by done.
    f_equal. apply list_fmap_ext. intros _ e _. unfold item_of. by rewrite Hko.
  - intros start_key start_inclusive end_key end_inclusive c1 Hstart Hvalid.
    unfold Iterator.range. rewrite Hstart.
    destruct fuel as [|fuel]; [lia|]. cbn [Iterator.range_loop].
    unfold Iterator.next. rewrite Hvalid. cbn [mbind result_bind negb].
    unfold Iterator.current_item. rewrite Hko.
    rewrite valid_current in Hvalid.
    unfold Iterator.key, Engine.key, Engine.next.
    destruct (Engine.current c1) as [e|] eqn:He; [|done].
    cbn [mbind result_bind].
    unfold Engine.current in He. destruct (Engine.pos c1) as [i|]; [|done].
    by destruct (Iterator._prefix it).
Qed.

Lemma prev_before (it : Iterator.t) es j e :
  es !! j = Some e ->
  Iterator.prev it (before es (S j))
  = if in_scope (Iterator._prefix it) e.1
    then Ok (item_of it e, before es j)
    else Raise StopIteration.
Proof.
  intros He. unfold Iterator.prev. rewrite valid_current.
  unfold Engine.current at 1. simpl. rewrite He.
  cbn [mbind result_bind].
  destruct (in_scope _ _); simpl; [|done].
  unfold Iterator.current_item, Iterator.key, Iterator.value, Engine.key,
    Engine.val, Engine.prev, item_of, row_of, Engine.current.
  simpl. rewrite He. simpl.
  by destruct (Iterator._keys_only it), (Iterator._prefix it).
Qed.

Lemma prevs_before (it : Iterator.t) es fuel : forall j,
  j <= length es -> j < fuel ->
  prevs fuel it (before es j)
  = (item_of it
       <$> take_while (fun e => in_scope (Iterator._prefix it) e.1)
             (reverse (take j es)),
     Some StopIteration).
Proof.
  induction fuel as [|fuel IH]; intros j Hj Hfuel; [lia|].
  destruct j as [|j].
  { cbn [prevs]. unfold Iterator.prev. by rewrite valid_current. }
  destruct (lookup_lt_is_Some_2 es j) as [e He]; [lia|].
  cbn [prevs]. rewrite (prev_before _ _ _ _ He).
  rewrite (take_S_r _ _ _ He), reverse_snoc. simpl.
  destruct (in_scope _ _); [|done]. rewrite IH by lia. done.
Qed.

Lemma reverse_window (P : bytes) es :
  Engine.ascending es = true ->
  Forall (fun e => bytes_lt e.1 P \/ startswith P e.1 = true) es ->
  take_while (fun e => startswith P e.1) (reverse es)
  = reverse (filter (fun e => startswith P e.1 = true) es).
Proof.
  induction es as [|x es IH] using rev_ind; intros Hasc Hall; [done|].
  apply Forall_app in Hall as [Hall Hx]. apply Forall_cons_1 in Hx as [Hx _].
  pose proof (ascending_snoc _ _ Hasc) as Hbelow.
  rewrite reverse_snoc, filter_app, reverse_app, filter_cons, filter_nil.
  simpl. destruct (startswith P x.1) eqn:Hsw.
  - rewrite decide_True by done. simpl. f_equal.
    apply IH; [by eapply ascending_app_l|done].
  - rewrite decide_False by congruence. simpl.
    simpl in Hx. destruct Hx as [Hlt|Hx]; [|rewrite Hx in Hsw; done].
    rewrite filter_none; [done|].
    eapply Forall_impl; [exact Hbelow|]. simpl. intros e He Hsw'.
    apply (startswith_not_lt _ _ Hsw'). by eapply bytes_lt_trans.
Qed.

(** From [seekLast] backwards: on a store in ascending key order, the
    [prev()] calls of an iterator with prefix [P] that [seekLast] has
    placed yield the rows under [P], without [P], from the greatest key
    down, and then raise [StopIteration]. *)
Theorem reverse_scan (it : Iterator.t) (P : bytes) (c : Engine.Cursor)
    (fuel : nat) :
  Engine.ascending (Engine.entries c) = true ->
  Iterator._prefix it = Some P ->
  Iterator._keys_only it = false ->
  length (Engine.entries c) < fuel ->
  exists c',
    Iterator.seekLast it c = Ok c'
    /\ prevs fuel it c'
       = (Iterator.ARow <$> reverse (prefixed_rows P (Engine.entries c)),
          Some StopIteration).
Proof.
  intros Hasc HP Hko Hfuel.
  destruct (seekLast_before it P c Hasc HP) as (j & Hseek & Hj & Hlow & Hhigh).
  exists (before (Engine.entries c) j). split; [done|].
  rewrite prevs_before by lia. rewrite HP. simpl.
  rewrite reverse_window; [|by eapply ascending_app_l; rewrite take_drop|done].
  unfold prefixed_rows. f_equal.
  rewrite <- (take_drop j (Engine.entries c)) at 2.
  rewrite filter_app, (filter_none _ (drop j _)), app_nil_r.
  2:{ eapply Forall_impl; [exact Hhigh|]. simpl. congruence. }
  rewrite <- fmap_reverse, <- list_fmap_compose.
  apply list_fmap_ext. intros _ e _. unfold item_of, row_of. by rewrite Hko, HP.
Qed.

Lemma keys_values_in_scope_witness :
  let it := Iterator.mk 1 (Some (str "ns/")) false in
  Iterator_keys 5 it (Iterator.seekFirst it (Engine.mkCursor namespaced None))
  = ([str "x"; str "y"], Iterator.Returned)
  /\ Iterator_values 5 it
       (Iterator.seekFirst it (Engine.mkCursor namespaced None))
     = ([str "2"; str "3"], Iterator.Returned).
Proof.
  apply (keys_values_in_scope (Iterator.mk 1 (Some (str "ns/")) false)
           (Engine.mkCursor namespaced None) 5);
    [reflexivity | simpl; lia].
Defined.

Lemma keys_only_iterator_witness :
  let it := Iterator.mk 1 (Some (str "ns/")) true in
  let c := Engine.mkCursor namespaced None in
  Iterator.nexts 5 it (Iterator.seekFirst it c)
  = ([Iterator.AKey (str "x"); Iterator.AKey (str "y")], Some StopIteration)
  /\ forall start_key start_inclusive end_key end_inclusive c1,
       Iterator.range_start it start_key start_inclusive c = Ok c1 ->
       Iterator.valid it c1 = Ok true ->
       Iterator.range 5 it start_key (Some end_key) start_inclusive
         end_inclusive c
       = ([], Iterator.Failed AttributeError).
Proof.
  apply (keys_only_iterator (Iterator.mk 1 (Some (str "ns/")) true)
           (Engine.mkCursor namespaced None) 5);
    [reflexivity | reflexivity | simpl; lia].
Defined.

Lemma reverse_scan_witness :
  let it := Iterator.mk 1 (Some (str "ns/")) false in
  exists c',
    Iterator.seekLast it (Engine.mkCursor namespaced None) = Ok c'
    /\ prevs 5 it c'
       = ([Iterator.ARow (Row.mk (str "y") (str "3"));
           Iterator.ARow (Row.mk (str "x") (str "2"))], Some StopIteration).
Proof.
  apply (reverse_scan (Iterator.mk 1 (Some (str "ns/")) false) (str "ns/")
           (Engine.mkCursor namespaced None) 5);
    [reflexivity | reflexivity | reflexivity | simpl; lia].
Defined.

End Scans.

Section Bound.

(** The successor that [seekLast] computes for a prefix that is not all
    [0xFF] is not empty, and the keys below it are the keys below the
    prefix together with the keys that begin with the prefix: it is the
    least key beyond every key under the prefix, which is why seeking to
    it and stepping back lands on the last key under the prefix. *)
Theorem next_prefix_least_upper_bound (prefix : bytes) :
  prefix <> replicate (length prefix) xff ->
  exists s,
    next_prefix prefix = Ok s
    /\ s <> []
    /\ (forall k, bytes_lt k s <-> bytes_lt k prefix \/ startswith prefix k = true)
    /\ (forall s', (forall k, startswith prefix k = true -> bytes_lt k s') ->
                   ~ bytes_lt s' s).
Proof.
  intros Hff. exists (rstrip x00 (incr prefix).1).
  assert ((incr prefix).2 = false) as Hc.
  { destruct (incr prefix).2 eqn:E; [|done]. by apply incr_carry in E. }
  split; [by apply next_prefix_incr|].
  split; [by apply incr_no_carry_nonzero|].
  split; [intros k; by apply successor_below|].
  intros s' Hup Hlt.
  destruct (proj1 (successor_below prefix s' Hc) Hlt) as [Hlt'|Hsw].
  - apply (bytes_lt_irrefl prefix). eapply bytes_lt_trans; [|exact Hlt'].
    apply Hup, startswith_app. exists []. by rewrite app_nil_r.
  - by apply (bytes_lt_irrefl s'), Hup.
Qed.

Lemma next_prefix_least_upper_bound_witness :
  exists s,
    next_prefix (str "ns/") = Ok s
    /\ s <> []
    /\ (forall k, bytes_lt k s
                  <-> bytes_lt k (str "ns/")
                      \/ startswith (str "ns/") k = true)
    /\ (forall s', (forall k, startswith (str "ns/") k = true ->
                              bytes_lt k s') ->
                   ~ bytes_lt s' s).
Proof.
  apply (next_prefix_least_upper_bound (str "ns/")).
  intros H. vm_compute in H. discriminate H.
Defined.

End Bound.

Section Calls.

Import DBInterface.

Implicit Types (db s : DBInterface.t) (h : MemorySafety.heap)
  (d : Native.db) (σ : WriteBatch.store).

Lemma ref_shared s db h :
  _impl s = _impl db -> DBInterface_ref s h = DBInterface_ref db h.
Proof. unfold DBInterface_ref. by intros ->. Qed.

Lemma ref_closed db h :
  MemorySafety.live (_impl db) h = Some MemorySafety.closed ->
  DBInterface_ref db h = Raise AttributeError.
Proof. unfold DBInterface_ref. by intros ->. Qed.

Lemma translate_scoped db key : translate db key = scoped (_prefix db) key.
Proof. done. Qed.


(** A value written through one handle is read through every handle on
    the same guard under every key that translates to the same stored
    key, whatever the options of the calls; the other keys read as
    before. *)
Theorem put_get_round_trip (w r : DBInterface.t) (key val : bytes)
    (sync : option bool) h d :
  _impl r = _impl w ->
  is_Some (MemorySafety.live (_impl w) h ≫= MemorySafety.ref) ->
  exists d',
    DBInterface_put w key val sync h d = Ok d'
    /\ forall key' verify_checksums fill_cache,
         (translate r key' = translate w key ->
            DBInterface_get r key' verify_checksums fill_cache h d'
            = Ok (Some val)
            /\ DBInterface_has r key' verify_checksums fill_cache h d'
               = Ok true)
         /\ (translate r key' <> translate w key ->
               DBInterface_get r key' verify_checksums fill_cache h d'
               = DBInterface_get r key' verify_checksums fill_cache h d).
Proof.
  intros Himpl [n Hn].
  assert (DBInterface_ref w h = Ok n) as Hw.
  { unfold DBInterface_ref. by rewrite Hn. }
  pose proof (ref_shared r w h Himpl) as Hr. rewrite Hw in Hr.
  eexists. split.
  { unfold DBInterface_put. rewrite Hw. done. }
  intros key' vc fc. unfold DBInterface_has, DBInterface_get.
  rewrite Hr. cbn [mbind result_bind]. unfold Native.get, Native.put.
  split.
  - intros ->. by rewrite lookup_insert_eq.
  - intros Hne. by rewrite lookup_insert_ne.
Qed.

(** The mapping calls: after [db[k] = v], [db[k]] is [v] and [k in db]
    holds; after [del db[k]], and for any key that is not stored, [db[k]]
    raises [KeyError] with the key as the caller gave it, without the
    prefix of the handle, and [k in db] does not hold. *)
Theorem mapping_calls (db : DBInterface.t) (k v : bytes) h d :
  is_Some (MemorySafety.live (_impl db) h ≫= MemorySafety.ref) ->
  (exists d',
     DBInterface_setitem db k v h d = Ok d'
     /\ DBInterface_getitem db k h d' = Value v
     /\ DBInterface_contains db k h d' = Ok true)
  /\ (exists d',
        DBInterface_delitem db k h d = Ok d'
        /\ DBInterface_getitem db k h d' = KeyError k
        /\ DBInterface_contains db k h d' = Ok false)
  /\ (d !! translate db k = None ->
        DBInterface_getitem db k h d = KeyError k
        /\ DBInterface_contains db k h d = Ok false).
Proof.
  intros [n Hn].
  assert (DBInterface_ref db h = Ok n) as Hw.
  { unfold DBInterface_ref. by rewrite Hn. }
  unfold DBInterface_setitem, DBInterface_delitem, DBInterface_getitem,
    DBInterface_contains, DBInterface_has, DBInterface_get, DBInterface_put,
    DBInterface_delete.
  rewrite Hw. cbn [mbind result_bind]. unfold Native.get, Native.put,
    Native.delete.
  split; [|split].
  - eexists. split; [done|]. by rewrite lookup_insert_eq.
  - eexists. split; [done|]. by rewrite lookup_delete_eq.
  - by intros ->.
Qed.

Lemma write_lookup (b : WriteBatch.t) sync d x :
  Native.write b sync d !! x
  = if decide (x ∈ WriteBatch._deletes b) then None
    else (WriteBatch._puts b ∪ d) !! x.
Proof.
  unfold Native.write. rewrite map_lookup_filter.
  destruct ((WriteBatch._puts b ∪ d) !! x) as [v|]; simpl.
  - case_decide.
    + rewrite option_guard_False; [done|]. simpl. set_solver.
    + by rewrite option_guard_True.
  - by case_decide.
Qed.

Lemma write_put puts deletes p k v sync d :
  Native.write (WriteBatch.mk (<[k := v]> puts) (deletes ∖ {[k]}) p) sync d
  = <[k := v]> (Native.write (WriteBatch.mk puts deletes p) sync d).
Proof.
  apply map_eq. intros x. rewrite write_lookup. simpl.
  destruct (decide (x = k)) as [->|Hne].
  - rewrite lookup_insert_eq. rewrite decide_False by set_solver.
    rewrite lookup_union_l'; [|by rewrite lookup_insert_eq].
    by rewrite lookup_insert_eq.
  - rewrite lookup_insert_ne by done. rewrite write_lookup. simpl.
    destruct (decide (x ∈ deletes)).
    + rewrite decide_True by set_solver. done.
    + rewrite decide_False by set_solver.
      rewrite !lookup_union, lookup_insert_ne by done. done.
Qed.

Lemma write_delete puts deletes p k sync d :
  Native.write (WriteBatch.mk (base.delete k puts) (deletes ∪ {[k]}) p) sync d
  = base.delete k (Native.write (WriteBatch.mk puts deletes p) sync d).
Proof.
  apply map_eq. intros x. rewrite write_lookup. simpl.
  destruct (decide (x = k)) as [->|Hne].
  - rewrite lookup_delete_eq. rewrite decide_True by set_solver. done.
  - rewrite lookup_delete_ne by done. rewrite write_lookup. simpl.
    destruct (decide (x ∈ deletes)).
    + rewrite decide_True by set_solver. done.
    + rewrite decide_False by set_solver.
      rewrite !lookup_union, lookup_delete_ne by done. done.
Qed.

Lemma write_empty p sync d :
  Native.write (WriteBatch.mk ∅ ∅ p) sync d = d.
Proof.
  apply map_eq. intros x. rewrite write_lookup. simpl.
  rewrite decide_False by set_solver. by rewrite (left_id_L ∅ (∪)).
Qed.

Lemma write_public s batch sync σ B h d :
  σ !! batch = Some B ->
  WriteBatch._private B = false ->
  is_Some (MemorySafety.live (_impl s) h ≫= MemorySafety.ref) ->
  (DBInterface_write s batch sync σ h d).1
  = Ok (Native.write (handed s B) (default (_default_sync s) sync) d).
Proof.
  intros Hb Hpub [n Hn].
  assert (DBInterface_ref s h = Ok n) as Hw.
  { unfold DBInterface_ref. by rewrite Hn. }
  unfold DBInterface_write, write, handed. rewrite Hb.
  destruct (_prefix s) as [prefix|].
  - rewrite Hpub. simpl. rewrite Hw. simpl.
    rewrite list_lookup_insert_eq.
    2:{ rewrite length_app. simpl. lia. }
    by rewrite translated_puts, translated_deletes.
  - rewrite Hw. simpl. by rewrite Hb.
Qed.

Lemma write_private s batch sync σ B h d :
  σ !! batch = Some B ->
  WriteBatch._private B = true ->
  is_Some (MemorySafety.live (_impl s) h ≫= MemorySafety.ref) ->
  DBInterface_write s batch sync σ h d
  = (Ok (Native.write B (default (_default_sync s) sync) d), σ).
Proof.
  intros Hb Hpriv [n Hn].
  assert (DBInterface_ref s h = Ok n) as Hw.
  { unfold DBInterface_ref. by rewrite Hn. }
  unfold DBInterface_write, write. rewrite Hb, Hpriv.
  destruct (_prefix s); simpl; rewrite Hw; simpl; by rewrite Hb.
Qed.

(** Through a handle with a prefix nothing outside the prefix is written:
    [put], [delete] and the [write] of a batch of the caller's own leave
    every stored key that does not begin with the prefix as it was. *)
Theorem scope_isolates_writes (s : DBInterface.t) (prefix : bytes) h d
    (other : bytes) :
  _prefix s = Some prefix ->
  startswith prefix other = false ->
  (forall key val sync d',
     DBInterface_put s key val sync h d = Ok d' -> d' !! other = d !! other)
  /\ (forall key sync d',
        DBInterface_delete s key sync h d = Ok d' ->
        d' !! other = d !! other)
  /\ (forall batch B sync σ d',
        σ !! batch = Some B ->
        WriteBatch._private B = false ->
        (DBInterface_write s batch sync σ h d).1 = Ok d' ->
        d' !! other = d !! other).
Proof.
  intros HP Hout.
  assert (forall key, translate s key <> other) as Hne.
  { intros key <-. unfold translate in Hout. rewrite HP in Hout.
    assert (startswith prefix (prefix ++ key) = true) as Hin.
    { apply startswith_app. by exists key. }
    congruence. }
  split; [|split].
  - intros key val sync d'. unfold DBInterface_put.
    destruct (DBInterface_ref s h); [|done]. simpl. intros [= <-].
    unfold Native.put. by rewrite lookup_insert_ne.
  - intros key sync d'. unfold DBInterface_delete.
    destruct (DBInterface_ref s h); [|done]. simpl. intros [= <-].
    unfold Native.delete. by rewrite lookup_delete_ne.
  - intros batch B sync σ d' Hb Hpub.
    unfold DBInterface_write, write. rewrite Hb, HP, Hpub. simpl.
    destruct (DBInterface_ref s h); [|done]. simpl.
    rewrite list_lookup_insert_eq.
    2:{ rewrite length_app. simpl. lia. }
    simpl. intros [= <-]. rewrite write_lookup. simpl.
    rewrite translated_puts, translated_deletes.
    rewrite decide_False.
    2:{ intros (k & -> & _)%elem_of_map. by apply (Hne k); unfold translate; rewrite HP. }
    rewrite lookup_union_r; [done|].
    apply lookup_kmap_None; [apply _|]. intros k ->.
    exfalso. apply (Hne k). unfold translate. by rewrite HP.
Qed.


Lemma put_open s k v sync h d n :
  MemorySafety.live (_impl s) h ≫= MemorySafety.ref = Some n ->
  DBInterface_put s k v sync h d = Ok (<[translate s k := v]> d).
Proof. intros Hn. unfold DBInterface_put, DBInterface_ref. by rewrite Hn. Qed.

Lemma delete_open s k sync h d n :
  MemorySafety.live (_impl s) h ≫= MemorySafety.ref = Some n ->
  DBInterface_delete s k sync h d = Ok (base.delete (translate s k) d).
Proof.
  intros Hn. unfold DBInterface_delete, DBInterface_ref. by rewrite Hn.
Qed.

Lemma snoc_lookup σ (B : WriteBatch.t) : (σ ++ [B]) !! length σ = Some B.
Proof. by rewrite lookup_app_r, Nat.sub_diag. Qed.

Lemma snoc_insert σ (B B' : WriteBatch.t) :
  <[length σ := B']> (σ ++ [B]) = σ ++ [B'].
Proof. by rewrite insert_app_r_alt, Nat.sub_diag. Qed.

Lemma batched_calls w h n cs : forall σ B0,
  MemorySafety.live (_impl w) h ≫= MemorySafety.ref = Some n ->
  Forall (fun c => _impl c.1 = _impl w) cs ->
  WriteBatch._private B0 = true ->
  exists B,
    run_calls (σ ++ [B0]) (batched (length σ) <$> cs) = σ ++ [B]
    /\ WriteBatch._private B = true
    /\ forall sync d,
         Native.write B sync d = foldl (direct h) (Native.write B0 sync d) cs.
Proof.
  induction cs as [|[s c] cs IH]; intros σ B0 Hn Hall Hpriv.
  { exists B0. done. }
  apply Forall_cons in Hall as [Hs Hall]. simpl in Hs.
  assert (MemorySafety.live (_impl s) h ≫= MemorySafety.ref = Some n) as Hsn.
  { by rewrite Hs. }
  destruct B0 as [puts deletes p]. simpl in Hpriv. subst p.
  destruct c as [k v|k]; unfold run_calls in *;
    cbn [fmap list_fmap foldl batched run_call].
  - unfold putTo. rewrite snoc_lookup. simpl. rewrite snoc_insert.
    destruct (IH σ (WriteBatch.mk (<[translate s k := v]> puts)
                      (deletes ∖ {[translate s k]}) true) Hn Hall eq_refl)
      as (B & Hrun & HB & Hw).
    exists B. split; [done|]. split; [done|]. intros sync d.
    by rewrite Hw, write_put, (put_open _ _ _ _ _ _ n).
  - unfold deleteFrom. rewrite snoc_lookup. simpl. rewrite snoc_insert.
    destruct (IH σ (WriteBatch.mk (base.delete (translate s k) puts)
                      (deletes ∪ {[translate s k]}) true) Hn Hall eq_refl)
      as (B & Hrun & HB & Hw).
    exists B. split; [done|]. split; [done|]. intros sync d.
    by rewrite Hw, write_delete, (delete_open _ _ _ _ _ n).
Qed.

(** A batch of a handle, written, does to the store what its calls would
    have done one after the other: after [newBatch], the [putTo] and
    [deleteFrom] calls of handles on the guard, and [write], the store is
    the one the [put] and [delete] calls of the same handles with the same
    keys lead to, in the order of the calls; [write] makes no copy of the
    batch. *)
Theorem handle_batch_replays_calls (w : DBInterface.t)
    (cs : list (DBInterface.t * db_call)) (sync : option bool) σ h d :
  is_Some (MemorySafety.live (_impl w) h ≫= MemorySafety.ref) ->
  Forall (fun c => _impl c.1 = _impl w) cs ->
  let '(batch, σ1) := newBatch w σ in
  let σ2 := run_calls σ1 (batched batch <$> cs) in
  DBInterface_write w batch sync σ2 h d = (Ok (foldl (direct h) d cs), σ2).
Proof.
  intros [n Hn] Hall. unfold newBatch, WriteBatch.new_opaque.
  destruct (batched_calls w h n cs σ (WriteBatch.mk ∅ ∅ true) Hn Hall eq_refl)
    as (B & Hrun & HB & Hw).
  rewrite Hrun. rewrite (write_private _ _ _ _ B); [|apply snoc_lookup|done|by exists n].
  by rewrite Hw, write_empty.
Qed.

Lemma set_map_remove (prefix : bytes) (X : gset bytes) k :
  (set_map (app prefix) (X ∖ {[k]}) : gset bytes)
  = set_map (app prefix) X ∖ {[prefix ++ k]}.
Proof.
  apply set_eq. intros x. rewrite elem_of_difference, !elem_of_map.
  split.
  - intros (y & -> & [Hy Hne]%elem_of_difference). split; [by exists y|].
    intros Heq%elem_of_singleton. apply (inj (app prefix)) in Heq.
    set_solver.
  - intros [(y & -> & Hy) Hne]. exists y. split; [done|].
    apply elem_of_difference. split; [done|]. set_solver.
Qed.

Lemma handed_put s puts deletes k v :
  exists p,
    handed s (WriteBatch.mk (<[k := v]> puts) (deletes ∖ {[k]}) false)
    = WriteBatch.mk (<[translate s k := v]>
                       (WriteBatch._puts (handed s (WriteBatch.mk puts deletes false))))
        (WriteBatch._deletes (handed s (WriteBatch.mk puts deletes false))
           ∖ {[translate s k]}) p
    /\ p = WriteBatch._private (handed s (WriteBatch.mk puts deletes false)).
Proof.
  unfold handed, translate. destruct (_prefix s) as [prefix|]; simpl.
  - exists true. split; [|done]. f_equal.
    + rewrite kmap_insert; [done|apply _].
    + apply set_map_remove.
  - by exists false.
Qed.

Lemma handed_delete s puts deletes k :
  exists p,
    handed s (WriteBatch.mk (base.delete k puts) (deletes ∪ {[k]}) false)
    = WriteBatch.mk (base.delete (translate s k)
                       (WriteBatch._puts (handed s (WriteBatch.mk puts deletes false))))
        (WriteBatch._deletes (handed s (WriteBatch.mk puts deletes false))
           ∪ {[translate s k]}) p
    /\ p = WriteBatch._private (handed s (WriteBatch.mk puts deletes false)).
Proof.
  unfold handed, translate. destruct (_prefix s) as [prefix|]; simpl.
  - exists true. split; [|done]. f_equal.
    + rewrite kmap_delete; [done|apply _].
    + by rewrite set_map_union_L, set_map_singleton_L.
  - by exists false.
Qed.

Lemma handed_eta s B :
  handed s B
  = WriteBatch.mk (WriteBatch._puts (handed s B))
      (WriteBatch._deletes (handed s B)) (WriteBatch._private (handed s B)).
Proof. by destruct (handed s B). Qed.

Lemma buffered_calls s h n cs : forall σ B0,
  MemorySafety.live (_impl s) h ≫= MemorySafety.ref = Some n ->
  WriteBatch._private B0 = false ->
  exists B,
    run_calls (σ ++ [B0]) (buffered (length σ) <$> cs) = σ ++ [B]
    /\ WriteBatch._private B = false
    /\ forall sync d,
         Native.write (handed s B) sync d
         = foldl (direct h) (Native.write (handed s B0) sync d) (pair s <$> cs).
Proof.
  induction cs as [|c cs IH]; intros σ B0 Hn Hpub.
  { exists B0. done. }
  destruct B0 as [puts deletes p]. simpl in Hpub. subst p.
  destruct c as [k v|k]; unfold run_calls in *;
    cbn [fmap list_fmap foldl buffered run_call].
  - unfold WriteBatch.put. rewrite snoc_lookup. simpl. rewrite snoc_insert.
    destruct (IH σ (WriteBatch.mk (<[k := v]> puts) (deletes ∖ {[k]}) false)
                Hn eq_refl) as (B & Hrun & HB & Hw).
    exists B. split; [done|]. split; [done|]. intros sync d.
    rewrite Hw. destruct (handed_put s puts deletes k v) as (p & -> & ->).
    rewrite write_put, (put_open _ _ _ _ _ _ n) by done.
    by rewrite <- handed_eta.
  - unfold WriteBatch.delete. rewrite snoc_lookup. simpl. rewrite snoc_insert.
    destruct (IH σ (WriteBatch.mk (base.delete k puts) (deletes ∪ {[k]}) false)
                Hn eq_refl) as (B & Hrun & HB & Hw).
    exists B. split; [done|]. split; [done|]. intros sync d.
    rewrite Hw. destruct (handed_delete s puts deletes k) as (p & -> & ->).
    rewrite write_delete, (delete_open _ _ _ _ _ n) by done.
    by rewrite <- handed_eta.
Qed.

(** A batch of the caller's own, written through a handle, does to the
    store what its calls would have done through the handle one after the
    other: after [WriteBatch()], its [put] and [delete] calls, and the
    [write] of a handle, the store is the one the [put] and [delete] calls
    of that handle with the same keys lead to, in the order of the calls;
    the prefix of the handle comes before each key once. *)
Theorem public_batch_replays_calls (s : DBInterface.t) (cs : list db_call)
    (sync : option bool) σ h d :
  is_Some (MemorySafety.live (_impl s) h ≫= MemorySafety.ref) ->
  let '(batch, σ1) := WriteBatch.new σ in
  let σ2 := run_calls σ1 (buffered batch <$> cs) in
  (DBInterface_write s batch sync σ2 h d).1
  = Ok (foldl (direct h) d (pair s <$> cs)).
Proof.
  intros [n Hn]. unfold WriteBatch.new.
  destruct (buffered_calls s h n cs σ (WriteBatch.mk ∅ ∅ false) Hn eq_refl)
    as (B & Hrun & HB & Hw).
  rewrite Hrun.
  rewrite (write_public _ _ _ _ B); [|apply snoc_lookup|done|by exists n].
  rewrite Hw. do 2 f_equal. unfold handed.
  destruct (_prefix s); simpl; [|apply write_empty].
  rewrite kmap_empty, set_map_empty. apply write_empty.
Qed.

Lemma key_le_total : Total Native.key_le.
Proof.
  intros e e'. unfold Native.key_le, bytes_le.
  rewrite (bytes_compare_antisym e.1 e'.1).
  destruct (bytes_compare e.1 e'.1); simpl; auto.
Qed.

Lemma entries_elem d e : e ∈ Native.entries d <-> d !! e.1 = Some e.2.
Proof.
  unfold Native.entries. rewrite merge_sort_Permutation.
  destruct e as [k v]. apply elem_of_map_to_list.
Qed.

Lemma entries_length d : length (Native.entries d) = size d.
Proof.
  unfold Native.entries. rewrite merge_sort_Permutation.
  apply length_map_to_list.
Qed.

Lemma sorted_ascending (es : list (bytes * bytes)) :
  Sorted Native.key_le es -> NoDup es.*1 -> Engine.ascending es = true.
Proof.
  induction 1 as [|e es Hs IH Hhd]; [done|].
  rewrite fmap_cons, NoDup_cons. intros [Hnotin Hnd].
  destruct Hhd as [|e' es' Hle]; [done|].
  change (Engine.ascending (e :: e' :: es'))
    with (bytes_ltb e.1 e'.1 && Engine.ascending (e' :: es')).
  rewrite IH by done. rewrite andb_true_r.
  apply bytes_ltb_lt. unfold bytes_lt. unfold Native.key_le, bytes_le in Hle.
  destruct (bytes_compare e.1 e'.1) eqn:Hc; [|done..].
  apply bytes_compare_eq in Hc. exfalso. apply Hnotin.
  rewrite Hc. simpl. left.
Qed.

Lemma entries_ascending d : Engine.ascending (Native.entries d) = true.
Proof.
  apply sorted_ascending.
  - apply Sorted_merge_sort, key_le_total.
  - unfold Native.entries. rewrite merge_sort_Permutation.
    apply NoDup_fst_map_to_list.
Qed.

Lemma scoped_keys_sorted (p : option bytes) (es : list (bytes * bytes)) :
  Engine.ascending es = true ->
  StronglySorted bytes_lt ((fun e => unscoped p e.1) <$> scope_entries p es).
Proof.
  unfold scope_entries. induction es as [|e es IH]; intros Hasc.
  { constructor. }
  apply ascending_cons in Hasc as [Hasc Hall].
  rewrite filter_cons. case_decide as Hin; [|by apply IH].
  simpl. constructor; [by apply IH|].
  apply Forall_fmap, Forall_forall.
  intros e' [Hin' He']%list_elem_of_filter. simpl.
  rewrite Forall_forall in Hall. specialize (Hall e' He').
  unfold bytes_lt in *.
  by rewrite <- (scoped_compare p), !scoped_unscoped.
Qed.

Lemma iterator_open db vc fc p ko h n rs :
  MemorySafety.live (_impl db) h
  = Some (MemorySafety.mk (Some n) (Some rs)) ->
  exists it h',
    iterator db vc fc p ko h = Ok (it, h')
    /\ MemorySafety.released h' = MemorySafety.released h
    /\ MemorySafety.natives h' = S (MemorySafety.natives h).
Proof.
  intros Hg. unfold iterator, native_child. rewrite Hg. simpl.
  unfold MemorySafety.addReferrer, MemorySafety.new. simpl.
  apply live_Some in Hg. pose proof (lookup_lt_Some _ _ _ Hg) as Hlt.
  unfold MemorySafety.live. simpl. rewrite lookup_app_l by done.
  rewrite Hg. simpl. eexists _, _. done.
Qed.

Lemma translate_iterator db prefix k :
  translate db (scoped prefix k)
  = scoped match _prefix db, prefix with
           | Some orig_prefix, Some prefix => Some (orig_prefix ++ prefix)
           | Some orig_prefix, None => Some orig_prefix
           | None, _ => prefix
           end k.
Proof.
  unfold translate. destruct (_prefix db), prefix; simpl; [|done..].
  by rewrite app_assoc.
Qed.

Lemma unscoped_scoped p k : unscoped p (scoped p k) = k.
Proof. destruct p; simpl; [by rewrite drop_app_length|done]. Qed.

Lemma in_scope_scoped p k : in_scope p (scoped p k) = true.
Proof.
  destruct p; simpl; [|done]. apply startswith_app. by eexists.
Qed.

(** Iterating a handle agrees with reading it: [keys] and [values], with
    or without a prefix of the call, return after the keys, in ascending
    order and without the prefixes of handle and call, for which [has] is
    true, and the values [get] gives for them, key by key; they leave the
    iterator they made open, its resource held and not released. *)
Theorem iteration_agrees_with_get (db : DBInterface.t)
    (verify_checksums fill_cache : option bool) (prefix : option bytes)
    (fuel : nat) h d n rs :
  MemorySafety.live (_impl db) h
  = Some (MemorySafety.mk (Some n) (Some rs)) ->
  size d < fuel ->
  exists ks vs h',
    DBInterface_keys fuel db verify_checksums fill_cache prefix h d
    = Ok (ks, Iterator.Returned, h')
    /\ DBInterface_values fuel db verify_checksums fill_cache prefix h d
       = Ok (vs, Iterator.Returned, h')
    /\ StronglySorted bytes_lt ks
    /\ (forall k, k ∈ ks
                  <-> DBInterface_has db (scoped prefix k) None None h d
                      = Ok true)
    /\ Forall2 (fun k v => DBInterface_get db (scoped prefix k) None None h d
                           = Ok (Some v)) ks vs
    /\ MemorySafety.released h' = MemorySafety.released h
    /\ MemorySafety.natives h' = S (MemorySafety.natives h).
Proof.
  intros Hg Hfuel.
  destruct (iterator_open db
              (Some (default (_default_verify_checksums db) verify_checksums))
              (Some (default (_default_fill_cache db) fill_cache))
              prefix false h n rs Hg) as (it & h' & Hit & Hrel & Hnat).
  destruct (iterator_effect _ _ _ _ _ _ _ _ Hit) as (Hp & _).
  assert (DBInterface_ref db h = Ok n) as Href.
  { unfold DBInterface_ref. by rewrite Hg. }
  pose proof (entries_ascending d) as Hasc.
  set (es := Native.entries d) in *.
  set (p := Iterator._prefix it) in *.
  exists ((fun e => unscoped p e.1) <$> scope_entries p es),
    (snd <$> scope_entries p es), h'.
  assert (forall k, translate db (scoped prefix k) = scoped p k) as Htr.
  { intros k. by rewrite translate_iterator, <- Hp. }
  unfold DBInterface_keys, DBInterface_values. rewrite Hit.
  cbn [mbind result_bind]. unfold Native.iterator. rewrite seekFirst_at.
  cbn [Engine.entries].
  rewrite keys_at, values_at by (rewrite entries_length; lia).
  rewrite seekFirst_window by done.
  split; [done|]. split; [done|]. split; [by apply scoped_keys_sorted|].
  split; [|split; [|done]].
  - intros k. unfold DBInterface_has, DBInterface_get. rewrite Href, Htr.
    cbn [mbind result_bind]. unfold Native.get.
    rewrite list_elem_of_fmap. unfold scope_entries. split.
    + intros (e & -> & [Hin He]%list_elem_of_filter).
      rewrite scoped_unscoped by done. apply entries_elem in He.
      rewrite He. by rewrite bool_decide_eq_true_2.
    + intros [= Hk]. apply bool_decide_eq_true_1 in Hk.
      destruct (d !! scoped p k) as [v|] eqn:Hv; [|done].
      exists (scoped p k, v). simpl. split; [by rewrite unscoped_scoped|].
      apply list_elem_of_filter. split; [apply in_scope_scoped|].
      by apply entries_elem.
  - apply Forall2_fmap, Forall_Forall2_diag, Forall_forall.
    intros e [Hin He]%list_elem_of_filter.
    unfold DBInterface_get. rewrite Href, Htr.
    cbn [mbind result_bind]. unfold Native.get.
    rewrite scoped_unscoped by done. apply entries_elem in He. by rewrite He.
Qed.

(** Once a handle that may close has closed, no call through a handle on
    its guard reaches the store: the reads and writes, the mapping calls
    and the iterations raise [AttributeError]. *)
Theorem closed_handle_calls_raise (db : DBInterface.t) fuel h :
  _allow_close db = true ->
  is_Some (MemorySafety.live (_impl db) h) ->
  MemorySafety.opens h < fuel ->
  exists h',
    close fuel db h = Some h'
    /\ forall s d, _impl s = _impl db ->
         (forall key val sync,
            DBInterface_put s key val sync h' d = Raise AttributeError)
         /\ (forall key sync,
               DBInterface_delete s key sync h' d = Raise AttributeError)
         /\ (forall key verify_checksums fill_cache,
               DBInterface_get s key verify_checksums fill_cache h' d
               = Raise AttributeError
               /\ DBInterface_has s key verify_checksums fill_cache h' d
                  = Raise AttributeError)
         /\ (forall k v,
               DBInterface_getitem s k h' d = Raised AttributeError
               /\ DBInterface_setitem s k v h' d = Raise AttributeError
               /\ DBInterface_delitem s k h' d = Raise AttributeError
               /\ DBInterface_contains s k h' d = Raise AttributeError)
         /\ (forall batch sync σ,
               (DBInterface_write s batch sync σ h' d).1
               = Raise AttributeError)
         /\ DBInterface_iter s h' d = Raise AttributeError
         /\ (forall n verify_checksums fill_cache prefix,
               DBInterface_keys n s verify_checksums fill_cache prefix h' d
               = Raise AttributeError
               /\ DBInterface_values n s verify_checksums fill_cache prefix
                    h' d = Raise AttributeError)
         /\ (forall n start_key end_key start_inclusive end_inclusive
               verify_checksums fill_cache,
               DBInterface_range n s start_key end_key start_inclusive
                 end_inclusive verify_checksums fill_cache h' d
               = Raise AttributeError).
Proof.
  intros Hown Hlive Hfuel. unfold close at 1. rewrite Hown.
  destruct (close_spec fuel (_impl db) h Hfuel) as (h' & Hclose & _ & Hc & _).
  specialize (Hc Hlive). exists h'. split; [done|]. intros s d Hs.
  assert (DBInterface_ref s h' = Raise AttributeError) as Href.
  { apply ref_closed. by rewrite Hs. }
  assert (forall vc fc p ko, iterator s vc fc p ko h' = Raise AttributeError)
    as Hit.
  { intros. unfold iterator, native_child. by rewrite Hs, Hc. }
  assert (forall batch sync σ,
            (DBInterface_write s batch sync σ h' d).1 = Raise AttributeError)
    as Hwrite.
  { intros batch sync σ. unfold DBInterface_write.
    destruct (write s batch sync σ) as [[call|e] σ'] eqn:Hw.
    - by rewrite Href.
    - simpl. f_equal. unfold write in Hw.
      destruct (σ !! batch) as [b|]; [|by inversion Hw].
      destruct (_prefix s); [destruct (negb _)|]; by inversion Hw. }
  unfold DBInterface_getitem, DBInterface_setitem, DBInterface_delitem,
    DBInterface_contains, DBInterface_has, DBInterface_get, DBInterface_put,
    DBInterface_delete, DBInterface_iter, DBInterface_keys,
    DBInterface_values, DBInterface_range.
  rewrite Href.
  split; [done|]. split; [done|]. split; [done|]. split; [done|].
  split; [done|]. split; [by rewrite Hit|].
  split; intros; by rewrite !Hit.
Qed.

(** [for row in db]: [__iter__] makes an iterator whose [next()] calls
    yield, in ascending key order, the rows [(k, v)] for which [get] of
    [k] through the handle is [v], and then raise [StopIteration]. *)
Theorem iter_yields_stored_rows (db : DBInterface.t) (fuel : nat) h d n rs :
  MemorySafety.live (_impl db) h
  = Some (MemorySafety.mk (Some n) (Some rs)) ->
  size d < fuel ->
  exists it c h' rows,
    DBInterface_iter db h d = Ok (it, c, h')
    /\ Iterator.nexts fuel it c = (Iterator.ARow <$> rows, Some StopIteration)
    /\ StronglySorted bytes_lt (Row.key <$> rows)
    /\ forall k v,
         Row.mk k v ∈ rows
         <-> DBInterface_get db k None None h d = Ok (Some v).
Proof.
  intros Hg Hfuel.
  destruct (iterator_open db None None None false h n rs Hg)
    as (it & h' & Hit & _).
  destruct (iterator_effect _ _ _ _ _ _ _ _ Hit) as (Hp & Hko & _).
  assert (DBInterface_ref db h = Ok n) as Href.
  { unfold DBInterface_ref. by rewrite Hg. }
  pose proof (entries_ascending d) as Hasc.
  set (es := Native.entries d) in *.
  set (p := Iterator._prefix it) in *.
  assert (forall k, translate db k = scoped p k) as Htr.
  { intros k. change (translate db k) with (translate db (scoped None k)).
    by rewrite translate_iterator, <- Hp. }
  exists it, (Iterator.seekFirst it (Native.iterator d)), h',
    ((fun e => Row.mk (unscoped p e.1) e.2) <$> scope_entries p es).
  split; [unfold DBInterface_iter; by rewrite Hit|].
  split; [|split].
  - unfold Native.iterator. rewrite seekFirst_at. cbn [Engine.entries].
    rewrite nexts_at_any by (rewrite entries_length; lia).
    rewrite seekFirst_window by done. rewrite <- list_fmap_compose.
    f_equal. apply list_fmap_ext. intros _ e _. unfold item_of.
    by rewrite Hko.
  - rewrite <- list_fmap_compose. by apply scoped_keys_sorted.
  - intros k v. unfold DBInterface_get. rewrite Href, Htr.
    cbn [mbind result_bind]. unfold Native.get.
    rewrite list_elem_of_fmap. unfold scope_entries. split.
    + intros (e & [= -> ->] & [Hin He]%list_elem_of_filter).
      rewrite scoped_unscoped by done. apply entries_elem in He.
      by rewrite He.
    + intros [= Hv]. exists (scoped p k, v). simpl.
      split; [by rewrite unscoped_scoped|].
      apply list_elem_of_filter. split; [apply in_scope_scoped|].
      by apply entries_elem.
Qed.

Lemma put_get_round_trip_witness :
  exists d',
    DBInterface_put sample_db (str "z") (str "9") None sample_heap sample_store
    = Ok d'
    /\ forall key' verify_checksums fill_cache,
         (DBInterface.translate sample_root key'
          = DBInterface.translate sample_db (str "z") ->
            DBInterface_get sample_root key' verify_checksums fill_cache
              sample_heap d' = Ok (Some (str "9"))
            /\ DBInterface_has sample_root key' verify_checksums fill_cache
                 sample_heap d' = Ok true)
         /\ (DBInterface.translate sample_root key'
             <> DBInterface.translate sample_db (str "z") ->
               DBInterface_get sample_root key' verify_checksums fill_cache
                 sample_heap d'
               = DBInterface_get sample_root key' verify_checksums fill_cache
                   sample_heap sample_store).
Proof.
  apply (put_get_round_trip sample_db sample_root (str "z") (str "9") None
           sample_heap sample_store).
  - reflexivity.
  - eexists. reflexivity.
Defined.

Lemma mapping_calls_witness :
  (exists d',
     DBInterface_setitem sample_db (str "x") (str "7") sample_heap sample_store
     = Ok d'
     /\ DBInterface_getitem sample_db (str "x") sample_heap d'
        = Value (str "7")
     /\ DBInterface_contains sample_db (str "x") sample_heap d' = Ok true)
  /\ (exists d',
        DBInterface_delitem sample_db (str "x") sample_heap sample_store
        = Ok d'
        /\ DBInterface_getitem sample_db (str "x") sample_heap d'
           = KeyError (str "x")
        /\ DBInterface_contains sample_db (str "x") sample_heap d' = Ok false)
  /\ (sample_store !! DBInterface.translate sample_db (str "x") = None ->
        DBInterface_getitem sample_db (str "x") sample_heap sample_store
        = KeyError (str "x")
        /\ DBInterface_contains sample_db (str "x") sample_heap sample_store
           = Ok false).
Proof.
  apply (mapping_calls sample_db (str "x") (str "7") sample_heap sample_store).
  eexists. reflexivity.
Defined.

Lemma scope_isolates_writes_witness :
  (forall key val sync d',
     DBInterface_put sample_db key val sync sample_heap sample_store = Ok d' ->
     d' !! str "nt" = sample_store !! str "nt")
  /\ (forall key sync d',
        DBInterface_delete sample_db key sync sample_heap sample_store
        = Ok d' ->
        d' !! str "nt" = sample_store !! str "nt")
  /\ (forall batch B sync σ d',
        σ !! batch = Some B ->
        WriteBatch._private B = false ->
        (DBInterface_write sample_db batch sync σ sample_heap sample_store).1
        = Ok d' ->
        d' !! str "nt" = sample_store !! str "nt").
Proof.
  apply (scope_isolates_writes sample_db (str "ns/") sample_heap sample_store
           (str "nt")); reflexivity.
Defined.

Lemma handle_batch_replays_calls_witness :
  let '(batch, σ1) := DBInterface.newBatch sample_db [] in
  let σ2 := run_calls σ1 (batched batch <$> (pair sample_db <$> sample_calls)) in
  DBInterface_write sample_root batch None σ2 sample_heap sample_store
  = (Ok (foldl (direct sample_heap) sample_store
           (pair sample_db <$> sample_calls)), σ2).
Proof.
  apply (handle_batch_replays_calls sample_root
           (pair sample_db <$> sample_calls) None [] sample_heap sample_store).
  - eexists. reflexivity.
  - repeat constructor.
Defined.

Lemma public_batch_replays_calls_witness :
  let '(batch, σ1) := WriteBatch.new [] in
  let σ2 := run_calls σ1 (buffered batch <$> sample_calls) in
  (DBInterface_write sample_db batch None σ2 sample_heap sample_store).1
  = Ok (foldl (direct sample_heap) sample_store
          (pair sample_db <$> sample_calls)).
Proof.
  apply (public_batch_replays_calls sample_db sample_calls None []
           sample_heap sample_store).
  eexists. reflexivity.
Defined.

Lemma iteration_agrees_with_get_witness :
  exists ks vs h',
    DBInterface_keys 5 sample_db None None None sample_heap sample_store
    = Ok (ks, Iterator.Returned, h')
    /\ DBInterface_values 5 sample_db None None None sample_heap sample_store
       = Ok (vs, Iterator.Returned, h')
    /\ StronglySorted bytes_lt ks
    /\ (forall k, k ∈ ks
                  <-> DBInterface_has sample_db (scoped None k) None None
                        sample_heap sample_store = Ok true)
    /\ Forall2 (fun k v => DBInterface_get sample_db (scoped None k) None None
                             sample_heap sample_store = Ok (Some v)) ks vs
    /\ MemorySafety.released h' = MemorySafety.released sample_heap
    /\ MemorySafety.natives h' = S (MemorySafety.natives sample_heap).
Proof.
  apply (iteration_agrees_with_get sample_db None None None 5 sample_heap
           sample_store 100 [1; 2; 3]).
  - reflexivity.
  - vm_compute. lia.
Defined.

Lemma closed_handle_calls_raise_witness :
  DBInterface.close 6 sample_db sample_heap = Some sample_closed
  /\ DBInterface_get sample_root (str "a") None None sample_closed sample_store
     = Raise AttributeError
  /\ DBInterface_iter sample_db sample_closed sample_store
     = Raise AttributeError.
Proof.
  destruct (closed_handle_calls_raise sample_db 6 sample_heap)
    as (h' & Hclose & Hcalls).
  - reflexivity.
  - eexists. reflexivity.
  - vm_compute. lia.
  - assert (h' = sample_closed) as ->.
    { change (DBInterface.close 6 sample_db sample_heap)
        with (Some sample_closed) in Hclose. congruence. }
    destruct (Hcalls sample_root sample_store eq_refl)
      as (_ & _ & Hget & _).
    destruct (Hcalls sample_db sample_store eq_refl)
      as (_ & _ & _ & _ & _ & Hiter & _).
    split; [reflexivity|]. split; [apply Hget|exact Hiter].
Defined.

Lemma iter_yields_stored_rows_witness :
  exists it c h' rows,
    DBInterface_iter sample_db sample_heap sample_store = Ok (it, c, h')
    /\ Iterator.nexts 5 it c = (Iterator.ARow <$> rows, Some StopIteration)
    /\ StronglySorted bytes_lt (Row.key <$> rows)
    /\ forall k v,
         Row.mk k v ∈ rows
         <-> DBInterface_get sample_db k None None sample_heap sample_store
             = Ok (Some v).
Proof.
  apply (iter_yields_stored_rows sample_db 5 sample_heap sample_store 100
           [1; 2; 3]).
  - reflexivity.
  - vm_compute. lia.
Defined.

End Calls.

Section HandleRange.

Import DBInterface.

Implicit Types (db : DBInterface.t) (h : MemorySafety.heap) (d : Native.db).

(** The rows of [range] from the position its first statements reach. *)
Lemma range_scan (it : Iterator.t) (c : Engine.Cursor) (fuel : nat)
    (start_key end_key : option bytes) (start_inclusive end_inclusive : bool) :
  Engine.ascending (Engine.entries c) = true ->
  Iterator._keys_only it = false ->
  length (Engine.entries c) < fuel ->
  (start_inclusive = false -> forall s, start_key = Some s ->
     Engine.valid (Iterator.seek it s c) = true) ->
  Iterator.range fuel it start_key end_key start_inclusive end_inclusive c
  = (Iterator.ARow
       <$> range_rows (Iterator._prefix it) (Engine.entries c) start_key
             end_key start_inclusive end_inclusive,
     Iterator.Returned).
Proof.
  intros Hasc Hk Hfuel Hvalid. unfold Iterator.range.
  rewrite (range_start_at _ _ _ _ Hvalid).
  rewrite range_loop_at by (done || lia).
  set (p := Iterator._prefix it). set (es := Engine.entries c) in *.
  destruct (start_index_split p start_key start_inclusive es Hasc)
    as [Hbefore Hafter].
  set (j := start_index p start_key start_inclusive es) in *.
  f_equal. unfold range_rows. rewrite <- list_fmap_compose.
  change (Iterator.ARow ∘ _) with (row_of p). f_equal.
  set (q := fun k => in_scope p k
                     && in_range start_key end_key start_inclusive
                          end_inclusive (unscoped p k)).
  rewrite (take_while_ext _ (fun e => q e.1)).
  2:{ eapply Forall_impl; [exact Hafter|]. simpl. intros e [Hlo _].
      unfold q, in_range. destruct (in_scope p e.1); [|done].
      by rewrite Hlo. }
  apply (window q).
  - done.
  - eapply Forall_impl; [exact Hbefore|]. simpl. intros e Hlo.
    unfold q, in_range. destruct (in_scope p e.1); [|done].
    by rewrite Hlo.
  - intros e k' He Hq Hlt. rewrite Forall_forall in Hafter.
    destruct (Hafter e He) as [Hlo Hge]. unfold q, in_range in *.
    destruct (in_scope p e.1) eqn:Hin.
    + rewrite Hlo in Hq by done. simpl in Hq.
      destruct (in_scope p k') eqn:Hin'; [|done]. simpl.
      apply andb_false_intro2.
      destruct (upper_ok end_key end_inclusive (unscoped p k')) eqn:Hup;
        [|done].
      rewrite (upper_ok_down _ _ (unscoped p e.1) (unscoped p k')) in Hq;
        [done| |done].
      apply (scoped_lt p _ k' Hin'). by rewrite scoped_unscoped.
    + by rewrite (in_scope_passed p _ e.1 k' Hge Hin Hlt).
Qed.

Lemma range_rows_sorted (p : option bytes) (es : list (bytes * bytes))
    start_key end_key start_inclusive end_inclusive :
  Engine.ascending es = true ->
  StronglySorted bytes_lt
    (Row.key <$> range_rows p es start_key end_key start_inclusive
                   end_inclusive).
Proof.
  unfold range_rows. rewrite <- list_fmap_compose.
  induction es as [|e es IH]; intros Hasc.
  { constructor. }
  apply ascending_cons in Hasc as [Hasc Hall].
  rewrite filter_cons. case_decide as Hin; [|by apply IH].
  simpl. constructor; [by apply IH|].
  apply Forall_fmap, Forall_forall.
  intros e' [Hin' He']%list_elem_of_filter. simpl.
  rewrite Forall_forall in Hall. specialize (Hall e' He').
  apply andb_prop in Hin as [Hin _]. apply andb_prop in Hin' as [Hin' _].
  unfold bytes_lt in *.
  by rewrite <- (scoped_compare p), !scoped_unscoped.
Qed.

(** [range] through a handle agrees with reading it: given more fuel than
    there are entries, and, for a start key taken exclusive, a stored key
    that the seek to it reaches, [range] returns after the rows [(k, v)],
    in ascending order of [k], for which [k] is within the bounds as the
    caller gave them and [get] of [k] through the handle is [v]. *)
Theorem range_agrees_with_get (db : DBInterface.t) (fuel : nat)
    (start_key end_key : option bytes) (start_inclusive end_inclusive : bool)
    (verify_checksums fill_cache : option bool) h d n rs :
  MemorySafety.live (_impl db) h
  = Some (MemorySafety.mk (Some n) (Some rs)) ->
  size d < fuel ->
  (start_inclusive = false -> forall s, start_key = Some s ->
     Engine.valid (Engine.seek (translate db s) (Native.iterator d)) = true) ->
  exists rows h',
    DBInterface_range fuel db start_key end_key start_inclusive end_inclusive
      verify_checksums fill_cache h d
    = Ok (Iterator.ARow <$> rows, Iterator.Returned, h')
    /\ StronglySorted bytes_lt (Row.key <$> rows)
    /\ forall k v,
         Row.mk k v ∈ rows
         <-> in_range start_key end_key start_inclusive end_inclusive k = true
             /\ DBInterface_get db k None None h d = Ok (Some v).
Proof.
  intros Hg Hfuel Hvalid.
  destruct (iterator_open db
              (Some (default (_default_verify_checksums db) verify_checksums))
              (Some (default (_default_fill_cache db) fill_cache))
              None false h n rs Hg) as (it & h' & Hit & _).
  destruct (iterator_effect _ _ _ _ _ _ _ _ Hit) as (Hp & Hko & _).
  assert (DBInterface_ref db h = Ok n) as Href.
  { unfold DBInterface_ref. by rewrite Hg. }
  pose proof (entries_ascending d) as Hasc.
  set (p := Iterator._prefix it) in *.
  assert (forall k, translate db k = scoped p k) as Htr.
  { intros k. change (translate db k) with (translate db (scoped None k)).
    by rewrite translate_iterator, <- Hp. }
  exists (range_rows p (Native.entries d) start_key end_key start_inclusive
            end_inclusive), h'.
  split; [|split].
  - unfold DBInterface_range. rewrite Hit. cbn [mbind result_bind].
    rewrite range_scan; [done|done|done| |].
    + simpl. rewrite entries_length. lia.
    + intros Hex s Hs. rewrite iterator_seek_at. fold p.
      rewrite <- Htr. apply (Hvalid Hex s Hs).
  - by apply range_rows_sorted.
  - intros k v. unfold DBInterface_get. rewrite Href, Htr.
    cbn [mbind result_bind]. unfold Native.get, range_rows.
    rewrite list_elem_of_fmap. split.
    + intros (e & [= -> ->] & [Hin He]%list_elem_of_filter).
      apply andb_prop in Hin as [Hin Hr]. split; [done|].
      rewrite scoped_unscoped by done. apply entries_elem in He.
      by rewrite He.
    + intros [Hr [= Hv]]. exists (scoped p k, v). simpl.
      split; [by rewrite unscoped_scoped|].
      apply list_elem_of_filter. split; [|by apply entries_elem].
      simpl. by rewrite in_scope_scoped, unscoped_scoped, Hr.
Qed.

Lemma range_agrees_with_get_witness :
  exists rows h',
    DBInterface_range 5 sample_db (Some (str "x")) (Some (str "y")) false true
      None None sample_heap sample_store
    = Ok (Iterator.ARow <$> rows, Iterator.Returned, h')
    /\ StronglySorted bytes_lt (Row.key <$> rows)
    /\ forall k v,
         Row.mk k v ∈ rows
         <-> in_range (Some (str "x")) (Some (str "y")) false true k = true
             /\ DBInterface_get sample_db k None None sample_heap sample_store
                = Ok (Some v).
Proof.
  apply (range_agrees_with_get sample_db 5 (Some (str "x")) (Some (str "y"))
           false true None None sample_heap sample_store 100 [1; 2; 3]).
  - reflexivity.
  - vm_compute. lia.
  - intros _ s [= <-]. vm_compute. reflexivity.
Defined.

End HandleRange.

Section Release.

Import MemorySafety.

Implicit Types (h : heap) (g : t) (a b d r : nat).

(** A guard that alone held a resource and has been closed has had the
    resource released, once. *)
Lemma released_once h h' d gd r :
  evolves h h' ->
  live d h = Some gd ->
  ref gd = Some r ->
  (forall b g', b <> d -> live b h = Some g' -> ref g' <> Some r) ->
  live d h' = Some closed ->
  count_occ Nat.eq_dec (released h') r
  = S (count_occ Nat.eq_dec (released h) r).
Proof.
  intros [_ L _ (new & R & P)] Hd Hr Hown Hc.
  assert (count_occ Nat.eq_dec (held h) r = 1) as H1.
  { rewrite (proj1 (Permutation_count_occ Nat.eq_dec _ _)
               (held_store _ _ _ Hd)).
    rewrite Hr, count_occ_app. simpl.
    destruct (Nat.eq_dec r r) as [_|]; [|done].
    rewrite (proj1 (count_occ_not_In Nat.eq_dec _ r)); [done|].
    rewrite <- list_elem_of_In, elem_of_held. intros (b & g' & Hb & Hg').
    destruct (decide (d = b)) as [<-|Hne].
    - rewrite (live_store_eq _ _ _ _ Hd) in Hb. by injection Hb as <-.
    - rewrite live_store_ne in Hb by done. by eapply (Hown b g'). }
  assert (count_occ Nat.eq_dec (held h') r = 0) as H0.
  { apply count_occ_not_In. rewrite <- list_elem_of_In, elem_of_held.
    intros (b & g' & Hb & Hg').
    destruct (L b) as [E|[_ E]]; rewrite E in Hb.
    - destruct (decide (d = b)) as [<-|Hne].
      + rewrite Hc in E. rewrite <- E in Hb. by injection Hb as <-.
      + by eapply (Hown b g').
    - by injection Hb as <-. }
  rewrite (proj1 (Permutation_count_occ Nat.eq_dec _ _) P),
    count_occ_app, H0 in H1.
  rewrite R, count_occ_app. lia.
Qed.

Lemma fades_refl h : fades h h.
Proof. intros x. by left. Qed.

Lemma fades_trans h1 h2 h3 : fades h1 h2 -> fades h2 h3 -> fades h1 h3.
Proof.
  intros L1 L2 x. destruct (L2 x) as [->|[Hs ->]]; [done|].
  right. split; [|done]. destruct (L1 x) as [<-|[? _]]; done.
Qed.

Lemma evolves_fades h h' : evolves h h' -> fades h h'.
Proof. intros Hev x. apply (ev_live _ _ Hev). Qed.

(** What is reached from a guard after some guards have been closed was
    reached from it before. *)
Lemma descends_back h hc x b :
  fades h hc -> descends hc x b -> descends h x b.
Proof.
  intros Hf. induction 1 as [x|x g rs y b Hx Hrs Hy Hlive _ IH].
  { apply descends_refl. }
  destruct (Hf x) as [E|[_ E]]; rewrite E in Hx.
  - apply (descends_step _ x g rs y); [done|done|done| |done].
    destruct (Hf y) as [<-|[? _]]; done.
  - injection Hx as <-. done.
Qed.

Lemma for_each_frame fuel (Q : nat -> Prop) h : forall rs hc h',
  (forall x s s', close fuel x s = Some s' ->
     forall b, ~ descends s x b -> live b s' = live b s) ->
  fades h hc ->
  (forall x b, x ∈ rs -> is_Some (live x h) -> descends h x b -> Q b) ->
  for_each (body fuel) rs hc = Some h' ->
  forall b, ~ Q b -> live b h' = live b hc.
Proof.
  induction rs as [|x rs IH]; intros hc h' Hclose Hf HQ.
  { by intros [= <-]. }
  cbn [for_each]. destruct (body fuel x hc) as [h1|] eqn:Hb; [|done]. simpl.
  intros Hrest b Hb'.
  assert (fades hc h1 /\ live b h1 = live b hc) as [Hf1 Hsame].
  { unfold body in Hb. destruct (live x hc) as [gx|] eqn:Hx.
    - split; [by eapply evolves_fades, close_evolves|].
      apply (Hclose _ _ _ Hb). intros Hd. apply Hb'.
      apply (HQ x b); [by left| |by eapply descends_back].
      destruct (Hf x) as [E|[? _]]; [|done]. rewrite <- E, Hx. eauto.
    - injection Hb as <-. split; [apply fades_refl|done]. }
  rewrite <- Hsame. apply (IH h1 h'); [done| | |done|done].
  - by eapply fades_trans.
  - intros y c Hy. apply HQ. by right.
Qed.

(** [close] changes no guard but the ones reached from the guard it is
    called on. *)
Lemma close_frame fuel : forall a h h',
  close fuel a h = Some h' ->
  forall b, ~ descends h a b -> live b h' = live b h.
Proof.
  induction fuel as [|fuel IH]; intros a h h' Hclose b Hb; [done|].
  rewrite close_unfold in Hclose.
  destruct (live a h) as [g|] eqn:Ha; [|by injection Hclose as <-].
  assert (b <> a) as Hne.
  { intros ->. apply Hb, descends_refl. }
  destruct (evolves_store _ _ _ Ha) as (_ & L1 & _).
  assert (exists h2,
            match _referrers g with
            | Some referrers => for_each (body fuel) referrers (store a closed h)
            | None => Some (store a closed h)
            end = Some h2
            /\ live b h' = live b h2) as (h2 & Hloop & Hlast).
  { change (mk None None) with closed in Hclose. fold (body fuel) in Hclose.
    destruct (match _referrers g with
              | Some referrers =>
                  for_each (body fuel) referrers (store a closed h)
              | None => Some (store a closed h)
              end) as [h2|]; [|done].
    exists h2. split; [done|]. simpl in Hclose.
    destruct (ref g); by injection Hclose as <-. }
  rewrite Hlast. destruct (_referrers g) as [rs|] eqn:Hrs.
  - assert (forall x c, x ∈ rs -> is_Some (live x h) -> descends h x c ->
                         descends h a c) as HQ.
    { intros x c Hx Hlive Hd. by apply (descends_step _ a g rs x). }
    rewrite (for_each_frame fuel (descends h a) h rs _ _ IH L1 HQ Hloop b Hb).
    by apply live_store_ne.
  - injection Hloop as <-. by apply live_store_ne.
Qed.

Lemma for_each_evolves fuel rs : forall h h',
  for_each (body fuel) rs h = Some h' -> evolves h h'.
Proof.
  intros h h' Hloop.
  by destruct (for_each_downward fuel rs h h'
                 (fun b s s' => close_downward fuel b s s') Hloop).
Qed.

(** The guard's own resource is the last one [close] releases. *)
Lemma close_own_last fuel a h h' g r :
  close fuel a h = Some h' ->
  live a h = Some g ->
  ref g = Some r ->
  exists new', released h' = released h ++ new' ++ [r].
Proof.
  destruct fuel as [|fuel]; [done|]. rewrite close_unfold.
  intros Hclose Ha Hr. rewrite Ha, Hr in Hclose.
  change (mk None None) with closed in Hclose. fold (body fuel) in Hclose.
  destruct (_referrers g) as [rs|].
  - destruct (for_each (body fuel) rs _) as [h2|] eqn:Hloop; [|done].
    simpl in Hclose. injection Hclose as <-.
    destruct (for_each_evolves _ _ _ _ Hloop) as [_ _ _ (new & R & _)].
    exists new. simpl. rewrite R. simpl. by rewrite <- app_assoc.
  - simpl in Hclose. injection Hclose as <-. by exists [].
Qed.

Lemma descendants_closed h h' :
  downward h h' ->
  forall a d, descends h a d -> live a h' = Some closed ->
              live d h' = Some closed.
Proof.
  intros Hdown a d Hpath.
  induction Hpath as [a|a g rs b d Ha Hrs Hb Hlb _ IH]; [done|].
  intros Hc. apply IH. by apply (Hdown a g rs b).
Qed.

(** C2. [close] on a live guard returns when given more fuel than there
    are open guards.  Afterwards the guard is closed and its own resource
    has been released once more than before (no other guard holding it),
    after everything else the call releases.  Every dependent that was
    live, and every guard reached from the guard through live dependents,
    has had its own [close]: it is closed, the resource it held has been
    released once more than before (no other guard holding it), and a
    [close] on it changes nothing any more.  No other guard is changed;
    what the call adds to the log of released resources is what the guards
    held before and do not hold any more.  A further [close] on the guard
    changes nothing: neither the guards nor the log. *)
Theorem close_cascades_once (fuel : nat) (a : nat) (g : t) (h : heap) :
  live a h = Some g ->
  opens h < fuel ->
  (forall r b g', ref g = Some r -> b <> a -> live b h = Some g' ->
                  ref g' <> Some r) ->
  exists h',
    close fuel a h = Some h'
    /\ live a h' = Some closed
    /\ (forall rs d, _referrers g = Some rs -> d ∈ rs ->
           is_Some (live d h) -> live d h' = Some closed)
    /\ (forall r, ref g = Some r ->
           count_occ Nat.eq_dec (released h') r
           = S (count_occ Nat.eq_dec (released h) r))
    /\ (forall fuel', close (S fuel') a h' = Some h')
    /\ (forall d gd, descends h a d -> live d h = Some gd ->
          live d h' = Some closed
          /\ (forall r, ref gd = Some r ->
                (forall b g', b <> d -> live b h = Some g' ->
                              ref g' <> Some r) ->
                count_occ Nat.eq_dec (released h') r
                = S (count_occ Nat.eq_dec (released h) r))
          /\ (forall fuel', close (S fuel') d h' = Some h'))
    /\ (forall b, ~ descends h a b -> live b h' = live b h)
    /\ (exists new,
          released h' = released h ++ new
          /\ held h ≡ₚ held h' ++ new
          /\ forall r, ref g = Some r -> exists new', new = new' ++ [r]).
Proof.
  intros Ha Hfuel Hown.
  destruct (close_spec fuel a h Hfuel) as (h' & Hclose & Hev & Hc & Hdeps).
  specialize (Hc (ex_intro _ g Ha)).
  pose proof (close_downward _ _ _ _ Hclose) as Hdown.
  assert (forall d, descends h a d -> live d h' = Some closed) as Hall.
  { intros d Hpath. by apply (descendants_closed h h' Hdown a d). }
  exists h'. split; [done|]. split; [done|].
  split; [intros rs d; by apply (Hdeps g rs d)|].
  split.
  { intros r Hr. apply (released_once h h' a g r); try done.
    intros b g' Hne Hb. by apply (Hown r b g'). }
  split; [intros; by apply close_closed|].
  split; [|split].
  - intros d gd Hpath Hd. split; [by apply Hall|]. split.
    + intros r Hr Hsole. apply (released_once h h' d gd r); try done.
      by apply Hall.
    + intros fuel'. apply close_closed. by apply Hall.
  - by apply (close_frame fuel a h h').
  - destruct Hev as [_ _ _ (new & R & P)]. exists new.
    split; [done|]. split; [done|]. intros r Hr.
    destruct (close_own_last _ _ _ _ _ _ Hclose Ha Hr) as (new' & R').
    exists new'. rewrite R in R'. by apply app_inv_head in R'.
Qed.

Lemma close_cascades_once_witness :
  exists h',
    close 6 0 sample_heap = Some h'
    /\ live 0 h' = Some closed
    /\ (forall rs d, Some [1; 2; 3] = Some rs -> d ∈ rs ->
           is_Some (live d sample_heap) -> live d h' = Some closed)
    /\ (forall r, Some 100 = Some r ->
           count_occ Nat.eq_dec (released h') r
           = S (count_occ Nat.eq_dec (released sample_heap) r))
    /\ (forall fuel', close (S fuel') 0 h' = Some h')
    /\ (forall d gd, descends sample_heap 0 d -> live d sample_heap = Some gd ->
          live d h' = Some closed
          /\ (forall r, ref gd = Some r ->
                (forall b g', b <> d -> live b sample_heap = Some g' ->
                              ref g' <> Some r) ->
                count_occ Nat.eq_dec (released h') r
                = S (count_occ Nat.eq_dec (released sample_heap) r))
          /\ (forall fuel', close (S fuel') d h' = Some h'))
    /\ (forall b, ~ descends sample_heap 0 b -> live b h' = live b sample_heap)
    /\ (exists new,
          released h' = released sample_heap ++ new
          /\ held sample_heap ≡ₚ held h' ++ new
          /\ forall r, Some 100 = Some r -> exists new', new = new' ++ [r]).
Proof.
  apply (close_cascades_once 6 0 (mk (Some 100) (Some [1; 2; 3]))
           sample_heap).
  - reflexivity.
  - vm_compute. lia.
  - intros r b g' Hr Hne Hb. injection Hr as <-.
    destruct b as [|[|[|[|[|b]]]]]; vm_compute in Hb;
      try discriminate Hb; try (by destruct Hne);
      injection Hb as <-; discriminate.
Defined.

Lemma iterator_fresh (db : DBInterface.t) vc fc p ko h it h' :
  DBInterface.iterator db vc fc p ko h = Ok (it, h') ->
  natives h ∉ held h ->
  forall b g', b <> Iterator._impl it -> live b h' = Some g' ->
               ref g' <> Some (natives h).
Proof.
  intros Hit Hfresh b g' Hne Hb Hr.
  destruct (iterator_parts _ _ _ _ _ _ _ _ Hit)
    as (Himpl & r & h1 & h2 & Hch & Hnew & Hadd).
  destruct (child_effect _ _ _ _ _ _ _ Hch Hnew Hadd)
    as (_ & _ & _ & _ & _ & (g & rs & Hg & _ & Hg') & Hother).
  apply Hfresh, elem_of_held.
  destruct (decide (b = DBInterface._impl db)) as [->|Hdb].
  - rewrite Hg' in Hb. injection Hb as <-. by exists (DBInterface._impl db), g.
  - rewrite Hother in Hb by (done || by rewrite <- Himpl). by exists b, g'.
Qed.

(** An iterator made by [iterator] carries the handle's prefix, extended
    by the prefix of the call, and its guard, which holds the new cursor,
    is a referrer of the handle's guard.  [close] on a handle that may
    close has the iterator closed: afterwards the iterator's guard is
    closed as well as the handle's; the cursor, when no guard held it
    before, has been released once more than before, and before the
    handle's own resource; and [Iterator.close] changes nothing any
    more. *)
Theorem close_reaches_iterator (db : DBInterface.t) verify_checksums
    fill_cache prefix keys_only h it h' fuel :
  DBInterface._allow_close db = true ->
  DBInterface.iterator db verify_checksums fill_cache prefix keys_only h
  = Ok (it, h') ->
  opens h' < fuel ->
  Iterator._prefix it
    = match DBInterface._prefix db, prefix with
      | Some orig_prefix, Some prefix => Some (orig_prefix ++ prefix)
      | Some orig_prefix, None => Some orig_prefix
      | None, _ => prefix
      end
  /\ live (Iterator._impl it) h' = Some (mk (Some (natives h)) (Some []))
  /\ exists h'',
       DBInterface.close fuel db h' = Some h''
       /\ live (DBInterface._impl db) h'' = Some closed
       /\ live (Iterator._impl it) h'' = Some closed
       /\ (natives h ∉ held h ->
             count_occ Nat.eq_dec (released h'') (natives h)
             = S (count_occ Nat.eq_dec (released h') (natives h))
             /\ forall g r, live (DBInterface._impl db) h' = Some g ->
                  ref g = Some r ->
                  exists new', released h'' = released h' ++ new' ++ [r]
                               /\ natives h ∈ new')
       /\ (exists new, released h'' = released h' ++ new
                       /\ held h' ≡ₚ held h'' ++ new)
       /\ (forall fuel', Iterator_close (S fuel') it h'' = Some h'')
       /\ (forall b, ~ descends h' (DBInterface._impl db) b ->
                     live b h'' = live b h').
Proof.
  intros Hown Hit Hfuel.
  destruct (iterator_effect _ _ _ _ _ _ _ _ Hit)
    as (Hp & _ & Hne & Hlive & g & rs & Hg & Hrs & Hin).
  split; [done|]. split; [done|]. unfold DBInterface.close. rewrite Hown.
  destruct (close_spec fuel (DBInterface._impl db) h' Hfuel)
    as (h'' & Hclose & Hev & Hc & Hdeps).
  assert (live (Iterator._impl it) h'' = Some closed) as Hitc.
  { apply (Hdeps g rs); [done|done|done|]. rewrite Hlive. eauto. }
  exists h''. split; [done|]. split; [apply Hc; eauto|]. split; [done|].
  split; [|split; [|split]].
  - intros Hfresh.
    assert (count_occ Nat.eq_dec (released h'') (natives h)
            = S (count_occ Nat.eq_dec (released h') (natives h))) as Hcount.
    { apply (released_once h' h'' (Iterator._impl it) _ (natives h) Hev Hlive);
        [done| |done].
      by apply (iterator_fresh db _ _ _ _ _ _ _ Hit). }
    split; [done|]. intros g0 r Hg0 Hr.
    destruct (close_own_last _ _ _ _ _ _ Hclose Hg0 Hr) as (new' & R).
    exists new'. split; [done|].
    assert (r <> natives h) as Hrn.
    { intros ->. by apply (iterator_fresh db _ _ _ _ _ _ _ Hit Hfresh
                             (DBInterface._impl db) g0). }
    rewrite R, !count_occ_app in Hcount. simpl in Hcount.
    destruct (Nat.eq_dec r (natives h)) as [|_]; [done|].
    apply list_elem_of_In, (count_occ_In Nat.eq_dec). lia.
  - destruct Hev as [_ _ _ (new & R & P)]. by exists new.
  - intros fuel'. unfold Iterator_close. by apply close_closed.
  - by apply (close_frame fuel _ h' h'').
Qed.

Lemma close_reaches_iterator_witness :
  let '(db, h) :=
    DBInterface._makeDBFromImpl 0 false false true (mkHeap [] [] 1) in
  exists it h' h'',
    DBInterface.iterator db None None (Some (str "ns/")) false h = Ok (it, h')
    /\ Iterator._prefix it = Some (str "ns/")
    /\ DBInterface.close 3 db h' = Some h''
    /\ live (Iterator._impl it) h'' = Some closed
    /\ count_occ Nat.eq_dec (released h'') 1
       = S (count_occ Nat.eq_dec (released h') 1)
    /\ released h'' = [1; 0].
Proof.
  simpl.
  destruct (close_reaches_iterator
              (DBInterface.mk 0 None true false false true) None None
              (Some (str "ns/")) false
              (DBInterface._makeDBFromImpl 0 false false true
                 (mkHeap [] [] 1)).2
              _ _ 3 eq_refl eq_refl)
    as (Hp & _ & h'' & Hc & _ & Hl & Hrel & _).
  { vm_compute. lia. }
  destruct Hrel as [Hcount _].
  { vm_compute. intros H. by apply list_elem_of_In in H as [|[]]. }
  eexists _, _, h''. split; [reflexivity|]. split; [exact Hp|].
  split; [exact Hc|]. split; [exact Hl|]. split; [exact Hcount|].
  vm_compute in Hc. by injection Hc as <-.
Defined.

End Release.
